(** * The galera job queue: slot table, admission gate, conflict scan

    A shallow embedding of [galera/src/pasture/galera_job_queue.c].

    The queue is a fixed table of [MAX_WORKERS] worker slots guarded by one
    mutex.  Every function body between [gu_mutex_lock] and the next
    [gu_cond_wait] / [gu_mutex_unlock] runs atomically, so each such segment
    is a pure function on the queue record.  A call of [job_queue_start_job]
    that reaches [gu_cond_wait] is cut at that point: the segment returns the
    queue as it is when the thread parks, together with the local variables
    the thread needs to continue ([wait_point]).  Calls of [gu_cond_signal]
    are collected, in program order, as the list of signalled slot indices.

    The header [galera_job_queue.h] is not part of the sources at hand; what
    it declares (the enumeration of job states, the two structures, the
    constant [MAX_WORKERS], the callback types) is reconstructed from the way
    the C file uses it. *)

From stdpp Require Import base numbers option list.

Local Open Scope Z_scope.

(** ** Data model *)

(** Modelled from the spec: [enum job_state] is declared in the absent
    header [galera_job_queue.h]; these are the six constants the C file
    names, matching the six slot states of the spec (their order in the
    header plays no role here). *)
Inductive job_state :=
| JOB_VOID
| JOB_IDLE
| JOB_REGISTERED
| JOB_WAIT_QUEUE_ENTER
| JOB_WAIT_FOR_JOB
| JOB_RUNNING.

#[global] Instance job_state_eq_dec : EqDecision job_state.
Proof. solve_decision. Defined.

(** A [void *] context handle, as the integer value of the pointer. *)
Definition NULL : Z := 0.

(** Every public function that returns [int] returns this one code. *)
Inductive wsdb_status := WSDB_OK.

(** Modelled from the spec: [struct job_worker] is declared in the absent
    header; the fields are those the C file reads and writes.  The
    condition variable [cond] has no contents of its own: who is parked on
    it is part of the thread model further down.  The debugging tag
    [ident], which only [CHECK_OBJ] reads, is left out. *)
Record job_worker := mk_job_worker {
  state   : job_state;
  ctx     : Z;
  id      : nat;
  type    : Z;
  waiters : list bool
}.

(** Modelled from the spec: [struct job_queue] is declared in the absent
    header, and with it the widths of the three counters; the spec
    describes them as counts, and they are unbounded integers here, so a
    decrement below zero shows as a negative number instead of a
    wrap-around.  The two callbacks [conflict_test] and [job_cmp_order] are
    stored once by [job_queue_create] and never written again; they are
    parameters of the development (section variables) rather than
    fields. *)
Record job_queue := mk_job_queue {
  active_workers         : Z;
  registered_workers     : Z;
  max_concurrent_workers : Z;
  jobs                   : list job_worker
}.

(** What the order callback receives: [&queue->jobs[i].ctx], the address of
    the [ctx] field of slot [i], not the handle stored there.  A pointer is
    modelled by the place it designates ([ref_slot]) together with what a
    read through it yields at the time of the call ([ref_val]). *)
Record ctx_ref := mk_ctx_ref {
  ref_slot : nat;
  ref_val  : Z
}.

(** Field updates [worker->f = v]. *)
Definition set_state (s : job_state) (w : job_worker) : job_worker :=
  mk_job_worker s (ctx w) (id w) (type w) (waiters w).
Definition set_ctx (c : Z) (w : job_worker) : job_worker :=
  mk_job_worker (state w) c (id w) (type w) (waiters w).
Definition set_type (t : Z) (w : job_worker) : job_worker :=
  mk_job_worker (state w) (ctx w) (id w) t (waiters w).
Definition set_waiter (i : nat) (b : bool) (w : job_worker) : job_worker :=
  mk_job_worker (state w) (ctx w) (id w) (type w) (<[i:=b]> (waiters w)).

Definition set_active (n : Z) (q : job_queue) : job_queue :=
  mk_job_queue n (registered_workers q) (max_concurrent_workers q) (jobs q).
Definition set_registered (n : Z) (q : job_queue) : job_queue :=
  mk_job_queue (active_workers q) n (max_concurrent_workers q) (jobs q).

(** [queue->jobs[i]] modified in place by [f]. *)
Definition upd_job (i : nat) (f : job_worker → job_worker) (q : job_queue)
  : job_queue :=
  mk_job_queue (active_workers q) (registered_workers q)
               (max_concurrent_workers q) (alter f i (jobs q)).

(** A slot that is in no table: what a read outside the array yields in the
    model (C leaves it undefined; no handle the queue gives out is outside). *)
Definition no_worker : job_worker := mk_job_worker JOB_VOID NULL 0 0 [].

(** [queue->jobs[i]] read. *)
Definition job (q : job_queue) (i : nat) : job_worker :=
  default no_worker (jobs q !! i).

(** [queue->jobs[j].waiters[i]] read. *)
Definition waiter_flag (q : job_queue) (j i : nat) : bool :=
  default false (waiters (job q j) !! i).

(** The states the conflict scan of [job_queue_start_job] looks at. *)
Definition scanned_state (s : job_state) : bool :=
  match s with
  | JOB_RUNNING | JOB_WAIT_QUEUE_ENTER | JOB_WAIT_FOR_JOB | JOB_REGISTERED => true
  | JOB_VOID | JOB_IDLE => false
  end.

(** Where a thread inside [job_queue_start_job] is parked, with the locals
    it resumes with: at the admission gate (the argument [ctx]), or inside
    the conflict scan (the argument [ctx] and the loop index [i]).  Both
    waits are on the condition variable of the worker's own slot
    ([worker->cond], [queue->jobs[worker->id].cond]). *)
Inductive wait_point :=
| AtGate (c : Z)
| InScan (c : Z) (i : nat).

#[global] Instance wait_point_eq_dec : EqDecision wait_point.
Proof. solve_decision. Defined.

(** A segment of [job_queue_start_job] ends either at the [return WSDB_OK]
    or at a [gu_cond_wait]. *)
Inductive start_outcome :=
| Started (q : job_queue) (r : wsdb_status)
| Parked (q : job_queue) (k : wait_point).

(** [job_queue_new_worker] has two failure exits, both returning [NULL];
    they differ in the warning they log. *)
Inductive new_worker_result :=
| NewWorker (q : job_queue) (w : nat)
| QueueFull
| NoFreeSlot.

Section JobQueue.

(** [MAX_WORKERS], the compile-time table size. *)
Variable MAX_WORKERS : nat.
(** [queue->conflict_test], called with two handles. *)
Variable conflict_test : Z → Z → bool.
(** [queue->job_cmp_order], called with the addresses of two [ctx] fields. *)
Variable job_cmp_order : ctx_ref → ctx_ref → Z.

(** ** The functions of the C file *)

(** Loop of [release_my_waiters]; [n] iterations are left, [i] is the loop
    index, [wid] is [worker->id].  [None] is a failed [assert]. *)
Fixpoint release_loop (q : job_queue) (wid : nat) (n i : nat)
  : option (list nat) :=
  match n with
  | O => Some []
  | S n' =>
      if waiter_flag q wid i then
        if decide (state (job q i) = JOB_WAIT_FOR_JOB) then
          (i ::.) <$> release_loop q wid n' (S i)
        else None
      else release_loop q wid n' (S i)
  end.

Definition release_my_waiters (q : job_queue) (w : nat) : option (list nat) :=
  release_loop q (id (job q w)) (Z.to_nat (registered_workers q)) 0.

(** [init_worker] does not write [type]; it reads as 0 until
    [job_queue_new_worker] sets it. *)
Definition init_worker (i workers : nat) : job_worker :=
  mk_job_worker JOB_VOID NULL i 0 (replicate workers false).

Definition job_queue_create (max_workers : Z) : job_queue :=
  mk_job_queue 0 0
    (if decide (max_workers < Z.of_nat MAX_WORKERS)
     then max_workers else Z.of_nat MAX_WORKERS)
    ((λ i, init_worker i MAX_WORKERS) <$> seq 0 MAX_WORKERS).

(** [while (i<MAX_WORKERS && !worker)]: [n] is [MAX_WORKERS - i]. *)
Fixpoint find_void (q : job_queue) (n i : nat) : option nat :=
  match n with
  | O => None
  | S n' =>
      if decide (state (job q i) = JOB_VOID) then Some i
      else find_void q n' (S i)
  end.

Definition job_queue_new_worker (q : job_queue) (t : Z) : new_worker_result :=
  if decide (registered_workers q = Z.of_nat MAX_WORKERS) then QueueFull
  else
    match find_void q MAX_WORKERS 0 with
    | None => NoFreeSlot
    | Some w =>
        NewWorker
          (upd_job w (set_type t)
             (upd_job w (set_state JOB_IDLE)
                (set_registered (registered_workers q + 1) q)))
          w
    end.

(** [None] is the failed [assert(JOB_IDLE == worker->state)] or a failed
    assertion inside [release_my_waiters]. *)
Definition job_queue_remove_worker (q : job_queue) (w : nat)
  : option (job_queue * list nat) :=
  '(q1, sigs) ←
    (if decide (state (job q w) = JOB_REGISTERED) then
       let q1 := upd_job w (set_ctx NULL) (upd_job w (set_state JOB_IDLE) q) in
       sigs ← release_my_waiters q1 w; Some (q1, sigs)
     else Some (q, []));
  if decide (state (job q1 w) = JOB_IDLE) then
    Some (set_registered (registered_workers q1 - 1)
            (upd_job w (set_state JOB_VOID) q1), sigs)
  else None.

(** The test of one scan iteration: slot [i] is in a scanned state, is not
    the starting worker, and [conflict_test(ctx, jobs[i].ctx)] holds. *)
Definition blocks (q : job_queue) (w : nat) (c : Z) (i : nat) : bool :=
  scanned_state (state (job q i))
  && negb (bool_decide (id (job q i) = id (job q w)))
  && conflict_test c (ctx (job q i)).

(** The conflict scan of [job_queue_start_job] from loop index [i], with
    [n] iterations left, up to the first [gu_cond_wait] or to the end. *)
Fixpoint conflict_scan (n : nat) (q : job_queue) (w : nat) (c : Z) (i : nat)
  : start_outcome :=
  match n with
  | O => Started (upd_job w (set_state JOB_RUNNING) q) WSDB_OK
  | S n' =>
      if blocks q w c i then
        Parked (upd_job w (set_state JOB_WAIT_FOR_JOB)
                  (upd_job i (set_waiter (id (job q w)) true) q))
               (InScan c i)
      else conflict_scan n' q w c (S i)
  end.

(** The loop test [i < queue->registered_workers] read at index [i]. *)
Definition scan_from (q : job_queue) (w : nat) (c : Z) (i : nat)
  : start_outcome :=
  conflict_scan (Z.to_nat (registered_workers q) - i)%nat q w c i.

(** From [queue->active_workers++] on: taken directly when a seat is free,
    or when the thread parked at the gate is woken. *)
Definition start_admit (q : job_queue) (w : nat) (c : Z) : start_outcome :=
  scan_from (upd_job w (set_ctx c) (set_active (active_workers q + 1) q)) w c 0.

(** After the [gu_cond_wait] inside the scan: clear the flag, [i++], go on. *)
Definition start_rescan (q : job_queue) (w : nat) (c : Z) (i : nat)
  : start_outcome :=
  scan_from (upd_job i (set_waiter (id (job q w)) false) q) w c (S i).

Definition job_queue_start_job (q : job_queue) (w : nat) (c : Z)
  : start_outcome :=
  if decide (state (job q w) = JOB_RUNNING) then Started q WSDB_OK
  else if decide (active_workers q = max_concurrent_workers q) then
    Parked (upd_job w (set_state JOB_WAIT_QUEUE_ENTER) q) (AtGate c)
  else start_admit q w c.

(** What a parked thread does when it is woken. *)
Definition start_resume (q : job_queue) (w : nat) (k : wait_point)
  : start_outcome :=
  match k with
  | AtGate c => start_admit q w c
  | InScan c i => start_rescan q w c i
  end.

Definition job_queue_register_job (q : job_queue) (w : nat) (c : Z)
  : job_queue * wsdb_status :=
  if decide (state (job q w) = JOB_RUNNING) then (q, WSDB_OK)
  else (upd_job w (set_state JOB_REGISTERED) (upd_job w (set_ctx c) q), WSDB_OK).

(** [&queue->jobs[i].ctx]. *)
Definition ctx_field (q : job_queue) (i : nat) : ctx_ref :=
  mk_ctx_ref i (ctx (job q i)).

(** The selection loop of [job_queue_end_job]; [min_job] is the C [int],
    [-1] while nothing is chosen. *)
Fixpoint requeue_loop (q : job_queue) (n i : nat) (min_job : Z) : Z :=
  match n with
  | O => min_job
  | S n' =>
      requeue_loop q n' (S i)
        (if decide (state (job q i) = JOB_WAIT_QUEUE_ENTER) then
           if decide (min_job > -1) then
             if decide (job_cmp_order (ctx_field q i)
                          (ctx_field q (Z.to_nat min_job)) = -1)
             then Z.of_nat i else min_job
           else Z.of_nat i
         else min_job)
  end.

Definition requeue_select (q : job_queue) : Z :=
  requeue_loop q (Z.to_nat (registered_workers q)) 0 (-1).

(** [if (min_job > -1) gu_cond_signal(&queue->jobs[min_job].cond)]. *)
Definition requeue_signal (q : job_queue) : list nat :=
  let min_job := requeue_select q in
  if decide (min_job > -1) then [Z.to_nat min_job] else [].

(** Result: the queue, the signals sent, the returned pointer.  [None] is a
    failed assertion inside [release_my_waiters]. *)
Definition job_queue_end_job (q : job_queue) (w : nat)
  : option (job_queue * list nat * Z) :=
  if bool_decide (state (job q w) ≠ JOB_RUNNING)
     && bool_decide (state (job q w) ≠ JOB_REGISTERED)
  then Some (q, [], NULL)
  else
    sigs ← release_my_waiters q w;
    let q1 := if decide (state (job q w) = JOB_RUNNING)
              then set_active (active_workers q - 1) q else q in
    let wid := id (job q1 w) in
    let c := ctx (job q1 wid) in
    let q2 := upd_job wid (set_ctx NULL) (upd_job wid (set_state JOB_IDLE) q1) in
    Some (q2, sigs ++ requeue_signal q2, c).

End JobQueue.

(** ** Threads: who is parked, who is signalled

    Each slot handle is held by one caller.  While that caller is parked
    inside [job_queue_start_job] it makes no other call; a slot whose state
    is [JOB_VOID] has no holder.  [gu_cond_signal] on the condition variable
    of a slot makes the thread parked there ready to continue (it continues
    when it next gets the mutex: the [AWake] action); with no thread parked
    there the signal is lost.  Both calls of [gu_cond_wait] stand under an
    [if], not in a loop that tests again, so a wait that returns without a
    signal (a spurious wake-up) makes the thread go on all the same: the
    [ASpurious] action.  [job_queue_register_job] and the state
    tests that open [job_queue_start_job] and [job_queue_end_job] run
    outside the mutex; they touch the caller's own slot only and are taken
    as atomic. *)

Inductive thread :=
| Free
| Blocked (k : wait_point) (signalled : bool).

#[global] Instance thread_eq_dec : EqDecision thread.
Proof. solve_decision. Defined.

Record system := mk_system {
  queue   : job_queue;
  threads : list thread
}.

Definition thread_of (s : system) (w : nat) : thread :=
  default Free (threads s !! w).

Definition signal (t : thread) : thread :=
  match t with
  | Free => Free
  | Blocked k _ => Blocked k true
  end.

(** Deliver the signals of one call, in order. *)
Definition deliver (sigs : list nat) (ts : list thread) : list thread :=
  foldl (λ ts j, alter signal j ts) ts sigs.

(** The calls a holder can make, the wake-up of a signalled thread, and the
    return of a wait that was not signalled. *)
Inductive action :=
| ANew (t : Z)
| ARemove (w : nat)
| ARegister (w : nat) (c : Z)
| AStart (w : nat) (c : Z)
| AEnd (w : nat)
| AWake (w : nat)
| ASpurious (w : nat).

Section System.

Variable MAX_WORKERS : nat.
Variable conflict_test : Z → Z → bool.
Variable job_cmp_order : ctx_ref → ctx_ref → Z.

Definition init_system (max_workers : Z) : system :=
  mk_system (job_queue_create MAX_WORKERS max_workers)
            (replicate MAX_WORKERS Free).

(** The holder of slot [w] can make a call now. *)
Definition callable (s : system) (w : nat) : bool :=
  bool_decide (thread_of s w = Free)
  && bool_decide (state (job (queue s) w) ≠ JOB_VOID).

Definition after_start (s : system) (w : nat) (o : start_outcome) : system :=
  match o with
  | Started q _ => mk_system q (<[w:=Free]> (threads s))
  | Parked q k => mk_system q (<[w:=Blocked k false]> (threads s))
  end.

(** One atomic step.  [None]: the action is not possible in [s] (the
    holder is parked, the slot is void, the thread is not parked, or not
    signalled for [AWake]), or an assertion fails and the process stops. *)
Definition exec (a : action) (s : system) : option system :=
  match a with
  | ANew t =>
      match job_queue_new_worker MAX_WORKERS (queue s) t with
      | NewWorker q _ => Some (mk_system q (threads s))
      | QueueFull | NoFreeSlot => Some s
      end
  | ARemove w =>
      if callable s w then
        '(q, sigs) ← job_queue_remove_worker (queue s) w;
        Some (mk_system q (deliver sigs (threads s)))
      else None
  | ARegister w c =>
      if callable s w then
        Some (mk_system (job_queue_register_job (queue s) w c).1 (threads s))
      else None
  | AStart w c =>
      if callable s w then
        Some (after_start s w (job_queue_start_job conflict_test (queue s) w c))
      else None
  | AEnd w =>
      if callable s w then
        '(q, sigs, _) ← job_queue_end_job job_cmp_order (queue s) w;
        Some (mk_system q (deliver sigs (threads s)))
      else None
  | AWake w =>
      match thread_of s w with
      | Blocked k true =>
          Some (after_start s w (start_resume conflict_test (queue s) w k))
      | _ => None
      end
  | ASpurious w =>
      match thread_of s w with
      | Blocked k false =>
          Some (after_start s w (start_resume conflict_test (queue s) w k))
      | _ => None
      end
  end.

Fixpoint run (l : list action) (s : system) : option system :=
  match l with
  | [] => Some s
  | a :: l' => s' ← exec a s; run l' s'
  end.

(** The states some schedule of calls leads to, from a fresh queue. *)
Definition reachable (max_workers : Z) (s : system) : Prop :=
  ∃ l, run l (init_system max_workers) = Some s.

End System.

(** ** Counting slots *)

Fixpoint count_where (P : job_worker → bool) (l : list job_worker) : Z :=
  match l with
  | [] => 0
  | w :: l' => (if P w then 1 else 0) + count_where P l'
  end.

Definition is_state (s : job_state) (w : job_worker) : bool :=
  bool_decide (state w = s).

(** Slots that are handed out. *)
Definition count_non_void (q : job_queue) : Z :=
  count_where (λ w, negb (is_state JOB_VOID w)) (jobs q).

Definition count_state (s : job_state) (q : job_queue) : Z :=
  count_where (is_state s) (jobs q).

(** The queue an outcome of [job_queue_start_job] leaves behind. *)
Definition outcome_queue (o : start_outcome) : job_queue :=
  match o with
  | Started q _ => q
  | Parked q _ => q
  end.

(** The queue after a successful [job_queue_end_job] on slot [w]. *)
Definition ended (q : job_queue) (w : nat) : job_queue :=
  upd_job w (set_ctx NULL)
    (upd_job w (set_state JOB_IDLE)
       (if decide (state (job q w) = JOB_RUNNING)
        then set_active (active_workers q - 1) q else q)).

(** The two counters agree with the slot states: the registered count is
    the number of non-void slots, the active count the number of slots that
    run or are parked in the conflict scan. *)
Definition counters_match (q : job_queue) : Prop :=
  registered_workers q = count_non_void q
  ∧ active_workers q
    = count_state JOB_RUNNING q + count_state JOB_WAIT_FOR_JOB q.

(** ** Invariants of the reachable states *)

(** How the place where the holder of a slot stands relates to the state
    written in the slot. *)
Definition pc_state (t : thread) (s : job_state) : Prop :=
  match t with
  | Free => s ≠ JOB_WAIT_QUEUE_ENTER ∧ s ≠ JOB_WAIT_FOR_JOB
  | Blocked (AtGate _) _ => s = JOB_WAIT_QUEUE_ENTER
  | Blocked (InScan _ _) _ => s = JOB_WAIT_FOR_JOB
  end.

Record table_ok (MAX : nat) (s : system) : Prop := mk_table_ok {
  ok_jobs : length (jobs (queue s)) = MAX;
  ok_threads : length (threads s) = MAX;
  ok_ids : ∀ i, (i < MAX)%nat → id (job (queue s) i) = i;
  ok_pc : ∀ i, pc_state (thread_of s i) (state (job (queue s) i));
  ok_registered : registered_workers (queue s) = count_non_void (queue s);
  ok_active :
    active_workers (queue s)
    = count_state JOB_RUNNING (queue s)
      + count_state JOB_WAIT_FOR_JOB (queue s)
}.

(** ** Mutual exclusion: what is tracked *)

(** Slot [a] is past slot [b]: it runs, or its scan has left index [b]
    behind, or it is parked at [b] and has been signalled (it will leave
    [b] behind when it wakes). *)
Definition passed (s : system) (a b : nat) : Prop :=
  match thread_of s a with
  | Free => state (job (queue s) a) = JOB_RUNNING
  | Blocked (AtGate _) _ => False
  | Blocked (InScan _ k) sg => (b < k)%nat ∨ (b = k ∧ sg = true)
  end.

(** Every handed-out slot lies below the registered count, the range the
    three loops of the C file cover. *)
Definition compact (q : job_queue) : Prop :=
  ∀ i, state (job q i) ≠ JOB_VOID → Z.of_nat i < registered_workers q.

Definition compactb (q : job_queue) : bool :=
  forallb (λ i, bool_decide (state (job q i) = JOB_VOID)
                || bool_decide (Z.of_nat i < registered_workers q))
          (seq 0 (length (jobs q))).

(** What is known of a thread parked in the scan: the context it started
    with is the one stored in its slot, and a waiter flag is set only for a
    thread parked at that very slot. *)
Record flags_ok (s : system) : Prop := mk_flags_ok {
  fl_ctx : ∀ a c k sg,
    thread_of s a = Blocked (InScan c k) sg → ctx (job (queue s) a) = c;
  fl_flag : ∀ j a,
    waiter_flag (queue s) j a = true →
    ∃ c sg, thread_of s a = Blocked (InScan c j) sg
}.

(** No two slots whose contexts conflict are past each other. *)
Definition mutex_ok (cf : Z → Z → bool) (s : system) : Prop :=
  ∀ a b,
    a ≠ b →
    cf (ctx (job (queue s) a)) (ctx (job (queue s) b)) = true →
    cf (ctx (job (queue s) b)) (ctx (job (queue s) a)) = true →
    passed s a b → passed s b a → False.

Section CompactRuns.

Variable MAX_WORKERS : nat.
Variable conflict_test : Z → Z → bool.
Variable job_cmp_order : ctx_ref → ctx_ref → Z.

(** A schedule that never leaves a handed-out slot at or above the
    registered count. *)
Fixpoint run_compact (l : list action) (s : system) : option system :=
  match l with
  | [] => Some s
  | a :: l' =>
      s' ← exec MAX_WORKERS conflict_test job_cmp_order a s;
      if compactb (queue s') then run_compact l' s' else None
  end.

Definition reachable_compact (max_workers : Z) (s : system) : Prop :=
  ∃ l, run_compact l (init_system MAX_WORKERS max_workers) = Some s.

End CompactRuns.

(** No wait of the schedule returns without a signal. *)
Definition wake_signalled (a : action) : bool :=
  match a with
  | ASpurious _ => false
  | _ => true
  end.

Definition signalled_wakes (l : list action) : bool :=
  forallb wake_signalled l.

(** ** Concrete callbacks and schedules used in the examples *)

(** Contexts 1 and 2 conflict with each other; nothing else conflicts. *)
Definition conflict_1_2 (a b : Z) : bool :=
  bool_decide ((a = 1 ∧ b = 2) ∨ (a = 2 ∧ b = 1)).

(** A predicate that is not symmetric: context 1 conflicts with context 2,
    context 2 does not conflict with context 1. *)
Definition conflict_one_way (a b : Z) : bool :=
  bool_decide (a = 1 ∧ b = 2).

(** An order on handles: the numeric order of the pointer values. *)
Definition handle_order (x y : Z) : Z :=
  match x ?= y with
  | Lt => -1
  | Eq => 0
  | Gt => 1
  end.

(** A comparator that reads the handles through the pointers it gets. *)
Definition cmp_pointee (a b : ctx_ref) : Z :=
  handle_order (ref_val a) (ref_val b).

(** The comparator [handle_order] given what the C file passes to it: the
    pointer values are the addresses of the [ctx] fields, which lie
    [stride] bytes apart from [base] on. *)
Definition cmp_address (base stride : Z) (a b : ctx_ref) : Z :=
  handle_order (base + Z.of_nat (ref_slot a) * stride)
               (base + Z.of_nat (ref_slot b) * stride).

(** One seat; slot 1 parks at the gate; slot 2 is registered and ended. *)
Definition schedule_end_registered : list action :=
  [ANew 0; ANew 0; ANew 0; AStart 0 5; AStart 1 6;
   ARegister 2 7; AEnd 2; AWake 1].

(** One seat; slot 1 parks at the gate; slot 0 ends and slot 2 takes the
    freed seat before slot 1 wakes. *)
Definition schedule_seat_race : list action :=
  [ANew 0; ANew 0; ANew 0; AStart 0 5; AStart 1 6;
   AEnd 0; AStart 2 7; AWake 1].

(** Slot 0 is released while slots 1 and 2 stay in use; slot 2 becomes a
    waiter of slot 1. *)
Definition schedule_waiter_above_count : list action :=
  [ANew 0; ANew 0; ANew 0; ARemove 0; ARegister 1 1; AStart 2 2].

(** One seat taken by slot 0; slots 1 and 2 wait at the gate holding the
    contexts 20 and 10. *)
Definition schedule_two_at_gate : list action :=
  [ANew 0; ANew 0; ANew 0; AStart 0 5; ARegister 1 20;
   ARegister 2 10; AStart 1 20; AStart 2 10].

(** Slot 0 is released; slot 1 runs on the one seat; slot 2 waits at the
    gate. *)
Definition schedule_gate_above_count : list action :=
  [ANew 0; ANew 0; ANew 0; ARemove 0; AStart 1 5; AStart 2 6].

(** Slot 0 runs context 1; slot 1 starts the conflicting context 2. *)
Definition schedule_conflict_wait : list action :=
  [ANew 0; ANew 0; AStart 0 1; AStart 1 2].

(** Slot 0 runs context 1; slot 1 registers the conflicting context 2. *)
Definition schedule_conflict_register : list action :=
  [ANew 0; ANew 0; AStart 0 1; ARegister 1 2].

(** Slot 0 is released; slot 2 runs context 1; slot 1 starts context 2. *)
Definition schedule_conflict_above_count : list action :=
  [ANew 0; ANew 0; ANew 0; ARemove 0; AStart 2 1; AStart 1 2].

(** One slot acquired and idle. *)
Definition schedule_one_idle : list action := [ANew 0].

(** One slot acquired and running context 1. *)
Definition schedule_one_running : list action := [ANew 0; AStart 0 1].

(** Two slots acquired, slot 0 running context 1, slot 1 idle. *)
Definition schedule_second_idle : list action :=
  [ANew 0; ANew 0; AStart 0 1].

(** The state a schedule leads to (the start state if it cannot run). *)
Definition state_after (MAX : nat) (cf : Z → Z → bool)
    (cmp : ctx_ref → ctx_ref → Z) (mw : Z) (l : list action) : system :=
  default (init_system MAX mw) (run MAX cf cmp l (init_system MAX mw)).

(** A slot that holds a context and is registered or parked on its way to
    running. *)
Definition pending (q : job_queue) (a : nat) : Prop :=
  (state (job q a) = JOB_REGISTERED
   ∨ state (job q a) = JOB_WAIT_QUEUE_ENTER
   ∨ state (job q a) = JOB_WAIT_FOR_JOB)
  ∧ ctx (job q a) ≠ NULL.

(** Two slots are live at once: both run, or one runs while the other is
    pending. *)
Definition live_together (q : job_queue) (a b : nat) : Prop :=
  (state (job q a) = JOB_RUNNING ∧ state (job q b) = JOB_RUNNING)
  ∨ (state (job q a) = JOB_RUNNING ∧ pending q b)
  ∨ (pending q a ∧ state (job q b) = JOB_RUNNING).

(** What the selection loop of [job_queue_end_job] has established when it
    is at index [i] with [min_job = m]: nothing chosen and no slot waiting
    at the gate below [i]; or [m] is such a slot, no waiting slot below [i]
    comes before it in the order, and it comes before every waiting slot of
    smaller index. *)
Definition requeue_inv (cmp : ctx_ref → ctx_ref → Z) (q : job_queue)
    (i : nat) (m : Z) : Prop :=
  (m = -1 ∧ ∀ j, (j < i)%nat → state (job q j) ≠ JOB_WAIT_QUEUE_ENTER)
  ∨ ∃ k, m = Z.of_nat k ∧ (k < i)%nat
      ∧ state (job q k) = JOB_WAIT_QUEUE_ENTER
      ∧ (∀ j, (j < i)%nat → state (job q j) = JOB_WAIT_QUEUE_ENTER →
              cmp (ctx_field q j) (ctx_field q k) ≠ -1)
      ∧ (∀ j, (j < k)%nat → state (job q j) = JOB_WAIT_QUEUE_ENTER →
              cmp (ctx_field q k) (ctx_field q j) = -1).

(** ** Compositions of calls used in the further properties *)

(** [n] calls of [job_queue_new_worker] in a row, with the handles they
    return; [None] as soon as one of them fails. *)
Fixpoint acquire_many (MAX n : nat) (q : job_queue) (t : Z)
  : option (list nat * job_queue) :=
  match n with
  | O => Some ([], q)
  | S n' =>
      match job_queue_new_worker MAX q t with
      | NewWorker q' w =>
          '(ws, q'') ← acquire_many MAX n' q' t; Some (w :: ws, q'')
      | QueueFull | NoFreeSlot => None
      end
  end.

(** The first [k] slots are handed out and idle, the others are void, and
    the registered count is [k]. *)
Definition filled (MAX k : nat) (q : job_queue) : Prop :=
  length (jobs q) = MAX
  ∧ registered_workers q = Z.of_nat k
  ∧ (∀ j, (j < k)%nat → state (job q j) = JOB_IDLE)
  ∧ (∀ j, (k ≤ j)%nat → state (job q j) = JOB_VOID).

(** A slot that is void or idle holds no context. *)
Definition idle_null (q : job_queue) : Prop :=
  ∀ j, state (job q j) = JOB_VOID ∨ state (job q j) = JOB_IDLE →
       ctx (job q j) = NULL.

(** Slot 0 runs context 1; slot 1 has parked on it and slot 0 has ended:
    slot 1 is signalled and not yet awake. *)
Definition schedule_waiter_signalled : list action :=
  [ANew 0; ANew 0; AStart 0 1; AStart 1 2; AEnd 0].

(** Two slots acquired, slot 1 registered with context 7. *)
Definition schedule_second_registered : list action :=
  [ANew 0; ANew 0; ARegister 1 7].

(** As [schedule_waiter_signalled], and slot 0 registers context 1 again
    before slot 1 wakes. *)
Definition schedule_waiter_then_register : list action :=
  [ANew 0; ANew 0; AStart 0 1; AStart 1 2; AEnd 0; ARegister 0 1].

(** Two slot records agree on everything but the waiter flags. *)
Definition same_but_waiters (x y : job_worker) : Prop :=
  state x = state y ∧ ctx x = ctx y ∧ id x = id y ∧ type x = type y.

(** Slot 0 runs context 1, slot 1 waits at the gate (one seat). *)
Definition schedule_one_at_gate : list action :=
  [ANew 0; ANew 0; AStart 0 1; AStart 1 3].

(** Three slots acquired; slot 0 runs context 5, slot 1 runs context 1. *)
Definition schedule_two_running : list action :=
  [ANew 0; ANew 0; ANew 0; AStart 0 5; AStart 1 1].

(** Slot 0 runs context 1, slot 1 has parked on it with context 2, and the
    wait of slot 1 returns without a signal. *)
Definition schedule_spurious_wake : list action :=
  [ANew 0; ANew 0; AStart 0 1; AStart 1 2; ASpurious 1].

(** * Properties *)

(** ** Reading and writing slots *)

Lemma job_lt_length q i :
  state (job q i) ≠ JOB_VOID → (i < length (jobs q))%nat.
Proof.
  unfold job. intros H. apply lookup_lt_is_Some.
  destruct (jobs q !! i); [eauto | done].
Qed.

Lemma job_upd_job q i f j :
  job (upd_job i f q) j =
  if decide (i = j ∧ (j < length (jobs q))%nat) then f (job q j) else job q j.
Proof.
  unfold job, upd_job; simpl.
  destruct (decide (i = j)) as [->|Hne].
  - rewrite list_lookup_alter_eq.
    destruct (jobs q !! j) as [x|] eqn:E; simpl.
    + rewrite decide_True; [done|]. split; [done|].
      apply lookup_lt_is_Some; eauto.
    + rewrite decide_False; [done|]. intros [_ Hlt].
      apply lookup_ge_None in E. lia.
  - rewrite list_lookup_alter_ne by done.
    rewrite decide_False; [done | tauto].
Qed.

Lemma job_upd_job_eq q i f :
  (i < length (jobs q))%nat → job (upd_job i f q) i = f (job q i).
Proof. intros. rewrite job_upd_job, decide_True; done. Qed.

Lemma job_upd_job_ne q i f j : i ≠ j → job (upd_job i f q) j = job q j.
Proof. intros. rewrite job_upd_job, decide_False; [done | tauto]. Qed.

Lemma length_upd_job q i f : length (jobs (upd_job i f q)) = length (jobs q).
Proof. apply length_alter. Qed.

(** ** Calls that change nothing *)

Lemma end_job_not_live cmp q w :
  state (job q w) ≠ JOB_RUNNING →
  state (job q w) ≠ JOB_REGISTERED →
  job_queue_end_job cmp q w = Some (q, [], NULL).
Proof.
  intros Hrun Hreg. unfold job_queue_end_job.
  rewrite !bool_decide_eq_true_2 by done. reflexivity.
Qed.

(** C6.  [job_queue_end_job] on a slot that is neither running nor
    registered returns [NULL], sends no signal and leaves the whole queue
    (counters and every slot, with state, context and waiter flags) as it
    was. *)
Theorem end_job_bad_state_unchanged
    (cmp : ctx_ref → ctx_ref → Z) (q : job_queue) (w : nat) :
  state (job q w) ≠ JOB_RUNNING →
  state (job q w) ≠ JOB_REGISTERED →
  job_queue_end_job cmp q w = Some (q, [], NULL).
Proof. apply end_job_not_live. Qed.

(** C9.  On a slot that is already running, [job_queue_start_job] and
    [job_queue_register_job] return [WSDB_OK] and leave the queue as it
    was, for any context argument; so does any sequence of such starts. *)
Theorem start_register_running_noop
    (cf : Z → Z → bool) (q : job_queue) (w : nat) (c : Z) (cs : list Z) :
  state (job q w) = JOB_RUNNING →
  job_queue_start_job cf q w c = Started q WSDB_OK
  ∧ job_queue_register_job q w c = (q, WSDB_OK)
  ∧ foldl (λ o c', job_queue_start_job cf (outcome_queue o) w c')
          (Started q WSDB_OK) cs = Started q WSDB_OK.
Proof.
  intros Hrun.
  assert (Hone : ∀ c', job_queue_start_job cf q w c' = Started q WSDB_OK).
  { intros c'. unfold job_queue_start_job. by rewrite decide_True. }
  split; [apply Hone|]. split.
  - unfold job_queue_register_job. by rewrite decide_True.
  - induction cs as [|c' cs IH]; simpl; [done|]. by rewrite Hone.
Qed.

(** C10.  On a slot in any state but running, [job_queue_register_job]
    returns [WSDB_OK], stores the context and sets the state to registered;
    the counters, the other fields of the slot and all other slots stay. *)
Theorem register_job_overwrites (q : job_queue) (w : nat) (c : Z) :
  (w < length (jobs q))%nat →
  state (job q w) ≠ JOB_RUNNING →
  ∃ q', job_queue_register_job q w c = (q', WSDB_OK)
    ∧ job q' w = mk_job_worker JOB_REGISTERED c (id (job q w))
                   (type (job q w)) (waiters (job q w))
    ∧ (∀ j, j ≠ w → job q' j = job q j)
    ∧ length (jobs q') = length (jobs q)
    ∧ registered_workers q' = registered_workers q
    ∧ active_workers q' = active_workers q
    ∧ max_concurrent_workers q' = max_concurrent_workers q.
Proof.
  intros Hlt Hrun. unfold job_queue_register_job.
  rewrite decide_False by done. eexists; split; [reflexivity|].
  split; [|split; [|split]].
  - rewrite job_upd_job_eq by (by rewrite length_upd_job).
    by rewrite job_upd_job_eq.
  - intros j Hj. by rewrite !job_upd_job_ne.
  - by rewrite !length_upd_job.
  - done.
Qed.

(** ** Acquiring a slot *)

Lemma find_void_Some q n i w :
  find_void q n i = Some w →
  (i ≤ w < i + n)%nat ∧ state (job q w) = JOB_VOID
  ∧ ∀ j, (i ≤ j < w)%nat → state (job q j) ≠ JOB_VOID.
Proof.
  revert i. induction n as [|n IH]; intros i; simpl; [done|].
  destruct (decide (state (job q i) = JOB_VOID)) as [Hv|Hv].
  - intros [= <-]. repeat split; [lia | lia | done | intros j ?; lia].
  - intros H. destruct (IH _ H) as (Hr & Hs & Hm).
    repeat split; [lia | lia | done |].
    intros j Hj. destruct (decide (j = i)) as [->|]; [done|].
    apply Hm. lia.
Qed.

Lemma find_void_None q n i :
  find_void q n i = None →
  ∀ j, (i ≤ j < i + n)%nat → state (job q j) ≠ JOB_VOID.
Proof.
  revert i. induction n as [|n IH]; intros i; simpl; [intros _ j ?; lia|].
  destruct (decide (state (job q i) = JOB_VOID)) as [Hv|Hv]; [done|].
  intros H j Hj. destruct (decide (j = i)) as [->|]; [done|].
  apply (IH _ H). lia.
Qed.

Lemma find_void_first q n i w :
  (i ≤ w < i + n)%nat → state (job q w) = JOB_VOID →
  (∀ j, (i ≤ j < w)%nat → state (job q j) ≠ JOB_VOID) →
  find_void q n i = Some w.
Proof.
  intros Hr Hv Hm. destruct (find_void q n i) as [w'|] eqn:E.
  - destruct (find_void_Some _ _ _ _ E) as (Hr' & Hv' & Hm').
    f_equal. destruct (lt_eq_lt_dec w w') as [[Hlt|Heq]|Hgt]; [|done|].
    + exfalso. apply (Hm' w); [lia | done].
    + exfalso. apply (Hm w'); [lia | done].
  - exfalso. by apply (find_void_None _ _ _ E w).
Qed.

Lemma count_where_bounds P l : 0 ≤ count_where P l ≤ Z.of_nat (length l).
Proof. induction l as [|w l IH]; simpl; [lia|]. destruct (P w); lia. Qed.

(** C8.  [job_queue_new_worker] takes the queue-full exit exactly when the
    registered count equals [MAX_WORKERS]; otherwise it takes the
    lowest-indexed void slot, makes it idle, records the type and adds one
    to the registered count, touching nothing else; and when the registered
    count is the number of non-void slots and is not [MAX_WORKERS], a void
    slot exists, so the no-free-slot exit is not taken. *)
Theorem new_worker_spec (MAX : nat) (q : job_queue) (t : Z) :
  length (jobs q) = MAX →
  (job_queue_new_worker MAX q t = QueueFull
     ↔ registered_workers q = Z.of_nat MAX)
  ∧ (registered_workers q ≠ Z.of_nat MAX →
     ∀ w, (w < MAX)%nat → state (job q w) = JOB_VOID →
          (∀ j, (j < w)%nat → state (job q j) ≠ JOB_VOID) →
     ∃ q', job_queue_new_worker MAX q t = NewWorker q' w
       ∧ job q' w = mk_job_worker JOB_IDLE (ctx (job q w)) (id (job q w)) t
                      (waiters (job q w))
       ∧ (∀ j, j ≠ w → job q' j = job q j)
       ∧ length (jobs q') = length (jobs q)
       ∧ registered_workers q' = registered_workers q + 1
       ∧ active_workers q' = active_workers q
       ∧ max_concurrent_workers q' = max_concurrent_workers q)
  ∧ (registered_workers q = count_non_void q →
     registered_workers q ≠ Z.of_nat MAX →
     (∃ w, (w < MAX)%nat ∧ state (job q w) = JOB_VOID)
     ∧ job_queue_new_worker MAX q t ≠ NoFreeSlot).
Proof.
  intros Hlen. split; [|split].
  - unfold job_queue_new_worker.
    destruct (decide (registered_workers q = Z.of_nat MAX)); [done|].
    destruct (find_void q MAX 0); split; done.
  - intros Hne w Hw Hv Hm. unfold job_queue_new_worker.
    rewrite decide_False by done.
    assert (Hf : find_void q MAX 0 = Some w).
    { apply find_void_first; [lia | done | intros; apply Hm; lia]. }
    rewrite Hf.
    eexists; split; [reflexivity|]. split; [|split; [|split]].
    + rewrite job_upd_job_eq by (rewrite length_upd_job; simpl; lia).
      rewrite job_upd_job_eq by (simpl; lia). done.
    + intros j Hj. by rewrite !job_upd_job_ne.
    + by rewrite !length_upd_job.
    + done.
  - intros Hcnt Hne.
    assert (Hex : ∃ w, (w < MAX)%nat ∧ state (job q w) = JOB_VOID).
    { destruct (find_void q MAX 0) as [w|] eqn:E.
      - destruct (find_void_Some _ _ _ _ E) as (? & ? & _).
        exists w. split; [lia | done].
      - exfalso. apply Hne. rewrite Hcnt. unfold count_non_void.
        pose proof (count_where_bounds
                      (λ w, negb (is_state JOB_VOID w)) (jobs q)) as Hb.
        pose proof (find_void_None _ _ _ E) as Hall.
        rewrite <- Hlen.
        assert (Hfull : ∀ l : list job_worker,
                   (∀ i x, l !! i = Some x → state x ≠ JOB_VOID) →
                   count_where (λ w, negb (is_state JOB_VOID w)) l
                   = Z.of_nat (length l)).
        { induction l as [|x l IH]; intros Hl; simpl; [done|].
          unfold is_state at 1.
          rewrite bool_decide_eq_false_2 by (apply (Hl O x); done). simpl.
          rewrite IH; [lia|]. intros i y Hy. apply (Hl (S i) y Hy). }
        apply Hfull. intros i x Hi.
        assert (Hlt : (i < MAX)%nat).
        { rewrite <- Hlen. apply lookup_lt_is_Some. eauto. }
        specialize (Hall i ltac:(lia)). unfold job in Hall.
        by rewrite Hi in Hall. }
    split; [done|]. destruct Hex as (w & Hw & Hv).
    unfold job_queue_new_worker. rewrite decide_False by done.
    destruct (find_void q MAX 0) eqn:E; [done|].
    exfalso. apply (find_void_None _ _ _ E w); [lia | done].
Qed.

(** ** The two loops over the registered range *)

Lemma conflict_scan_cases cf n q w c i :
  (conflict_scan cf n q w c i
     = Started (upd_job w (set_state JOB_RUNNING) q) WSDB_OK
   ∧ ∀ j, (i ≤ j < i + n)%nat → blocks cf q w c j = false)
  ∨ (∃ k, (i ≤ k < i + n)%nat ∧ blocks cf q w c k = true
      ∧ (∀ j, (i ≤ j < k)%nat → blocks cf q w c j = false)
      ∧ conflict_scan cf n q w c i
        = Parked (upd_job w (set_state JOB_WAIT_FOR_JOB)
                    (upd_job k (set_waiter (id (job q w)) true) q))
                 (InScan c k)).
Proof.
  revert i. induction n as [|n IH]; intros i; simpl.
  - left. split; [done | intros j ?; lia].
  - destruct (blocks cf q w c i) eqn:Hb.
    + right. exists i. split; [lia|]. split; [done|].
      split; [intros j ?; lia | done].
    + destruct (IH (S i)) as [[-> Hall] | (k & Hk & Hbk & Hall & ->)].
      * left. split; [done|]. intros j Hj.
        destruct (decide (j = i)) as [->|]; [done | apply Hall; lia].
      * right. exists k. split; [lia|]. split; [done|]. split; [|done].
        intros j Hj.
        destruct (decide (j = i)) as [->|]; [done | apply Hall; lia].
Qed.

Lemma release_loop_ok q wid n i :
  (∀ j, (i ≤ j < i + n)%nat → waiter_flag q wid j = true →
        state (job q j) = JOB_WAIT_FOR_JOB) →
  release_loop q wid n i
  = Some (filter (λ j, waiter_flag q wid j = true) (seq i n)).
Proof.
  revert i. induction n as [|n IH]; intros i Hok; simpl; [done|].
  rewrite IH by (intros j ? ?; apply Hok; [lia | done]).
  rewrite filter_cons.
  destruct (waiter_flag q wid i) eqn:Hf.
  - rewrite decide_True by (apply Hok; [lia | done]).
    rewrite decide_True by done. done.
  - rewrite decide_False by done. done.
Qed.

Lemma length_set_active q n : length (jobs (set_active n q)) = length (jobs q).
Proof. done. Qed.

Lemma length_set_registered q n :
  length (jobs (set_registered n q)) = length (jobs q).
Proof. done. Qed.

Lemma job_set_active q n i : job (set_active n q) i = job q i.
Proof. done. Qed.

Lemma job_set_registered q n i : job (set_registered n q) i = job q i.
Proof. done. Qed.

Ltac len_simpl :=
  repeat first
    [ rewrite length_upd_job
    | rewrite length_set_active
    | rewrite length_set_registered ].

Ltac job_simpl :=
  repeat first
    [ rewrite job_set_active
    | rewrite job_set_registered
    | rewrite job_upd_job_eq by (len_simpl; first [done | lia])
    | rewrite job_upd_job_ne by first [done | lia] ].

(** ** Start followed by end *)

Lemma end_job_live cmp q w :
  id (job q w) = w →
  state (job q w) = JOB_RUNNING ∨ state (job q w) = JOB_REGISTERED →
  job_queue_end_job cmp q w
  = (sigs ← release_my_waiters q w;
     Some (ended q w, sigs ++ requeue_signal cmp (ended q w), ctx (job q w))).
Proof.
  intros Hid Hst. unfold job_queue_end_job, ended.
  replace (bool_decide (state (job q w) ≠ JOB_RUNNING)
           && bool_decide (state (job q w) ≠ JOB_REGISTERED)) with false.
  2:{ symmetry. apply andb_false_iff.
      destruct Hst as [-> | ->]; [left | right];
        by apply bool_decide_eq_false_2; intros ?. }
  destruct (release_my_waiters q w) as [sigs|]; simpl; [|done].
  destruct (decide (state (job q w) = JOB_RUNNING));
    rewrite ?job_set_active, Hid; done.
Qed.

Lemma job_ended q w :
  (w < length (jobs q))%nat →
  job (ended q w) w
  = mk_job_worker JOB_IDLE NULL (id (job q w)) (type (job q w))
      (waiters (job q w)).
Proof.
  intros Hlt. unfold ended.
  destruct (decide (state (job q w) = JOB_RUNNING)); job_simpl; done.
Qed.

Lemma job_ended_ne q w j : j ≠ w → job (ended q w) j = job q j.
Proof.
  intros Hne. unfold ended.
  destruct (decide (state (job q w) = JOB_RUNNING)); job_simpl; done.
Qed.

(** The round trip on any table: the two hypotheses on the waiter flags of
    the slot say that the assertion of [release_my_waiters] holds. *)
Lemma start_end_round_trip_on_table
    (cf : Z → Z → bool) (cmp : ctx_ref → ctx_ref → Z)
    (q : job_queue) (w : nat) (c : Z) :
  (w < length (jobs q))%nat →
  id (job q w) = w →
  state (job q w) ≠ JOB_RUNNING →
  active_workers q ≠ max_concurrent_workers q →
  (∀ j, Z.of_nat j < registered_workers q → j ≠ w →
        scanned_state (state (job q j)) = true →
        cf c (ctx (job q j)) = false) →
  waiter_flag q w w = false →
  (∀ j, Z.of_nat j < registered_workers q → waiter_flag q w j = true →
        state (job q j) = JOB_WAIT_FOR_JOB) →
  ∃ q1 q2 sigs,
    job_queue_start_job cf q w c = Started q1 WSDB_OK
    ∧ state (job q1 w) = JOB_RUNNING
    ∧ ctx (job q1 w) = c
    ∧ active_workers q1 = active_workers q + 1
    ∧ job_queue_end_job cmp q1 w = Some (q2, sigs, c)
    ∧ active_workers q2 = active_workers q1 - 1
    ∧ state (job q2 w) = JOB_IDLE
    ∧ ctx (job q2 w) = NULL.
Proof.
  intros Hlt Hid Hrun Hseat Hfree Hself Hwait.
  unfold job_queue_start_job.
  rewrite decide_False by done. rewrite decide_False by done.
  unfold start_admit, scan_from.
  set (q0 := upd_job w (set_ctx c) (set_active (active_workers q + 1) q)).
  destruct (conflict_scan_cases cf
              (Z.to_nat (registered_workers q0) - 0) q0 w c 0)
    as [[-> _] | (k & Hk & Hb & _)].
  2:{ exfalso. unfold blocks in Hb.
      destruct (decide (k = w)) as [->|Hne].
      - rewrite bool_decide_eq_true_2 in Hb by done.
        by rewrite andb_false_r in Hb.
      - apply andb_true_iff in Hb as [Hb Hc].
        apply andb_true_iff in Hb as [Hs _].
        unfold q0 in Hs, Hc. revert Hs Hc. job_simpl. intros Hs Hc.
        rewrite Hfree in Hc; [done | | done | done].
        unfold q0 in Hk. simpl in Hk. lia. }
  set (q1 := upd_job w (set_state JOB_RUNNING) q0).
  assert (Hj1 : job q1 w = mk_job_worker JOB_RUNNING c (id (job q w))
                             (type (job q w)) (waiters (job q w))).
  { unfold q1, q0. job_simpl. done. }
  assert (Hrel : release_my_waiters q1 w
                 = Some (filter (λ j, waiter_flag q1 w j = true)
                           (seq 0 (Z.to_nat (registered_workers q1))))).
  { unfold release_my_waiters. rewrite Hj1. simpl. rewrite Hid.
    apply release_loop_ok. intros j Hj Hf.
    assert (Hf' : waiter_flag q w j = true).
    { revert Hf. unfold waiter_flag. by rewrite Hj1. }
    destruct (decide (j = w)) as [->|Hne]; [congruence|].
    unfold q1, q0. job_simpl. apply Hwait; [|done].
    unfold q1, q0 in Hj. simpl in Hj. lia. }
  assert (Hlt1 : (w < length (jobs q1))%nat).
  { unfold q1, q0. len_simpl. done. }
  eexists q1, (ended q1 w), _. split; [done|]. split; [by rewrite Hj1|].
  split; [by rewrite Hj1|]. split; [done|].
  split; [|split; [|split]].
  - rewrite end_job_live; [| by rewrite Hj1 | left; by rewrite Hj1].
    rewrite Hrel. simpl. by rewrite Hj1.
  - unfold ended. rewrite decide_True by (by rewrite Hj1). done.
  - by rewrite job_ended.
  - by rewrite job_ended.
Qed.

(** ** Counting under slot updates *)

Lemma count_where_alter P f i (l : list job_worker) x :
  l !! i = Some x →
  count_where P (alter f i l)
  = count_where P l - Z.b2z (P x) + Z.b2z (P (f x)).
Proof.
  revert i. induction l as [|y l IH]; intros i Hi; [done|].
  destruct i as [|i]; cbn in *.
  - injection Hi as ->. destruct (P x), (P (f x)); simpl; lia.
  - change (list_alter f i l) with (alter f i l).
    rewrite (IH _ Hi). lia.
Qed.

Lemma count_where_alter_same P f i (l : list job_worker) :
  (∀ x, P (f x) = P x) →
  count_where P (alter f i l) = count_where P l.
Proof.
  intros Hsame. revert i. induction l as [|y l IH]; intros i; [done|].
  destruct i as [|i]; cbn.
  - by rewrite Hsame.
  - change (list_alter f i l) with (alter f i l). by rewrite IH.
Qed.

Lemma count_upd_job P q i f :
  (i < length (jobs q))%nat →
  count_where P (jobs (upd_job i f q))
  = count_where P (jobs q) - Z.b2z (P (job q i)) + Z.b2z (P (f (job q i))).
Proof.
  intros Hlt. apply lookup_lt_is_Some in Hlt as [x Hx].
  unfold job. rewrite Hx. simpl. by apply count_where_alter.
Qed.

Lemma count_upd_job_same P q i f :
  (∀ x, P (f x) = P x) →
  count_where P (jobs (upd_job i f q)) = count_where P (jobs q).
Proof. intros. by apply count_where_alter_same. Qed.

Lemma count_state_set_state s X q w :
  (w < length (jobs q))%nat →
  count_state s (upd_job w (set_state X) q)
  = count_state s q - Z.b2z (bool_decide (state (job q w) = s))
    + Z.b2z (bool_decide (X = s)).
Proof. intros. unfold count_state. by rewrite count_upd_job. Qed.

Lemma count_non_void_set_state X q w :
  (w < length (jobs q))%nat →
  count_non_void (upd_job w (set_state X) q)
  = count_non_void q - Z.b2z (negb (bool_decide (state (job q w) = JOB_VOID)))
    + Z.b2z (negb (bool_decide (X = JOB_VOID))).
Proof. intros. unfold count_non_void. by rewrite count_upd_job. Qed.

Lemma count_state_keep s q i f :
  (∀ x, state (f x) = state x) →
  count_state s (upd_job i f q) = count_state s q.
Proof.
  intros Hf. apply count_upd_job_same. intros x. unfold is_state.
  by rewrite Hf.
Qed.

Lemma count_non_void_keep q i f :
  (∀ x, state (f x) = state x) →
  count_non_void (upd_job i f q) = count_non_void q.
Proof.
  intros Hf. apply count_upd_job_same. intros x. unfold is_state.
  by rewrite Hf.
Qed.

(** ** Threads under signals *)

Lemma thread_of_insert q ths w t i :
  thread_of (mk_system q (<[w:=t]> ths)) i
  = if decide (w = i ∧ (i < length ths)%nat) then t
    else default Free (ths !! i).
Proof.
  unfold thread_of; simpl. destruct (decide (w = i)) as [->|Hne].
  - destruct (decide (i < length ths)%nat) as [Hlt|Hge].
    + rewrite list_lookup_insert_eq by done. by rewrite decide_True.
    + rewrite list_insert_ge by lia. rewrite decide_False by tauto. done.
  - rewrite list_lookup_insert_ne by done. rewrite decide_False by tauto. done.
Qed.

Lemma deliver_cons j sigs ths :
  deliver (j :: sigs) ths = deliver sigs (alter signal j ths).
Proof. done. Qed.

Lemma length_deliver sigs ths : length (deliver sigs ths) = length ths.
Proof.
  revert ths. induction sigs as [|j sigs IH]; intros ths; [done|].
  rewrite deliver_cons, IH. apply length_alter.
Qed.

Lemma lookup_deliver sigs ths i :
  default Free (deliver sigs ths !! i)
  = if bool_decide (i ∈ sigs) then signal (default Free (ths !! i))
    else default Free (ths !! i).
Proof.
  revert ths. induction sigs as [|j sigs IH]; intros ths; [done|].
  rewrite deliver_cons, IH.
  destruct (decide (j = i)) as [->|Hne].
  - rewrite list_lookup_alter_eq.
    rewrite (bool_decide_eq_true_2 (i ∈ i :: sigs)) by left.
    destruct (ths !! i) as [t|]; simpl;
      destruct (bool_decide (i ∈ sigs)); try done; by destruct t.
  - rewrite list_lookup_alter_ne by done.
    destruct (decide (i ∈ sigs)) as [Hin|Hnin].
    + rewrite !bool_decide_eq_true_2; [done | by right | done].
    + rewrite !bool_decide_eq_false_2; [done | | done].
      intros Hin. apply elem_of_cons in Hin as [->|]; done.
Qed.

Lemma pc_state_signal t s : pc_state (signal t) s ↔ pc_state t s.
Proof. destruct t as [|[]]; done. Qed.

Lemma pc_state_deliver sigs ths i s :
  pc_state (default Free (deliver sigs ths !! i)) s
  ↔ pc_state (default Free (ths !! i)) s.
Proof.
  rewrite lookup_deliver. destruct (bool_decide (i ∈ sigs)); [|done].
  apply pc_state_signal.
Qed.

(** ** The structural invariant *)

Lemma job_create MAX mw i :
  job (job_queue_create MAX mw) i
  = if decide (i < MAX)%nat then init_worker i MAX else no_worker.
Proof.
  unfold job, job_queue_create; simpl. rewrite list_lookup_fmap.
  destruct (decide (i < MAX)%nat) as [Hlt|Hge].
  - rewrite lookup_seq_lt by done. done.
  - rewrite lookup_seq_ge by lia. done.
Qed.

Lemma count_where_none P (l : list job_worker) :
  (∀ x, x ∈ l → P x = false) → count_where P l = 0.
Proof.
  induction l as [|y l IH]; intros Hall; simpl; [done|].
  rewrite (Hall y) by left. rewrite IH; [done|].
  intros x Hx. apply Hall. by right.
Qed.

Lemma create_all_void MAX mw x :
  x ∈ jobs (job_queue_create MAX mw) → state x = JOB_VOID.
Proof.
  unfold job_queue_create; simpl. intros Hx.
  apply list_elem_of_fmap in Hx as (i & -> & _). done.
Qed.

Lemma table_ok_init MAX cmw : table_ok MAX (init_system MAX cmw).
Proof.
  split; simpl.
  - by rewrite length_fmap, length_seq.
  - by rewrite length_replicate.
  - intros i Hi. rewrite job_create, decide_True by done. done.
  - intros i. unfold thread_of; simpl.
    assert (Hf : default Free (replicate MAX Free !! i) = Free).
    { destruct (replicate MAX Free !! i) as [t|] eqn:E; [|done].
      apply lookup_replicate in E as [-> _]. done. }
    rewrite Hf. rewrite job_create. by destruct (decide (i < MAX)%nat).
  - unfold count_non_void. rewrite count_where_none; [done|].
    intros x Hx. unfold is_state.
    by rewrite (create_all_void _ _ _ Hx).
  - unfold count_state. rewrite !count_where_none; [done | |];
      intros x Hx; unfold is_state; by rewrite (create_all_void _ _ _ Hx).
Qed.

Lemma table_ok_scan MAX cf q0 ths w c i0 :
  length (jobs q0) = MAX →
  length ths = MAX →
  (∀ i, (i < MAX)%nat → id (job q0 i) = i) →
  (w < MAX)%nat →
  (∀ i, i ≠ w → pc_state (default Free (ths !! i)) (state (job q0 i))) →
  registered_workers q0 = count_non_void q0 →
  state (job q0 w) ≠ JOB_VOID →
  active_workers q0
  = count_state JOB_RUNNING q0 + count_state JOB_WAIT_FOR_JOB q0
    - Z.b2z (bool_decide (state (job q0 w) = JOB_RUNNING))
    - Z.b2z (bool_decide (state (job q0 w) = JOB_WAIT_FOR_JOB)) + 1 →
  table_ok MAX (after_start (mk_system q0 ths) w (scan_from cf q0 w c i0)).
Proof.
  intros Hlen Hths Hids Hw Hpc Hreg Hnv Hact. unfold scan_from.
  assert (Hnvb : bool_decide (state (job q0 w) = JOB_VOID) = false)
    by (by apply bool_decide_eq_false_2).
  destruct (conflict_scan_cases cf
              (Z.to_nat (registered_workers q0) - i0) q0 w c i0)
    as [[-> _] | (k & Hk & Hb & _ & ->)]; cbn [after_start].
  - split; cbn [queue threads].
    + by len_simpl.
    + by rewrite length_insert.
    + intros i Hi. rewrite job_upd_job.
      destruct (decide _); simpl; by apply Hids.
    + intros i. rewrite thread_of_insert, job_upd_job.
      destruct (decide (w = i)) as [<-|Hne].
      * rewrite !decide_True by (split; [done | lia]). done.
      * rewrite !decide_False by tauto. by apply Hpc.
    + rewrite count_non_void_set_state by lia. rewrite Hnvb. simpl. lia.
    + rewrite !count_state_set_state by lia. simpl. lia.
  - split; cbn [queue threads].
    + by len_simpl.
    + by rewrite length_insert.
    + intros i Hi. rewrite !job_upd_job.
      repeat (destruct (decide _); simpl); by apply Hids.
    + intros i. rewrite thread_of_insert, !job_upd_job.
      destruct (decide (w = i)) as [<-|Hne].
      * rewrite !decide_True by (split; [done | len_simpl; lia]). done.
      * rewrite decide_False by tauto. rewrite (decide_False (P:=w = i ∧ _)) by tauto.
        destruct (decide _); simpl; by apply Hpc.
    + rewrite count_non_void_set_state by (len_simpl; lia).
      rewrite job_upd_job. rewrite count_non_void_keep by done.
      destruct (decide _); simpl; rewrite Hnvb; simpl; lia.
    + rewrite !count_state_set_state by (len_simpl; lia).
      rewrite !job_upd_job. rewrite !count_state_keep by done.
      destruct (decide _); simpl; lia.
Qed.

Lemma count_where_same_states p (l l' : list job_worker) :
  length l' = length l →
  (∀ i x x', l !! i = Some x → l' !! i = Some x' → state x' = state x) →
  count_where (λ x, p (state x)) l' = count_where (λ x, p (state x)) l.
Proof.
  revert l'. induction l as [|y l IH]; intros [|y' l'] Hlen Hpt;
    simpl in *; try done.
  rewrite (Hpt O y y') by done. rewrite (IH l'); [done | lia |].
  intros i x x' Hx Hx'. apply (Hpt (S i) x x'); done.
Qed.

Lemma count_where_one_state p (l l' : list job_worker) w x x' :
  length l' = length l →
  (∀ i y y', i ≠ w → l !! i = Some y → l' !! i = Some y' →
             state y' = state y) →
  l !! w = Some x → l' !! w = Some x' →
  count_where (λ x, p (state x)) l'
  = count_where (λ x, p (state x)) l - Z.b2z (p (state x))
    + Z.b2z (p (state x')).
Proof.
  revert l' w. induction l as [|y l IH]; intros [|y' l'] w Hlen Hpt Hx Hx';
    simpl in *; try done.
  destruct w as [|w]; simpl in *.
  - injection Hx as ->. injection Hx' as ->.
    rewrite (count_where_same_states p l l'); [| lia |].
    + destruct (p (state x)), (p (state x')); simpl; lia.
    + intros i z z' Hz Hz'. apply (Hpt (S i) z z'); done.
  - rewrite (Hpt O y y') by done.
    rewrite (IH l' w); [lia | lia | | done | done].
    intros i z z' Hi Hz Hz'. apply (Hpt (S i) z z'); [lia | done | done].
Qed.

Lemma count_one_state p q q' w :
  length (jobs q') = length (jobs q) →
  (w < length (jobs q))%nat →
  (∀ i, i ≠ w → state (job q' i) = state (job q i)) →
  count_where (λ x, p (state x)) (jobs q')
  = count_where (λ x, p (state x)) (jobs q) - Z.b2z (p (state (job q w)))
    + Z.b2z (p (state (job q' w))).
Proof.
  intros Hlen Hw Hpt.
  destruct (lookup_lt_is_Some_2 (jobs q) w Hw) as [x Hx].
  destruct (lookup_lt_is_Some_2 (jobs q') w ltac:(lia)) as [x' Hx'].
  unfold job. rewrite Hx, Hx'. simpl.
  apply (count_where_one_state p _ _ w); try done.
  intros i y y' Hi Hy Hy'. specialize (Hpt i Hi). unfold job in Hpt.
  by rewrite Hy, Hy' in Hpt.
Qed.

(** One slot changes state; the counters follow. *)
Lemma table_ok_change MAX s q' ths' w :
  table_ok MAX s →
  length (jobs q') = MAX →
  length ths' = MAX →
  (w < MAX)%nat →
  (∀ i, id (job q' i) = id (job (queue s) i)) →
  (∀ i, i ≠ w → state (job q' i) = state (job (queue s) i)) →
  (∀ i, i ≠ w → pc_state (default Free (ths' !! i)) (state (job q' i))) →
  pc_state (default Free (ths' !! w)) (state (job q' w)) →
  registered_workers q'
  = registered_workers (queue s)
    - Z.b2z (negb (bool_decide (state (job (queue s) w) = JOB_VOID)))
    + Z.b2z (negb (bool_decide (state (job q' w) = JOB_VOID))) →
  active_workers q'
  = active_workers (queue s)
    - Z.b2z (bool_decide (state (job (queue s) w) = JOB_RUNNING))
    - Z.b2z (bool_decide (state (job (queue s) w) = JOB_WAIT_FOR_JOB))
    + Z.b2z (bool_decide (state (job q' w) = JOB_RUNNING))
    + Z.b2z (bool_decide (state (job q' w) = JOB_WAIT_FOR_JOB)) →
  table_ok MAX (mk_system q' ths').
Proof.
  intros [Hlen Hths Hids Hpc Hreg Hact] Hlen' Hths' Hw Hid' Hst Hpc' Hpcw
    Hreg' Hact'.
  split; cbn [queue threads]; try done.
  - intros i Hi. rewrite Hid'. by apply Hids.
  - intros i. unfold thread_of; cbn [threads].
    destruct (decide (i = w)) as [->|Hne]; [done | by apply Hpc'].
  - pose proof (count_one_state (λ s, negb (bool_decide (s = JOB_VOID)))
                  (queue s) q' w ltac:(lia) ltac:(lia) Hst) as Hc.
    unfold count_non_void, is_state in *. cbv beta in Hc. lia.
  - pose proof (count_one_state (λ s, bool_decide (s = JOB_RUNNING))
                  (queue s) q' w ltac:(lia) ltac:(lia) Hst) as Hc1.
    pose proof (count_one_state (λ s, bool_decide (s = JOB_WAIT_FOR_JOB))
                  (queue s) q' w ltac:(lia) ltac:(lia) Hst) as Hc2.
    unfold count_state, is_state in *. cbv beta in Hc1, Hc2. lia.
Qed.

Lemma callable_spec s w :
  callable s w = true →
  thread_of s w = Free ∧ state (job (queue s) w) ≠ JOB_VOID.
Proof.
  unfold callable. intros H. apply andb_true_iff in H as [H1 H2].
  apply bool_decide_eq_true in H1. apply bool_decide_eq_true in H2. done.
Qed.

Lemma job_in_table MAX s w :
  table_ok MAX s → state (job (queue s) w) ≠ JOB_VOID → (w < MAX)%nat.
Proof. intros [Hlen _ _ _ _ _] H. rewrite <- Hlen. by apply job_lt_length. Qed.

Lemma thread_in_table MAX s w :
  table_ok MAX s → thread_of s w ≠ Free → (w < MAX)%nat.
Proof.
  intros [_ Hths _ _ _ _] H. rewrite <- Hths. apply lookup_lt_is_Some.
  unfold thread_of in H. destruct (threads s !! w); [eauto | done].
Qed.

Lemma insert_thread_same s w :
  thread_of s w = Free → ∀ i,
  default Free (<[w:=Free]> (threads s) !! i) = thread_of s i.
Proof.
  intros Hf i. pose proof (thread_of_insert (queue s) (threads s) w Free i) as H.
  unfold thread_of in *; simpl in H. rewrite H.
  destruct (decide _) as [[-> _]|]; done.
Qed.

Lemma table_ok_admit MAX cf s w c :
  table_ok MAX s →
  (w < MAX)%nat →
  state (job (queue s) w) ≠ JOB_VOID →
  state (job (queue s) w) ≠ JOB_RUNNING →
  state (job (queue s) w) ≠ JOB_WAIT_FOR_JOB →
  table_ok MAX (after_start s w (start_admit cf (queue s) w c)).
Proof.
  intros [Hlen Hths Hids Hpc Hreg Hact] Hw Hnv Hnr Hnw.
  unfold start_admit.
  set (q0 := upd_job w (set_ctx c)
               (set_active (active_workers (queue s) + 1) (queue s))).
  assert (Hst : ∀ i, state (job q0 i) = state (job (queue s) i)).
  { intros i. unfold q0. rewrite job_upd_job.
    destruct (decide _); done. }
  change (after_start s w (scan_from cf q0 w c 0))
    with (after_start (mk_system q0 (threads s)) w (scan_from cf q0 w c 0)).
  apply table_ok_scan; try done.
  - unfold q0. by len_simpl.
  - intros i Hi. unfold q0. rewrite job_upd_job.
    destruct (decide _); simpl; by apply Hids.
  - intros i _. rewrite Hst. apply Hpc.
  - unfold q0. rewrite count_non_void_keep by done. done.
  - by rewrite Hst.
  - rewrite Hst. unfold q0. rewrite !count_state_keep by done.
    rewrite !bool_decide_eq_false_2 by done. simpl.
    unfold count_state in *. simpl. lia.
Qed.

Lemma pc_state_quiet t s :
  pc_state t s → s ≠ JOB_WAIT_QUEUE_ENTER → s ≠ JOB_WAIT_FOR_JOB → t = Free.
Proof. destruct t as [|[] ?]; simpl; [done | congruence | congruence]. Qed.

Lemma table_ok_new MAX s t q' w :
  table_ok MAX s →
  job_queue_new_worker MAX (queue s) t = NewWorker q' w →
  table_ok MAX (mk_system q' (threads s)).
Proof.
  intros Hok. pose proof Hok as [Hlen Hths Hids Hpc Hreg Hact].
  unfold job_queue_new_worker.
  destruct (decide _) as [|Hne]; [done|].
  destruct (find_void (queue s) MAX 0) as [w'|] eqn:E; [|done].
  intros [= <- ->]. destruct (find_void_Some _ _ _ _ E) as (Hw & Hv & _).
  assert (Hj : ∀ i, job (upd_job w (set_type t)
                      (upd_job w (set_state JOB_IDLE)
                         (set_registered (registered_workers (queue s) + 1)
                            (queue s)))) i
               = if decide (i = w) then set_type t (set_state JOB_IDLE (job (queue s) i))
                 else job (queue s) i).
  { intros i. destruct (decide (i = w)) as [->|]; job_simpl; done. }
  apply (table_ok_change MAX s _ _ w); try done.
  - by len_simpl.
  - lia.
  - intros i. rewrite Hj. by destruct (decide _).
  - intros i Hi. rewrite Hj. by rewrite decide_False.
  - intros i Hi. rewrite Hj, decide_False by done. apply Hpc.
  - rewrite Hj, decide_True by done. simpl.
    pose proof (pc_state_quiet _ _ (Hpc w)) as Hf. rewrite Hv in Hf.
    unfold thread_of in Hf. rewrite Hf by done. done.
  - rewrite Hj, decide_True by done. rewrite Hv. simpl. lia.
  - rewrite Hj, decide_True by done. rewrite Hv. simpl. lia.
Qed.

Lemma table_ok_register MAX s w c :
  table_ok MAX s → callable s w = true →
  table_ok MAX (mk_system (job_queue_register_job (queue s) w c).1 (threads s)).
Proof.
  intros Hok Hcall. pose proof Hok as [Hlen Hths Hids Hpc Hreg Hact].
  destruct (callable_spec _ _ Hcall) as [Hfree Hnv].
  pose proof (job_in_table _ _ _ Hok Hnv) as Hw.
  unfold job_queue_register_job.
  destruct (decide _) as [|Hnr]; simpl; [by destruct s|].
  assert (Hj : ∀ i, job (upd_job w (set_state JOB_REGISTERED)
                           (upd_job w (set_ctx c) (queue s))) i
               = if decide (i = w)
                 then set_state JOB_REGISTERED (set_ctx c (job (queue s) i))
                 else job (queue s) i).
  { intros i. destruct (decide (i = w)) as [->|]; job_simpl; done. }
  pose proof (Hpc w) as Hpcw. rewrite Hfree in Hpcw. destruct Hpcw as [Hq Hj'].
  apply (table_ok_change MAX s _ _ w); try done.
  - by len_simpl.
  - intros i. rewrite Hj. by destruct (decide _).
  - intros i Hi. rewrite Hj. by rewrite decide_False.
  - intros i Hi. rewrite Hj, decide_False by done. apply Hpc.
  - rewrite Hj, decide_True by done. simpl.
    fold (thread_of s w). by rewrite Hfree.
  - rewrite Hj, decide_True by done. simpl.
    rewrite bool_decide_eq_false_2 by done. simpl. lia.
  - rewrite Hj, decide_True by done. simpl.
    rewrite !bool_decide_eq_false_2 by done. simpl. lia.
Qed.

Lemma table_ok_start MAX cf s w c :
  table_ok MAX s → callable s w = true →
  table_ok MAX (after_start s w (job_queue_start_job cf (queue s) w c)).
Proof.
  intros Hok Hcall. pose proof Hok as [Hlen Hths Hids Hpc Hreg Hact].
  destruct (callable_spec _ _ Hcall) as [Hfree Hnv].
  pose proof (job_in_table _ _ _ Hok Hnv) as Hw.
  pose proof (Hpc w) as Hpcw. rewrite Hfree in Hpcw. destruct Hpcw as [Hq Hj'].
  unfold job_queue_start_job.
  destruct (decide (state (job (queue s) w) = JOB_RUNNING)) as [Hr|Hnr].
  - cbn [after_start].
    apply (table_ok_change MAX s _ _ w); try done.
    + by rewrite length_insert.
    + intros i _. rewrite insert_thread_same by done. apply Hpc.
    + rewrite insert_thread_same by done. apply Hpc.
    + lia.
    + lia.
  - destruct (decide _) as [Hfull|Hseat]; [|by apply table_ok_admit].
    cbn [after_start].
    apply (table_ok_change MAX s _ _ w); try done.
    + by len_simpl.
    + by rewrite length_insert.
    + intros i. rewrite job_upd_job. by destruct (decide _).
    + intros i Hi. by rewrite job_upd_job_ne.
    + intros i Hi. rewrite job_upd_job_ne by done.
      rewrite list_lookup_insert_ne by done. apply Hpc.
    + rewrite job_upd_job_eq by lia.
      rewrite list_lookup_insert_eq by lia. done.
    + rewrite job_upd_job_eq by lia. simpl.
      rewrite bool_decide_eq_false_2 by done. simpl. lia.
    + rewrite job_upd_job_eq by lia. simpl.
      rewrite !bool_decide_eq_false_2 by done. simpl. lia.
Qed.

Lemma table_ok_wake MAX cf s w k sg :
  table_ok MAX s → thread_of s w = Blocked k sg →
  table_ok MAX (after_start s w (start_resume cf (queue s) w k)).
Proof.
  intros Hok Hth. pose proof Hok as [Hlen Hths Hids Hpc Hreg Hact].
  assert (Hw : (w < MAX)%nat).
  { apply (thread_in_table _ _ _ Hok). by rewrite Hth. }
  pose proof (Hpc w) as Hpcw. rewrite Hth in Hpcw.
  destruct k as [c|c k]; simpl in Hpcw; cbn [start_resume].
  - apply table_ok_admit; try done; rewrite Hpcw; done.
  - unfold start_rescan.
    set (q0 := upd_job k (set_waiter (id (job (queue s) w)) false) (queue s)).
    assert (Hst : ∀ i, state (job q0 i) = state (job (queue s) i)).
    { intros i. unfold q0. rewrite job_upd_job. destruct (decide _); done. }
    change (after_start s w (scan_from cf q0 w c (S k)))
      with (after_start (mk_system q0 (threads s)) w
              (scan_from cf q0 w c (S k))).
    apply table_ok_scan; try done.
    + unfold q0. by len_simpl.
    + intros i Hi. unfold q0. rewrite job_upd_job.
      destruct (decide _); simpl; by apply Hids.
    + intros i _. rewrite Hst. apply Hpc.
    + unfold q0. rewrite count_non_void_keep by done. done.
    + rewrite Hst, Hpcw. done.
    + rewrite Hst, Hpcw. unfold q0. rewrite !count_state_keep by done.
      simpl. unfold count_state in *. simpl. lia.
Qed.

Lemma table_ok_end MAX cmp s w q' sigs r :
  table_ok MAX s → callable s w = true →
  job_queue_end_job cmp (queue s) w = Some (q', sigs, r) →
  table_ok MAX (mk_system q' (deliver sigs (threads s))).
Proof.
  intros Hok Hcall. pose proof Hok as [Hlen Hths Hids Hpc Hreg Hact].
  destruct (callable_spec _ _ Hcall) as [Hfree Hnv].
  pose proof (job_in_table _ _ _ Hok Hnv) as Hw.
  destruct (decide (state (job (queue s) w) = JOB_RUNNING
                    ∨ state (job (queue s) w) = JOB_REGISTERED)) as [Hlive|Hbad].
  - rewrite end_job_live by (try done; by apply Hids).
    destruct (release_my_waiters (queue s) w) as [sigs0|]; [|done].
    simpl. intros [= <- <- <-].
    assert (Hlen' : length (jobs (ended (queue s) w)) = MAX).
    { unfold ended. destruct (decide _); by len_simpl. }
    apply (table_ok_change MAX s _ _ w); try done.
    + by rewrite length_deliver.
    + intros i. destruct (decide (i = w)) as [->|Hne].
      * by rewrite job_ended by lia.
      * by rewrite job_ended_ne.
    + intros i Hi. by rewrite job_ended_ne.
    + intros i Hi. rewrite job_ended_ne by done.
      apply pc_state_deliver, Hpc.
    + rewrite job_ended by lia. simpl. apply pc_state_deliver.
      fold (thread_of s w). by rewrite Hfree.
    + rewrite job_ended by lia. simpl.
      rewrite bool_decide_eq_false_2 by done.
      unfold ended. destruct (decide _); simpl; lia.
    + rewrite job_ended by lia. simpl.
      unfold ended. destruct (decide _) as [Hr|Hr]; simpl.
      * rewrite Hr. simpl. lia.
      * destruct Hlive as [|Hreg']; [done|]. rewrite Hreg'. simpl. lia.
  - rewrite end_job_not_live by tauto.
    intros [= <- <- <-]. by destruct s.
Qed.

Lemma table_ok_remove MAX s w q' sigs :
  table_ok MAX s → callable s w = true →
  job_queue_remove_worker (queue s) w = Some (q', sigs) →
  table_ok MAX (mk_system q' (deliver sigs (threads s))).
Proof.
  intros Hok Hcall. pose proof Hok as [Hlen Hths Hids Hpc Hreg Hact].
  destruct (callable_spec _ _ Hcall) as [Hfree Hnv].
  pose proof (job_in_table _ _ _ Hok Hnv) as Hw.
  unfold job_queue_remove_worker.
  destruct (decide (state (job (queue s) w) = JOB_REGISTERED)) as [Hr|Hr].
  - destruct (release_my_waiters _ w) as [sigs0|]; simpl; [|done].
    rewrite decide_True by (job_simpl; done).
    intros [= <- <-].
    assert (Hj : ∀ i, state (job (set_registered
                   (registered_workers
                      (upd_job w (set_ctx NULL)
                         (upd_job w (set_state JOB_IDLE) (queue s))) - 1)
                   (upd_job w (set_state JOB_VOID)
                      (upd_job w (set_ctx NULL)
                         (upd_job w (set_state JOB_IDLE) (queue s))))) i)
                 = if decide (i = w) then JOB_VOID
                   else state (job (queue s) i)).
    { intros i. destruct (decide (i = w)) as [->|]; job_simpl; done. }
    apply (table_ok_change MAX s _ _ w); try done.
    + by len_simpl.
    + by rewrite length_deliver.
    + intros i. rewrite job_set_registered, !job_upd_job.
      repeat (destruct (decide _); simpl); done.
    + intros i Hi. rewrite Hj. by rewrite decide_False.
    + intros i Hi. rewrite Hj, decide_False by done.
      apply pc_state_deliver, Hpc.
    + rewrite Hj, decide_True by done. apply pc_state_deliver.
      fold (thread_of s w). by rewrite Hfree.
    + rewrite Hj, decide_True by done. rewrite Hr. simpl. lia.
    + rewrite Hj, decide_True by done. rewrite Hr. simpl. lia.
  - simpl. destruct (decide _) as [Hi|]; [|done].
    intros [= <- <-].
    assert (Hj : ∀ i, state (job (set_registered
                   (registered_workers (queue s) - 1)
                   (upd_job w (set_state JOB_VOID) (queue s))) i)
                 = if decide (i = w) then JOB_VOID
                   else state (job (queue s) i)).
    { intros i. destruct (decide (i = w)) as [->|]; job_simpl; done. }
    apply (table_ok_change MAX s _ _ w); try done.
    + by len_simpl.
    + intros i. rewrite job_set_registered, !job_upd_job.
      repeat (destruct (decide _); simpl); done.
    + intros i Hne. rewrite Hj. by rewrite decide_False.
    + intros i Hne. rewrite Hj, decide_False by done. apply Hpc.
    + rewrite Hj, decide_True by done. apply pc_state_deliver.
      fold (thread_of s w). by rewrite Hfree.
    + rewrite Hj, decide_True by done. rewrite Hi. simpl. lia.
    + rewrite Hj, decide_True by done. rewrite Hi. simpl. lia.
Qed.

Lemma table_ok_exec MAX cf cmp a s s' :
  table_ok MAX s → exec MAX cf cmp a s = Some s' → table_ok MAX s'.
Proof.
  intros Hok. destruct a as [t|w|w c|w c|w|w|w]; simpl.
  - destruct (job_queue_new_worker MAX (queue s) t) as [q' w| |] eqn:E;
      intros [= <-]; try done.
    by apply (table_ok_new MAX s t q' w).
  - destruct (callable s w) eqn:Hc; [|done].
    destruct (job_queue_remove_worker (queue s) w) as [[q' sigs]|] eqn:E;
      simpl; [|done].
    intros [= <-]. by apply (table_ok_remove MAX s w).
  - destruct (callable s w) eqn:Hc; [|done].
    intros [= <-]. by apply table_ok_register.
  - destruct (callable s w) eqn:Hc; [|done].
    intros [= <-]. by apply table_ok_start.
  - destruct (callable s w) eqn:Hc; [|done].
    destruct (job_queue_end_job cmp (queue s) w) as [[[q' sigs] r]|] eqn:E;
      simpl; [|done].
    intros [= <-]. by apply (table_ok_end MAX cmp s w q' sigs r).
  - destruct (thread_of s w) as [|k [|]] eqn:Hth; try done.
    intros [= <-]. by apply (table_ok_wake MAX cf s w k true).
  - destruct (thread_of s w) as [|k [|]] eqn:Hth; try done.
    intros [= <-]. by apply (table_ok_wake MAX cf s w k false).
Qed.

Lemma table_ok_run MAX cf cmp l s s' :
  table_ok MAX s → run MAX cf cmp l s = Some s' → table_ok MAX s'.
Proof.
  revert s. induction l as [|a l IH]; intros s Hok; simpl.
  - by intros [= <-].
  - destruct (exec MAX cf cmp a s) as [s1|] eqn:E; simpl; [|done].
    apply IH. by apply (table_ok_exec MAX cf cmp a s).
Qed.

Lemma table_ok_reachable MAX cf cmp mw s :
  reachable MAX cf cmp mw s → table_ok MAX s.
Proof.
  intros [l Hl]. apply (table_ok_run MAX cf cmp l _ _ (table_ok_init MAX mw) Hl).
Qed.

(** ** Counters and states *)

Lemma registered_le_capacity MAX cf cmp mw s :
  reachable MAX cf cmp mw s →
  0 ≤ registered_workers (queue s) ≤ Z.of_nat MAX.
Proof.
  intros Hr. destruct (table_ok_reachable _ _ _ _ _ Hr) as [Hlen _ _ _ Hreg _].
  rewrite Hreg, <- Hlen. apply count_where_bounds.
Qed.

(** C5 (as amended).  In every reachable state the registered count is the
    number of non-void slots, and the active count is the number of running
    slots plus the number of slots parked in the conflict scan
    ([JOB_WAIT_FOR_JOB]): a starter takes its seat before it scans.  Every
    step (acquire, release, register, start up to where it parks or
    returns, wake-up, end) keeps both equalities. *)
Theorem counters_match_states
    (MAX : nat) (cf : Z → Z → bool) (cmp : ctx_ref → ctx_ref → Z)
    (mw : Z) (s : system) :
  reachable MAX cf cmp mw s →
  counters_match (queue s)
  ∧ ∀ a s', exec MAX cf cmp a s = Some s' → counters_match (queue s').
Proof.
  intros Hr. pose proof (table_ok_reachable _ _ _ _ _ Hr) as Hok. split.
  - by destruct Hok.
  - intros a s' He. by destruct (table_ok_exec MAX cf cmp a s s' Hok He).
Qed.

(** C5 (as stated) fails: with two seats, slot 1 starts context 2 while
    slot 0 runs the conflicting context 1; slot 1 parks in the scan, the
    active count is 2 and one slot is running. *)
Lemma active_is_not_running_count :
  ¬ (∀ s, reachable 3 conflict_1_2 cmp_pointee 2 s →
          registered_workers (queue s) = count_non_void (queue s)
          ∧ active_workers (queue s) = count_state JOB_RUNNING (queue s)).
Proof.
  intros H.
  destruct (H (state_after 3 conflict_1_2 cmp_pointee 2
                 schedule_conflict_wait)) as [_ Hact].
  - exists schedule_conflict_wait. by vm_compute.
  - vm_compute in Hact. done.
Qed.

(** ** Where the code leaves its own contract *)

Ltac by_schedule l :=
  split; [exists l; vm_compute; reflexivity|];
  repeat split; try (vm_compute; reflexivity);
  try (eexists; repeat split; vm_compute; reflexivity).

(** What the gate does do: a start that finds every seat taken parks the
    slot in [JOB_WAIT_QUEUE_ENTER] and changes nothing else. *)
Lemma start_parks_when_full cf q w c :
  state (job q w) ≠ JOB_RUNNING →
  active_workers q = max_concurrent_workers q →
  job_queue_start_job cf q w c
  = Parked (upd_job w (set_state JOB_WAIT_QUEUE_ENTER) q) (AtGate c).
Proof.
  intros Hnr Hfull. unfold job_queue_start_job.
  rewrite decide_False by done. by rewrite decide_True.
Qed.

(** C2.  The admission gate tests the bound once, before parking; a woken
    starter adds itself without a second test.  With one seat: slot 0
    runs, slot 1 parks at the gate, slot 2 is registered and ended (no seat
    is freed, yet slot 1 is signalled), slot 1 wakes: two slots run and the
    active count is 2.  The same happens when slot 0 ends and slot 2 takes
    the freed seat before slot 1 wakes. *)
Theorem admission_bound_exceeded :
  (let s := state_after 3 conflict_1_2 cmp_pointee 1 schedule_end_registered in
   reachable 3 conflict_1_2 cmp_pointee 1 s
   ∧ max_concurrent_workers (queue s) = 1
   ∧ active_workers (queue s) = 2
   ∧ state (job (queue s) 0) = JOB_RUNNING
   ∧ state (job (queue s) 1) = JOB_RUNNING)
  ∧ (let s := state_after 3 conflict_1_2 cmp_pointee 1 schedule_seat_race in
     reachable 3 conflict_1_2 cmp_pointee 1 s
     ∧ max_concurrent_workers (queue s) = 1
     ∧ active_workers (queue s) = 2
     ∧ state (job (queue s) 1) = JOB_RUNNING
     ∧ state (job (queue s) 2) = JOB_RUNNING).
Proof.
  split.
  - by_schedule schedule_end_registered.
  - by_schedule schedule_seat_race.
Qed.

(** C3.  [release_my_waiters] stops at the registered count.  Three slots
    are acquired and slot 0 is released, so the count is 2 while slots 1 and
    2 are in use.  Slot 1 registers context 1, slot 2 starts the conflicting
    context 2 and parks as a waiter of slot 1.  Ending slot 1 (or removing
    it) sends no signal: slot 2, at index 2, stays parked with its flag set
    in the waiter set of slot 1. *)
Theorem waiter_above_count_not_released :
  let s := state_after 3 conflict_1_2 cmp_pointee 3
             schedule_waiter_above_count in
  reachable 3 conflict_1_2 cmp_pointee 3 s
  ∧ registered_workers (queue s) = 2
  ∧ state (job (queue s) 1) = JOB_REGISTERED
  ∧ state (job (queue s) 2) = JOB_WAIT_FOR_JOB
  ∧ waiter_flag (queue s) 1 2 = true
  ∧ thread_of s 2 = Blocked (InScan 2 1) false
  ∧ (∃ q', job_queue_end_job cmp_pointee (queue s) 1 = Some (q', [], 1)
           ∧ waiter_flag q' 1 2 = true)
  ∧ (∃ q', job_queue_remove_worker (queue s) 1 = Some (q', []))
  ∧ (∃ s', exec 3 conflict_1_2 cmp_pointee (AEnd 1) s = Some s'
           ∧ thread_of s' 2 = Blocked (InScan 2 1) false).
Proof. by_schedule schedule_waiter_above_count. Qed.

(** Whatever the base address and the size of a slot, the numeric order of
    the field addresses is the order of the slot indices: the stored
    contexts play no part in it. *)
Lemma cmp_address_is_index_order base stride a b :
  0 < stride →
  cmp_address base stride a b
  = handle_order (Z.of_nat (ref_slot a)) (Z.of_nat (ref_slot b)).
Proof.
  intros Hpos. unfold cmp_address, handle_order.
  destruct (Z.compare_spec (Z.of_nat (ref_slot a)) (Z.of_nat (ref_slot b)))
    as [Heq|Hlt|Hgt].
  - rewrite Heq. by rewrite Z.compare_refl.
  - assert (H : base + Z.of_nat (ref_slot a) * stride
                < base + Z.of_nat (ref_slot b) * stride) by nia.
    apply Z.compare_lt_iff in H. by rewrite H.
  - assert (H : base + Z.of_nat (ref_slot b) * stride
                < base + Z.of_nat (ref_slot a) * stride) by nia.
    apply Z.compare_gt_iff in H. by rewrite H.
Qed.

(** C4.  The order callback gets the addresses of the [ctx] fields.  With
    one seat taken by slot 0, slots 1 and 2 wait at the gate holding the
    contexts 20 and 10.  Under the numeric order of handles the stored
    context of slot 2 is the least, and a comparator that reads through
    the pointers has slot 2 signalled; the same order applied to what it is
    passed compares the two field addresses and has slot 1 signalled.
    Besides, the selection loop stops at the registered count: with slot 0
    released and slot 2 waiting at the gate, ending slot 1 signals no one. *)
Theorem requeue_compares_field_addresses :
  (let s := state_after 3 conflict_1_2 (cmp_address 4096 64) 1
              schedule_two_at_gate in
   reachable 3 conflict_1_2 (cmp_address 4096 64) 1 s
   ∧ state (job (queue s) 1) = JOB_WAIT_QUEUE_ENTER
   ∧ state (job (queue s) 2) = JOB_WAIT_QUEUE_ENTER
   ∧ ctx (job (queue s) 1) = 20
   ∧ ctx (job (queue s) 2) = 10
   ∧ handle_order (ctx (job (queue s) 2)) (ctx (job (queue s) 1)) = -1
   ∧ (∃ q', job_queue_end_job (cmp_address 4096 64) (queue s) 0
            = Some (q', [1%nat], 5))
   ∧ (∃ q', job_queue_end_job cmp_pointee (queue s) 0
            = Some (q', [2%nat], 5)))
  ∧ (let s := state_after 3 conflict_1_2 cmp_pointee 1
                schedule_gate_above_count in
     reachable 3 conflict_1_2 cmp_pointee 1 s
     ∧ registered_workers (queue s) = 2
     ∧ state (job (queue s) 2) = JOB_WAIT_QUEUE_ENTER
     ∧ (∃ q', job_queue_end_job cmp_pointee (queue s) 1
              = Some (q', [], 5))).
Proof.
  split.
  - by_schedule schedule_two_at_gate.
  - by_schedule schedule_gate_above_count.
Qed.

(** ** Signals of an end or a removal *)

Lemma release_loop_sound q wid n i sigs :
  release_loop q wid n i = Some sigs →
  ∀ a, a ∈ sigs → waiter_flag q wid a = true.
Proof.
  revert i sigs. induction n as [|n IH]; intros i sigs; simpl.
  - intros [= <-] a Ha. by apply elem_of_nil in Ha.
  - destruct (waiter_flag q wid i) eqn:Hf; [|by apply IH].
    destruct (decide _); [|done].
    destruct (release_loop q wid n (S i)) as [rest|] eqn:E; simpl; [|done].
    intros [= <-] a Ha. apply elem_of_cons in Ha as [->|Ha]; [done|].
    by apply (IH _ _ E).
Qed.

Lemma requeue_loop_sound cmp q n i m :
  requeue_loop cmp q n i m = m
  ∨ (0 ≤ requeue_loop cmp q n i m
     ∧ state (job q (Z.to_nat (requeue_loop cmp q n i m)))
       = JOB_WAIT_QUEUE_ENTER).
Proof.
  revert i m. induction n as [|n IH]; intros i m; simpl; [by left|].
  destruct (decide (state (job q i) = JOB_WAIT_QUEUE_ENTER)) as [Hw|]; [|apply IH].
  assert (Hnew : requeue_loop cmp q n (S i) (Z.of_nat i) = Z.of_nat i
                 ∨ (0 ≤ requeue_loop cmp q n (S i) (Z.of_nat i)
                    ∧ state (job q (Z.to_nat
                         (requeue_loop cmp q n (S i) (Z.of_nat i))))
                      = JOB_WAIT_QUEUE_ENTER)) by apply IH.
  assert (Hi : 0 ≤ requeue_loop cmp q n (S i) (Z.of_nat i)
               ∧ state (job q (Z.to_nat
                    (requeue_loop cmp q n (S i) (Z.of_nat i))))
                 = JOB_WAIT_QUEUE_ENTER).
  { destruct Hnew as [-> | H]; [|done]. split; [lia|].
    by rewrite Nat2Z.id. }
  destruct (decide (m > -1)); [|by right].
  destruct (decide _); [by right | apply IH].
Qed.

Lemma requeue_signal_sound cmp q m :
  m ∈ requeue_signal cmp q → state (job q m) = JOB_WAIT_QUEUE_ENTER.
Proof.
  unfold requeue_signal, requeue_select.
  destruct (decide _) as [Hgt|]; [|intros H; by apply elem_of_nil in H].
  intros H. apply list_elem_of_singleton in H as ->.
  destruct (requeue_loop_sound cmp q (Z.to_nat (registered_workers q)) 0 (-1))
    as [Heq | [_ Hst]]; [lia | done].
Qed.

(** ** Waiter flags under slot updates *)

Lemma waiter_flag_keep q i f j a :
  (∀ y, waiters (f y) = waiters y) →
  waiter_flag (upd_job i f q) j a = waiter_flag q j a.
Proof.
  intros Hf. unfold waiter_flag. rewrite job_upd_job.
  destruct (decide _); by rewrite ?Hf.
Qed.

Lemma waiter_flag_set_other q i x b j a :
  j ≠ i ∨ a ≠ x →
  waiter_flag (upd_job i (set_waiter x b) q) j a = waiter_flag q j a.
Proof.
  intros Hne. unfold waiter_flag. rewrite job_upd_job.
  destruct (decide _) as [[-> _]|]; [|done]. simpl.
  destruct Hne as [|Hne]; [done|]. by rewrite list_lookup_insert_ne.
Qed.

Lemma waiter_flag_clear q i x :
  waiter_flag (upd_job i (set_waiter x false) q) i x = false.
Proof.
  unfold waiter_flag. rewrite job_upd_job.
  destruct (decide _) as [_|Hn]; simpl.
  - destruct (decide (x < length (waiters (job q i)))%nat).
    + by rewrite list_lookup_insert_eq.
    + rewrite list_insert_ge by lia. rewrite lookup_ge_None_2 by lia. done.
  - assert (Hge : (length (jobs q) ≤ i)%nat).
    { destruct (decide (i < length (jobs q))%nat); [|lia].
      exfalso. by apply Hn. }
    unfold job. rewrite (lookup_ge_None_2 (jobs q) i) by done. done.
Qed.

Lemma waiter_flag_ended q w j a :
  waiter_flag (ended q w) j a = waiter_flag q j a.
Proof.
  unfold ended. rewrite !waiter_flag_keep by done.
  by destruct (decide _).
Qed.

Lemma signal_in_scan t c k sg :
  signal t = Blocked (InScan c k) sg → ∃ sg0, t = Blocked (InScan c k) sg0.
Proof. destruct t as [|k0 sg0]; simpl; [done|]. intros [= -> _]. eauto. Qed.

(** ** Waiter flags and parked threads *)

Lemma flags_ok_ext s s' :
  queue s' = queue s →
  (∀ a, thread_of s' a = thread_of s a) →
  flags_ok s → flags_ok s'.
Proof.
  intros Hq Hth [Hctx Hflag]. split.
  - intros a c k sg. rewrite Hth, Hq. apply Hctx.
  - intros j a. rewrite Hth, Hq. apply Hflag.
Qed.

Lemma flags_ok_scan MAX cf s q0 w c i0 :
  table_ok MAX s → flags_ok s →
  (w < MAX)%nat →
  (∀ a, id (job q0 a) = id (job (queue s) a)) →
  (∀ a, a ≠ w → ctx (job q0 a) = ctx (job (queue s) a)) →
  ctx (job q0 w) = c →
  (∀ j a, a ≠ w → waiter_flag q0 j a = waiter_flag (queue s) j a) →
  (∀ j, waiter_flag q0 j w = false) →
  flags_ok (after_start (mk_system q0 (threads s)) w (scan_from cf q0 w c i0)).
Proof.
  intros Hok [Hectx Heflag] Hw Hid0 Hctx0 Hcw Hfl0 Hflw.
  pose proof Hok as [Hlen Hths Hids Hpc _ _].
  unfold scan_from.
  destruct (conflict_scan_cases cf
              (Z.to_nat (registered_workers q0) - i0) q0 w c i0)
    as [[-> _] | (k & _ & _ & _ & ->)]; cbn [after_start].
  - assert (Hth : ∀ a, a ≠ w →
              thread_of (mk_system (upd_job w (set_state JOB_RUNNING) q0)
                           (<[w:=Free]> (threads s))) a = thread_of s a).
    { intros a Ha. rewrite thread_of_insert, decide_False by (intros [? _]; done).
      done. }
    assert (Hca : ∀ a, ctx (job (upd_job w (set_state JOB_RUNNING) q0) a)
                       = ctx (job q0 a)).
    { intros a. rewrite job_upd_job. by destruct (decide _). }
    split; cbn [queue threads].
    + intros a c' k sg Ha.
      destruct (decide (a = w)) as [->|Hne].
      * rewrite thread_of_insert, decide_True in Ha by (split; [done | lia]).
        done.
      * rewrite Hth in Ha by done. rewrite Hca, Hctx0 by done. eauto.
    + intros j a Hf. rewrite waiter_flag_keep in Hf by done.
      destruct (decide (a = w)) as [->|Hne]; [by rewrite Hflw in Hf|].
      rewrite Hfl0 in Hf by done. rewrite Hth by done. eauto.
  - set (q' := upd_job w (set_state JOB_WAIT_FOR_JOB)
                 (upd_job k (set_waiter (id (job q0 w)) true) q0)).
    set (ths' := <[w:=Blocked (InScan c k) false]> (threads s)).
    assert (Hidw : id (job q0 w) = w) by (rewrite Hid0; by apply Hids).
    assert (Hth : ∀ a, a ≠ w → thread_of (mk_system q' ths') a = thread_of s a).
    { intros a Ha. unfold ths'.
      rewrite thread_of_insert, decide_False by (intros [? _]; done). done. }
    assert (Hthw : thread_of (mk_system q' ths') w = Blocked (InScan c k) false).
    { unfold ths'. rewrite thread_of_insert, decide_True by (split; [done|lia]).
      done. }
    assert (Hca : ∀ a, ctx (job q' a) = ctx (job q0 a)).
    { intros a. unfold q'. rewrite !job_upd_job.
      repeat (destruct (decide _); simpl); done. }
    split; cbn [queue threads]; fold q' ths'.
    + intros a c' k' sg Ha.
      destruct (decide (a = w)) as [->|Hne].
      * rewrite Hthw in Ha. injection Ha as <- <- <-.
        by rewrite Hca.
      * rewrite Hth in Ha by done. rewrite Hca, Hctx0 by done. eauto.
    + intros j a Hf. unfold q' in Hf.
      rewrite waiter_flag_keep in Hf by done.
      destruct (decide (a = w)) as [->|Hne].
      * destruct (decide (j = k)) as [->|Hjk]; [rewrite Hthw; eauto|].
        rewrite waiter_flag_set_other in Hf by (by left).
        by rewrite Hflw in Hf.
      * rewrite waiter_flag_set_other in Hf by (right; by rewrite Hidw).
        rewrite Hfl0 in Hf by done. rewrite Hth by done. eauto.
Qed.

(** A step after which slot [w] is not in a scan; other holders keep their
    place, except that they may be signalled. *)
Lemma flags_ok_quiet s q' ths' w :
  flags_ok s →
  (∀ j a, waiter_flag q' j a = waiter_flag (queue s) j a) →
  (∀ a, a ≠ w → ctx (job q' a) = ctx (job (queue s) a)) →
  (∀ a, a ≠ w →
        default Free (ths' !! a) = thread_of s a
        ∨ default Free (ths' !! a) = signal (thread_of s a)) →
  (∀ c k sg, thread_of s w ≠ Blocked (InScan c k) sg) →
  (∀ c k sg, default Free (ths' !! w) ≠ Blocked (InScan c k) sg) →
  flags_ok (mk_system q' ths').
Proof.
  intros [Hectx Heflag] Hfl Hctx Hth Hwb Hwa. split; cbn [queue threads].
  - intros a c k sg Ha. unfold thread_of in Ha; cbn [threads] in Ha.
    assert (Hne : a ≠ w) by (intros ->; by apply Hwa in Ha).
    rewrite Hctx by done.
    destruct (Hth a Hne) as [Hsame | Hsig].
    + rewrite Hsame in Ha. eauto.
    + rewrite Hsig in Ha. apply signal_in_scan in Ha as [sg0 Ha]. eauto.
  - intros j a Hf. rewrite Hfl in Hf.
    destruct (Heflag j a Hf) as (c & sg & Hs).
    assert (Hne : a ≠ w) by (intros ->; by apply (Hwb c j sg)).
    unfold thread_of; cbn [threads].
    destruct (Hth a Hne) as [Hsame | Hsig].
    + rewrite Hsame, Hs. eauto.
    + rewrite Hsig, Hs. simpl. eauto.
Qed.

Lemma no_flag_outside_scan s w j :
  flags_ok s →
  (∀ c k sg, thread_of s w ≠ Blocked (InScan c k) sg) →
  waiter_flag (queue s) j w = false.
Proof.
  intros [_ Heflag] Hw.
  destruct (waiter_flag (queue s) j w) eqn:E; [|done].
  destruct (Heflag j w E) as (c & sg & Hs). by apply Hw in Hs.
Qed.

Lemma free_not_in_scan s w :
  thread_of s w = Free →
  ∀ c k sg, thread_of s w ≠ Blocked (InScan c k) sg.
Proof. intros ->. done. Qed.

(** The queue a start works on once it has its seat, and the one a woken
    waiter works on: what they share with the queue before. *)
Lemma admit_queue_facts s w c :
  flags_ok s →
  (w < length (jobs (queue s)))%nat →
  (∀ c k sg, thread_of s w ≠ Blocked (InScan c k) sg) →
  let q0 := upd_job w (set_ctx c)
              (set_active (active_workers (queue s) + 1) (queue s)) in
  length (jobs q0) = length (jobs (queue s))
  ∧ registered_workers q0 = registered_workers (queue s)
  ∧ (∀ a, state (job q0 a) = state (job (queue s) a))
  ∧ (∀ a, id (job q0 a) = id (job (queue s) a))
  ∧ (∀ a, a ≠ w → ctx (job q0 a) = ctx (job (queue s) a))
  ∧ ctx (job q0 w) = c
  ∧ (∀ j a, a ≠ w → waiter_flag q0 j a = waiter_flag (queue s) j a)
  ∧ (∀ j, waiter_flag q0 j w = false).
Proof.
  intros Hfl Hw Hnot q0. unfold q0. repeat split.
  - by len_simpl.
  - intros a. rewrite job_upd_job. by destruct (decide _).
  - intros a. rewrite job_upd_job. by destruct (decide _).
  - intros a Ha. by rewrite job_upd_job_ne.
  - rewrite job_upd_job_eq by (len_simpl; lia). done.
  - intros j a _. by rewrite waiter_flag_keep.
  - intros j. rewrite waiter_flag_keep by done.
    by apply no_flag_outside_scan.
Qed.

Lemma rescan_queue_facts s w c k sg :
  flags_ok s →
  thread_of s w = Blocked (InScan c k) sg →
  let q0 := upd_job k (set_waiter w false) (queue s) in
  length (jobs q0) = length (jobs (queue s))
  ∧ registered_workers q0 = registered_workers (queue s)
  ∧ (∀ a, state (job q0 a) = state (job (queue s) a))
  ∧ (∀ a, id (job q0 a) = id (job (queue s) a))
  ∧ (∀ a, a ≠ w → ctx (job q0 a) = ctx (job (queue s) a))
  ∧ ctx (job q0 w) = c
  ∧ (∀ j a, a ≠ w → waiter_flag q0 j a = waiter_flag (queue s) j a)
  ∧ (∀ j, waiter_flag q0 j w = false).
Proof.
  intros [Hectx Heflag] Hth q0. unfold q0. repeat split.
  - by len_simpl.
  - intros a. rewrite job_upd_job. by destruct (decide _).
  - intros a. rewrite job_upd_job. by destruct (decide _).
  - intros a _. rewrite job_upd_job. by destruct (decide _).
  - rewrite job_upd_job.
    destruct (decide _); simpl; by apply (Hectx w c k sg).
  - intros j a Ha. by rewrite waiter_flag_set_other by (by right).
  - intros j. destruct (decide (j = k)) as [->|Hjk].
    + apply waiter_flag_clear.
    + rewrite waiter_flag_set_other by (by left).
      destruct (waiter_flag (queue s) j w) eqn:E; [|done].
      destruct (Heflag j w E) as (c' & sg' & Hs). congruence.
Qed.

Lemma flags_ok_admit MAX cf s w c :
  table_ok MAX s → flags_ok s →
  (w < MAX)%nat →
  (∀ c k sg, thread_of s w ≠ Blocked (InScan c k) sg) →
  flags_ok (after_start s w (start_admit cf (queue s) w c)).
Proof.
  intros Hok Hfl Hw Hnot. pose proof Hok as [Hlen _ _ _ _ _].
  destruct (admit_queue_facts s w c Hfl ltac:(lia) Hnot)
    as (_ & _ & _ & Hid0 & Hctx0 & Hcw & Hfl0 & Hflw).
  unfold start_admit.
  set (q0 := upd_job w (set_ctx c)
               (set_active (active_workers (queue s) + 1) (queue s))) in *.
  change (after_start s w (scan_from cf q0 w c 0))
    with (after_start (mk_system q0 (threads s)) w (scan_from cf q0 w c 0)).
  by apply (flags_ok_scan MAX).
Qed.

Lemma flags_ok_rescan MAX cf s w c k sg :
  table_ok MAX s → flags_ok s →
  thread_of s w = Blocked (InScan c k) sg →
  flags_ok (after_start s w (start_rescan cf (queue s) w c k)).
Proof.
  intros Hok Hfl Hth. pose proof Hok as [Hlen _ Hids _ _ _].
  assert (Hw : (w < MAX)%nat).
  { apply (thread_in_table _ _ _ Hok). by rewrite Hth. }
  destruct (rescan_queue_facts s w c k _ Hfl Hth)
    as (_ & _ & _ & Hid0 & Hctx0 & Hcw & Hfl0 & Hflw).
  unfold start_rescan. rewrite (Hids w Hw).
  set (q0 := upd_job k (set_waiter w false) (queue s)) in *.
  change (after_start s w (scan_from cf q0 w c (S k)))
    with (after_start (mk_system q0 (threads s)) w
            (scan_from cf q0 w c (S k))).
  by apply (flags_ok_scan MAX).
Qed.

Lemma flags_ok_new MAX s t q' w :
  table_ok MAX s → flags_ok s →
  job_queue_new_worker MAX (queue s) t = NewWorker q' w →
  flags_ok (mk_system q' (threads s)).
Proof.
  intros Hok Hfl. pose proof Hok as [Hlen _ _ Hpc _ _].
  unfold job_queue_new_worker.
  destruct (decide _) as [|Hne]; [done|].
  destruct (find_void (queue s) MAX 0) as [w'|] eqn:E; [|done].
  intros [= <- ->]. destruct (find_void_Some _ _ _ _ E) as (Hw & Hv & _).
  assert (Hfree : thread_of s w = Free).
  { apply (pc_state_quiet _ _ (Hpc w)); by rewrite Hv. }
  apply (flags_ok_quiet s _ _ w); try done.
  - intros j a. by rewrite !waiter_flag_keep.
  - intros a Ha. by rewrite !job_upd_job_ne.
  - intros a Ha. by left.
  - by apply free_not_in_scan.
  - fold (thread_of s w). by apply free_not_in_scan.
Qed.

Lemma flags_ok_register s w c :
  flags_ok s → callable s w = true →
  flags_ok (mk_system (job_queue_register_job (queue s) w c).1 (threads s)).
Proof.
  intros Hfl Hcall. destruct (callable_spec _ _ Hcall) as [Hfree Hnv].
  unfold job_queue_register_job.
  destruct (decide _) as [|Hnr]; simpl; [by destruct s|].
  apply (flags_ok_quiet s _ _ w); try done.
  - intros j a. by rewrite !waiter_flag_keep.
  - intros a Ha. by rewrite !job_upd_job_ne.
  - intros a Ha. by left.
  - by apply free_not_in_scan.
  - fold (thread_of s w). by apply free_not_in_scan.
Qed.

Lemma flags_ok_start MAX cf s w c :
  table_ok MAX s → flags_ok s → callable s w = true →
  flags_ok (after_start s w (job_queue_start_job cf (queue s) w c)).
Proof.
  intros Hok Hfl Hcall. pose proof Hok as [Hlen Hths _ _ _ _].
  destruct (callable_spec _ _ Hcall) as [Hfree Hnv].
  pose proof (job_in_table _ _ _ Hok Hnv) as Hw.
  unfold job_queue_start_job.
  destruct (decide (state (job (queue s) w) = JOB_RUNNING)) as [Hr|Hnr].
  - cbn [after_start]. apply (flags_ok_ext s); [done | | done].
    intros a. unfold thread_of at 1; cbn [threads].
    by apply insert_thread_same.
  - destruct (decide _) as [Hfull|Hseat].
    + cbn [after_start]. apply (flags_ok_quiet s _ _ w); try done.
      * intros j a. by rewrite waiter_flag_keep.
      * intros a Ha. by rewrite job_upd_job_ne.
      * intros a Ha. left. by rewrite list_lookup_insert_ne.
      * by apply free_not_in_scan.
      * intros c' k sg. by rewrite list_lookup_insert_eq by lia.
    + apply (flags_ok_admit MAX); try done. by apply free_not_in_scan.
Qed.

Lemma flags_ok_wake MAX cf s w k sg :
  table_ok MAX s → flags_ok s →
  thread_of s w = Blocked k sg →
  flags_ok (after_start s w (start_resume cf (queue s) w k)).
Proof.
  intros Hok Hfl Hth. destruct k as [c|c k]; cbn [start_resume].
  - apply (flags_ok_admit MAX); try done.
    + apply (thread_in_table _ _ _ Hok). by rewrite Hth.
    + intros c' k' sg'. by rewrite Hth.
  - by apply (flags_ok_rescan MAX cf s w c k sg).
Qed.

Lemma deliver_same_or_signal sigs ths a :
  default Free (deliver sigs ths !! a) = default Free (ths !! a)
  ∨ default Free (deliver sigs ths !! a) = signal (default Free (ths !! a)).
Proof. rewrite lookup_deliver. destruct (bool_decide _); auto. Qed.

Lemma deliver_free sigs ths w :
  default Free (ths !! w) = Free → default Free (deliver sigs ths !! w) = Free.
Proof.
  intros Hf. rewrite lookup_deliver, Hf. by destruct (bool_decide _).
Qed.

Lemma flags_ok_end MAX cmp s w q' sigs r :
  table_ok MAX s → flags_ok s → callable s w = true →
  job_queue_end_job cmp (queue s) w = Some (q', sigs, r) →
  flags_ok (mk_system q' (deliver sigs (threads s))).
Proof.
  intros Hok Hfl Hcall. pose proof Hok as [Hlen Hths Hids Hpc _ _].
  destruct (callable_spec _ _ Hcall) as [Hfree Hnv].
  pose proof (job_in_table _ _ _ Hok Hnv) as Hw.
  destruct (decide (state (job (queue s) w) = JOB_RUNNING
                    ∨ state (job (queue s) w) = JOB_REGISTERED)) as [Hlive|Hbad].
  - rewrite end_job_live by (try done; by apply Hids).
    destruct (release_my_waiters (queue s) w) as [rel|] eqn:Erel; [|done].
    simpl. intros [= <- <- <-].
    apply (flags_ok_quiet s _ _ w); try done.
    + intros j a. apply waiter_flag_ended.
    + intros a Ha. by rewrite job_ended_ne.
    + intros a _. apply deliver_same_or_signal.
    + by apply free_not_in_scan.
    + intros c k sg. by rewrite deliver_free.
  - rewrite end_job_not_live by tauto.
    intros [= <- <- <-]. by destruct s.
Qed.

Lemma flags_ok_remove MAX s w q' sigs :
  table_ok MAX s → flags_ok s → callable s w = true →
  job_queue_remove_worker (queue s) w = Some (q', sigs) →
  flags_ok (mk_system q' (deliver sigs (threads s))).
Proof.
  intros Hok Hfl Hcall.
  destruct (callable_spec _ _ Hcall) as [Hfree Hnv].
  unfold job_queue_remove_worker.
  destruct (decide (state (job (queue s) w) = JOB_REGISTERED)) as [Hr|Hr].
  - destruct (release_my_waiters _ w) as [rel|] eqn:Erel; simpl; [|done].
    destruct (decide _); [|done]. intros [= <- <-].
    apply (flags_ok_quiet s _ _ w); try done.
    + intros j a.
      change (waiter_flag (set_registered ?n ?q) j a) with (waiter_flag q j a).
      by rewrite !waiter_flag_keep.
    + intros a Ha. rewrite job_set_registered. by rewrite !job_upd_job_ne.
    + intros a _. apply deliver_same_or_signal.
    + by apply free_not_in_scan.
    + intros c k sg. by rewrite deliver_free.
  - simpl. destruct (decide _) as [Hi|]; [|done].
    intros [= <- <-].
    apply (flags_ok_quiet s _ _ w); try done.
    + intros j a.
      change (waiter_flag (set_registered ?n ?q) j a) with (waiter_flag q j a).
      by rewrite !waiter_flag_keep.
    + intros a Ha. rewrite job_set_registered. by rewrite !job_upd_job_ne.
    + intros a Ha. by left.
    + by apply free_not_in_scan.
    + fold (thread_of s w). by apply free_not_in_scan.
Qed.

Lemma flags_ok_exec MAX cf cmp a s s' :
  table_ok MAX s → flags_ok s →
  exec MAX cf cmp a s = Some s' → flags_ok s'.
Proof.
  intros Hok Hfl. destruct a as [t|w|w c|w c|w|w|w]; simpl.
  - destruct (job_queue_new_worker MAX (queue s) t) as [q' w| |] eqn:E;
      intros [= <-]; try done.
    by apply (flags_ok_new MAX s t q' w).
  - destruct (callable s w) eqn:Hc; [|done].
    destruct (job_queue_remove_worker (queue s) w) as [[q' sigs]|] eqn:E;
      simpl; [|done].
    intros [= <-]. by apply (flags_ok_remove MAX s w).
  - destruct (callable s w) eqn:Hc; [|done].
    intros [= <-]. by apply flags_ok_register.
  - destruct (callable s w) eqn:Hc; [|done].
    intros [= <-]. by apply (flags_ok_start MAX).
  - destruct (callable s w) eqn:Hc; [|done].
    destruct (job_queue_end_job cmp (queue s) w) as [[[q' sigs] r]|] eqn:E;
      simpl; [|done].
    intros [= <-]. by apply (flags_ok_end MAX cmp s w q' sigs r).
  - destruct (thread_of s w) as [|k [|]] eqn:Hth; try done.
    intros [= <-]. by apply (flags_ok_wake MAX cf s w k true).
  - destruct (thread_of s w) as [|k [|]] eqn:Hth; try done.
    intros [= <-]. by apply (flags_ok_wake MAX cf s w k false).
Qed.

Lemma flags_ok_init MAX mw : flags_ok (init_system MAX mw).
Proof.
  assert (Hfree : ∀ a, thread_of (init_system MAX mw) a = Free).
  { intros a. unfold thread_of; simpl.
    destruct (replicate MAX Free !! a) as [t|] eqn:E; [|done].
    apply lookup_replicate in E as [-> _]. done. }
  split.
  - intros a c k sg. by rewrite Hfree.
  - intros j a. unfold waiter_flag; simpl. rewrite job_create.
    destruct (decide _); simpl; [|done].
    destruct (replicate MAX false !! a) as [b|] eqn:E; [|done].
    apply lookup_replicate in E as [-> _]. done.
Qed.

Lemma invariants_run MAX cf cmp l s s' :
  table_ok MAX s → flags_ok s →
  run MAX cf cmp l s = Some s' →
  table_ok MAX s' ∧ flags_ok s'.
Proof.
  revert s. induction l as [|a l IH]; intros s Hok Hfl; simpl.
  - by intros [= <-].
  - destruct (exec MAX cf cmp a s) as [s1|] eqn:E; simpl; [|done].
    apply IH.
    + by apply (table_ok_exec MAX cf cmp a s).
    + by apply (flags_ok_exec MAX cf cmp a s).
Qed.

Lemma flags_ok_reachable MAX cf cmp mw s :
  reachable MAX cf cmp mw s → flags_ok s.
Proof.
  intros [l Hl].
  apply (invariants_run MAX cf cmp l _ _
           (table_ok_init MAX mw) (flags_ok_init MAX mw) Hl).
Qed.

(** In a reachable state every slot recorded in a waiter set is parked in
    [JOB_WAIT_FOR_JOB], on another slot: the assertion of
    [release_my_waiters] holds. *)
Lemma recorded_waiter_is_parked MAX cf cmp mw s j a :
  reachable MAX cf cmp mw s →
  waiter_flag (queue s) j a = true →
  state (job (queue s) a) = JOB_WAIT_FOR_JOB
  ∧ ∃ c sg, thread_of s a = Blocked (InScan c j) sg.
Proof.
  intros Hr Hf.
  destruct (table_ok_reachable _ _ _ _ _ Hr) as [_ _ _ Hpc _ _].
  destruct (flags_ok_reachable _ _ _ _ _ Hr) as [_ Heflag].
  destruct (Heflag j a Hf) as (c & sg & Hs). split; [|eauto].
  specialize (Hpc a). by rewrite Hs in Hpc.
Qed.

Lemma release_my_waiters_total MAX cf cmp mw s w :
  reachable MAX cf cmp mw s →
  (w < MAX)%nat →
  release_my_waiters (queue s) w
  = Some (filter (λ j, waiter_flag (queue s) w j = true)
            (seq 0 (Z.to_nat (registered_workers (queue s))))).
Proof.
  intros Hr Hw.
  destruct (table_ok_reachable _ _ _ _ _ Hr) as [_ _ Hids _ _ _].
  unfold release_my_waiters. rewrite Hids by done.
  apply release_loop_ok. intros j _ Hf.
  by destruct (recorded_waiter_is_parked _ _ _ _ _ _ _ Hr Hf).
Qed.

(** C7 (as amended).  In a reachable state, a start on an acquired slot
    that is not yet running (its holder not parked), with a free seat and
    no conflicting scanned slot, returns at once with the slot running and
    the context stored; the end that follows returns that same context,
    takes one off the active count, and leaves the slot idle with a null
    context. *)
Theorem start_end_round_trip
    (MAX : nat) (cf : Z → Z → bool) (cmp : ctx_ref → ctx_ref → Z)
    (mw : Z) (s : system) (w : nat) (c : Z) :
  reachable MAX cf cmp mw s →
  callable s w = true →
  state (job (queue s) w) ≠ JOB_RUNNING →
  active_workers (queue s) ≠ max_concurrent_workers (queue s) →
  (∀ j, Z.of_nat j < registered_workers (queue s) → j ≠ w →
        scanned_state (state (job (queue s) j)) = true →
        cf c (ctx (job (queue s) j)) = false) →
  ∃ q1 q2 sigs,
    job_queue_start_job cf (queue s) w c = Started q1 WSDB_OK
    ∧ state (job q1 w) = JOB_RUNNING
    ∧ ctx (job q1 w) = c
    ∧ active_workers q1 = active_workers (queue s) + 1
    ∧ job_queue_end_job cmp q1 w = Some (q2, sigs, c)
    ∧ active_workers q2 = active_workers q1 - 1
    ∧ state (job q2 w) = JOB_IDLE
    ∧ ctx (job q2 w) = NULL.
Proof.
  intros Hr Hcall Hnr Hseat Hfree.
  pose proof (table_ok_reachable _ _ _ _ _ Hr) as Hok.
  pose proof Hok as [Hlen _ Hids _ _ _].
  destruct (callable_spec _ _ Hcall) as [Hth Hnv].
  pose proof (job_in_table _ _ _ Hok Hnv) as Hw.
  apply start_end_round_trip_on_table; try done.
  - lia.
  - by apply Hids.
  - apply no_flag_outside_scan.
    + by apply (flags_ok_reachable MAX cf cmp mw).
    + by apply free_not_in_scan.
  - intros j _ Hf.
    by destruct (recorded_waiter_is_parked _ _ _ _ _ _ _ Hr Hf).
Qed.

(** C7 (as stated) fails on an acquired slot that is already running: slot
    0 runs context 1, a seat is free and no other slot is handed out;
    [job_queue_start_job] on slot 0 with context 9 returns at its first
    test and does not store 9, and the end that follows returns 1. *)
Lemma start_on_running_slot_keeps_context :
  ¬ (∀ s w c, reachable 3 conflict_1_2 cmp_pointee 2 s →
       callable s w = true →
       active_workers (queue s) ≠ max_concurrent_workers (queue s) →
       (∀ j, Z.of_nat j < registered_workers (queue s) → j ≠ w →
             scanned_state (state (job (queue s) j)) = true →
             conflict_1_2 c (ctx (job (queue s) j)) = false) →
       ∃ q1 q2 sigs,
         job_queue_start_job conflict_1_2 (queue s) w c = Started q1 WSDB_OK
         ∧ job_queue_end_job cmp_pointee q1 w = Some (q2, sigs, c)).
Proof.
  intros H.
  destruct (H (state_after 3 conflict_1_2 cmp_pointee 2 schedule_one_running)
              0%nat 9) as (q1 & q2 & sigs & Hs & He).
  - exists schedule_one_running. by vm_compute.
  - by vm_compute.
  - by vm_compute.
  - intros j _ _ _. apply bool_decide_eq_false_2. lia.
  - vm_compute in Hs. injection Hs as <-.
    vm_compute in He. by injection He.
Qed.

(** ** Mutual exclusion on compact tables *)

Lemma passed_scanned MAX s b x :
  table_ok MAX s → passed s b x →
  scanned_state (state (job (queue s) b)) = true
  ∧ state (job (queue s) b) ≠ JOB_VOID.
Proof.
  intros [_ _ _ Hpc _ _]. specialize (Hpc b). unfold passed.
  destruct (thread_of s b) as [|[c|c k] sg]; simpl in Hpc.
  - intros ->. done.
  - done.
  - intros _. rewrite Hpc. done.
Qed.

Lemma passed_ext s s' a b :
  thread_of s' a = thread_of s a →
  state (job (queue s') a) = state (job (queue s) a) →
  passed s' a b → passed s a b.
Proof. unfold passed. intros -> ->. done. Qed.

Lemma mutex_ok_ext cf s s' :
  queue s' = queue s →
  (∀ a, thread_of s' a = thread_of s a) →
  mutex_ok cf s → mutex_ok cf s'.
Proof.
  intros Hq Hth Hm a b. unfold passed. rewrite !Hth, !Hq. apply Hm.
Qed.

Lemma mutex_ok_scan MAX cf s q0 w c i0 :
  table_ok MAX s → compact (queue s) → mutex_ok cf s →
  (w < MAX)%nat →
  registered_workers q0 = registered_workers (queue s) →
  (∀ a, state (job q0 a) = state (job (queue s) a)) →
  (∀ a, id (job q0 a) = id (job (queue s) a)) →
  (∀ a, a ≠ w → ctx (job q0 a) = ctx (job (queue s) a)) →
  ctx (job q0 w) = c →
  (∀ b, (b < i0)%nat → passed s w b ∧ ctx (job (queue s) w) = c) →
  mutex_ok cf (after_start (mk_system q0 (threads s)) w (scan_from cf q0 w c i0)).
Proof.
  intros Hok Hcomp Hemutex Hw Hreg0 Hst0 Hid0 Hctx0 Hcw Hbefore.
  pose proof Hok as [Hlen Hths Hids Hpc _ _].
  (* a slot that is past [w] blocks the scan of [w] when they conflict *)
  assert (Hblock : ∀ b, b ≠ w → passed s b w →
            cf c (ctx (job (queue s) b)) = true →
            blocks cf q0 w c b = true
            ∧ (b < Z.to_nat (registered_workers q0))%nat).
  { intros b Hne Hp Hc.
    destruct (passed_scanned _ _ _ _ Hok Hp) as [Hsc Hnv].
    pose proof (job_in_table _ _ _ Hok Hnv) as Hb.
    split.
    - unfold blocks. rewrite Hst0, Hsc, !Hid0, !Hids by done.
      rewrite bool_decide_eq_false_2 by done.
      rewrite Hctx0 by done. by rewrite Hc.
    - specialize (Hcomp b Hnv). lia. }
  (* the pairs with [w] on one side, for a scan that went up to [stop] *)
  assert (Hpair : ∀ stop b, b ≠ w →
            (∀ j, (i0 ≤ j < stop)%nat →
                  (j < Z.to_nat (registered_workers q0))%nat →
                  blocks cf q0 w c j = false) →
            (b < stop)%nat →
            cf c (ctx (job (queue s) b)) = true →
            cf (ctx (job (queue s) b)) c = true →
            passed s b w → False).
  { intros stop b Hne Hclear Hb Hc1 Hc2 Hp.
    destruct (Hblock b Hne Hp Hc1) as [Hbl Hbr].
    destruct (decide (b < i0)%nat) as [Hlt|Hge].
    - destruct (Hbefore b Hlt) as [Hpw Hcq].
      apply (Hemutex w b); [done | by rewrite Hcq | by rewrite Hcq | done | done].
    - rewrite Hclear in Hbl; [done | lia | done]. }
  unfold scan_from.
  destruct (conflict_scan_cases cf
              (Z.to_nat (registered_workers q0) - i0) q0 w c i0)
    as [[-> Hclear] | (k & Hk & Hbk & Hclear & ->)];
    cbn [after_start queue threads].
  - (* the scan ran to its end *)
    assert (Hth : ∀ a, a ≠ w →
              thread_of (mk_system (upd_job w (set_state JOB_RUNNING) q0)
                           (<[w:=Free]> (threads s))) a = thread_of s a).
    { intros a Ha. rewrite thread_of_insert, decide_False by (intros [? _]; done).
      done. }
    assert (Hsa : ∀ a, a ≠ w →
              state (job (upd_job w (set_state JOB_RUNNING) q0) a)
              = state (job (queue s) a)).
    { intros a Ha. by rewrite job_upd_job_ne, Hst0. }
    assert (Hca : ∀ a, ctx (job (upd_job w (set_state JOB_RUNNING) q0) a)
                       = ctx (job q0 a)).
    { intros a. rewrite job_upd_job. by destruct (decide _). }
    assert (Hside : ∀ b, b ≠ w →
              cf c (ctx (job (queue s) b)) = true →
              cf (ctx (job (queue s) b)) c = true →
              passed s b w → False).
    { intros b Hne Hc1 Hc2 Hp.
      destruct (Hblock b Hne Hp Hc1) as [_ Hbr].
      apply (Hpair (Z.to_nat (registered_workers q0)) b); try done.
      intros j Hj Hjr. apply Hclear. lia. }
    intros a b Hab Hc1 Hc2 Hpa Hpb. cbn [queue] in Hc1, Hc2.
    rewrite !Hca in Hc1, Hc2.
    destruct (decide (a = w)) as [->|Ha]; [|destruct (decide (b = w)) as [->|Hb]].
    + rewrite Hcw, Hctx0 in Hc1, Hc2 by done.
      apply (Hside b); try done.
      apply (passed_ext _ _ _ _ (Hth b ltac:(done)) (Hsa b ltac:(done)) Hpb).
    + rewrite Hcw, Hctx0 in Hc1, Hc2 by done.
      apply (Hside a); try done.
      apply (passed_ext _ _ _ _ (Hth a ltac:(done)) (Hsa a ltac:(done)) Hpa).
    + rewrite !Hctx0 in Hc1, Hc2 by done.
      apply (Hemutex a b); try done.
      * apply (passed_ext _ _ _ _ (Hth a Ha) (Hsa a Ha) Hpa).
      * apply (passed_ext _ _ _ _ (Hth b Hb) (Hsa b Hb) Hpb).
  - (* the scan parked at [k] *)
    set (q' := upd_job w (set_state JOB_WAIT_FOR_JOB)
                 (upd_job k (set_waiter (id (job q0 w)) true) q0)).
    set (ths' := <[w:=Blocked (InScan c k) false]> (threads s)).
    assert (Hth : ∀ a, a ≠ w → thread_of (mk_system q' ths') a = thread_of s a).
    { intros a Ha. unfold ths'.
      rewrite thread_of_insert, decide_False by (intros [? _]; done). done. }
    assert (Hthw : thread_of (mk_system q' ths') w = Blocked (InScan c k) false).
    { unfold ths'. rewrite thread_of_insert, decide_True by (split; [done|lia]).
      done. }
    assert (Hsa : ∀ a, a ≠ w → state (job q' a) = state (job (queue s) a)).
    { intros a Ha. unfold q'. rewrite job_upd_job_ne by done.
      rewrite job_upd_job. destruct (decide _); simpl; by rewrite Hst0. }
    assert (Hca : ∀ a, ctx (job q' a) = ctx (job q0 a)).
    { intros a. unfold q'. rewrite !job_upd_job.
      repeat (destruct (decide _); simpl); done. }
    assert (Hside : ∀ b, b ≠ w → (b < k)%nat →
              cf c (ctx (job (queue s) b)) = true →
              cf (ctx (job (queue s) b)) c = true →
              passed s b w → False).
    { intros b Hne Hb Hc1 Hc2 Hp.
      apply (Hpair k b); try done. intros j Hj _. apply Hclear. lia. }
    intros a b Hab Hc1 Hc2 Hpa Hpb. cbn [queue] in Hc1, Hc2.
    rewrite !Hca in Hc1, Hc2.
    destruct (decide (a = w)) as [->|Ha]; [|destruct (decide (b = w)) as [->|Hb]].
    + rewrite Hcw, Hctx0 in Hc1, Hc2 by done.
      unfold passed in Hpa. rewrite Hthw in Hpa.
      destruct Hpa as [Hlt | [_ ?]]; [|done].
      apply (Hside b); try done.
      apply (passed_ext _ _ _ _ (Hth b ltac:(done)) (Hsa b ltac:(done)) Hpb).
    + rewrite Hcw, Hctx0 in Hc1, Hc2 by done.
      unfold passed in Hpb. rewrite Hthw in Hpb.
      destruct Hpb as [Hlt | [_ ?]]; [|done].
      apply (Hside a); try done.
      apply (passed_ext _ _ _ _ (Hth a ltac:(done)) (Hsa a ltac:(done)) Hpa).
    + rewrite !Hctx0 in Hc1, Hc2 by done.
      apply (Hemutex a b); try done.
      * apply (passed_ext _ _ _ _ (Hth a Ha) (Hsa a Ha) Hpa).
      * apply (passed_ext _ _ _ _ (Hth b Hb) (Hsa b Hb) Hpb).
Qed.

(** A step after which slot [w] is not in a scan and does not run; other
    holders keep their place, except that waiters of [w] may be signalled. *)
Lemma mutex_ok_quiet cf s q' ths' w :
  mutex_ok cf s →
  (∀ a, a ≠ w → ctx (job q' a) = ctx (job (queue s) a)) →
  (∀ a, a ≠ w → state (job q' a) = state (job (queue s) a)) →
  (∀ a, a ≠ w →
        default Free (ths' !! a) = thread_of s a
        ∨ (default Free (ths' !! a) = signal (thread_of s a)
           ∧ ∀ c k sg, thread_of s a = Blocked (InScan c k) sg → k = w)) →
  ((default Free (ths' !! w) = Free ∧ state (job q' w) ≠ JOB_RUNNING)
   ∨ ∃ c sg, default Free (ths' !! w) = Blocked (AtGate c) sg) →
  mutex_ok cf (mk_system q' ths').
Proof.
  intros Hemutex Hctx Hst Hth Hwa.
  assert (Hpass : ∀ a b, b ≠ w →
            passed (mk_system q' ths') a b → a ≠ w ∧ passed s a b).
  { intros a b Hb Hp. unfold passed, thread_of in Hp; cbn [queue threads] in Hp.
    assert (Hne : a ≠ w).
    { intros ->. destruct Hwa as [[Hf Hnr] | (c0 & sg0 & Hg)].
      - by rewrite Hf in Hp.
      - by rewrite Hg in Hp. }
    split; [done|]. unfold passed.
    destruct (Hth a Hne) as [Hsame | [Hsig Hk]].
    - rewrite Hsame in Hp. rewrite Hst in Hp by done. done.
    - rewrite Hsig in Hp.
      destruct (thread_of s a) as [|[c0|c0 k] sg0] eqn:E; simpl in Hp.
      + by rewrite Hst in Hp.
      + done.
      + destruct Hp as [Hlt | [-> _]]; [by left|].
        exfalso. apply Hb. by apply (Hk c0 k sg0). }
  intros a b Hab Hc1 Hc2 Hpa Hpb. cbn [queue] in Hc1, Hc2.
  assert (Hbw : b ≠ w).
  { intros ->. unfold passed, thread_of in Hpb; cbn [queue threads] in Hpb.
    destruct Hwa as [[Hf Hnr] | (c0 & sg0 & Hg)].
    - by rewrite Hf in Hpb.
    - by rewrite Hg in Hpb. }
  destruct (Hpass a b Hbw Hpa) as [Haw Hpa'].
  destruct (Hpass b a Haw Hpb) as [_ Hpb'].
  rewrite !Hctx in Hc1, Hc2 by done.
  by apply (Hemutex a b).
Qed.

Lemma mutex_ok_admit MAX cf s w c :
  table_ok MAX s → flags_ok s → compact (queue s) → mutex_ok cf s →
  (w < MAX)%nat →
  (∀ c k sg, thread_of s w ≠ Blocked (InScan c k) sg) →
  mutex_ok cf (after_start s w (start_admit cf (queue s) w c)).
Proof.
  intros Hok Hfl Hcomp Hm Hw Hnot. pose proof Hok as [Hlen _ _ _ _ _].
  destruct (admit_queue_facts s w c Hfl ltac:(lia) Hnot)
    as (_ & Hreg0 & Hst0 & Hid0 & Hctx0 & Hcw & _ & _).
  unfold start_admit.
  set (q0 := upd_job w (set_ctx c)
               (set_active (active_workers (queue s) + 1) (queue s))) in *.
  change (after_start s w (scan_from cf q0 w c 0))
    with (after_start (mk_system q0 (threads s)) w (scan_from cf q0 w c 0)).
  apply (mutex_ok_scan MAX); try done. intros b Hb. lia.
Qed.

Lemma mutex_ok_rescan MAX cf s w c k :
  table_ok MAX s → flags_ok s → compact (queue s) → mutex_ok cf s →
  thread_of s w = Blocked (InScan c k) true →
  mutex_ok cf (after_start s w (start_rescan cf (queue s) w c k)).
Proof.
  intros Hok Hfl Hcomp Hm Hth. pose proof Hok as [Hlen _ Hids _ _ _].
  assert (Hw : (w < MAX)%nat).
  { apply (thread_in_table _ _ _ Hok). by rewrite Hth. }
  destruct (rescan_queue_facts s w c k _ Hfl Hth)
    as (_ & Hreg0 & Hst0 & Hid0 & Hctx0 & Hcw & _ & _).
  assert (Hcq : ctx (job (queue s) w) = c).
  { destruct Hfl as [Hectx _]. by apply (Hectx w c k true). }
  unfold start_rescan. rewrite (Hids w Hw).
  set (q0 := upd_job k (set_waiter w false) (queue s)) in *.
  change (after_start s w (scan_from cf q0 w c (S k)))
    with (after_start (mk_system q0 (threads s)) w
            (scan_from cf q0 w c (S k))).
  apply (mutex_ok_scan MAX); try done.
  intros b Hb. split; [|done]. unfold passed. rewrite Hth.
  destruct (decide (b = k)); [by right | left; lia].
Qed.

Lemma mutex_ok_new MAX cf s t q' w :
  table_ok MAX s → mutex_ok cf s →
  job_queue_new_worker MAX (queue s) t = NewWorker q' w →
  mutex_ok cf (mk_system q' (threads s)).
Proof.
  intros Hok Hm. pose proof Hok as [Hlen _ _ Hpc _ _].
  unfold job_queue_new_worker.
  destruct (decide _) as [|Hne]; [done|].
  destruct (find_void (queue s) MAX 0) as [w'|] eqn:E; [|done].
  intros [= <- ->]. destruct (find_void_Some _ _ _ _ E) as (Hw & Hv & _).
  assert (Hfree : thread_of s w = Free).
  { apply (pc_state_quiet _ _ (Hpc w)); by rewrite Hv. }
  apply (mutex_ok_quiet cf s _ _ w); try done.
  - intros a Ha. by rewrite !job_upd_job_ne.
  - intros a Ha. by rewrite !job_upd_job_ne.
  - intros a Ha. by left.
  - left. split; [done|]. job_simpl. done.
Qed.

Lemma mutex_ok_register cf s w c :
  mutex_ok cf s → callable s w = true →
  mutex_ok cf (mk_system (job_queue_register_job (queue s) w c).1 (threads s)).
Proof.
  intros Hm Hcall. destruct (callable_spec _ _ Hcall) as [Hfree Hnv].
  unfold job_queue_register_job.
  destruct (decide _) as [|Hnr]; simpl; [by destruct s|].
  apply (mutex_ok_quiet cf s _ _ w); try done.
  - intros a Ha. by rewrite !job_upd_job_ne.
  - intros a Ha. by rewrite !job_upd_job_ne.
  - intros a Ha. by left.
  - left. split; [done|]. rewrite job_upd_job.
    destruct (decide _); simpl; [done|].
    rewrite job_upd_job. destruct (decide _); simpl; done.
Qed.

Lemma mutex_ok_start MAX cf s w c :
  table_ok MAX s → flags_ok s → compact (queue s) → mutex_ok cf s →
  callable s w = true →
  mutex_ok cf (after_start s w (job_queue_start_job cf (queue s) w c)).
Proof.
  intros Hok Hfl Hcomp Hm Hcall. pose proof Hok as [Hlen Hths _ _ _ _].
  destruct (callable_spec _ _ Hcall) as [Hfree Hnv].
  pose proof (job_in_table _ _ _ Hok Hnv) as Hw.
  unfold job_queue_start_job.
  destruct (decide (state (job (queue s) w) = JOB_RUNNING)) as [Hr|Hnr].
  - cbn [after_start]. apply (mutex_ok_ext cf s); [done | | done].
    intros a. unfold thread_of at 1; cbn [threads].
    by apply insert_thread_same.
  - destruct (decide _) as [Hfull|Hseat].
    + cbn [after_start]. apply (mutex_ok_quiet cf s _ _ w); try done.
      * intros a Ha. by rewrite job_upd_job_ne.
      * intros a Ha. by rewrite job_upd_job_ne.
      * intros a Ha. left. by rewrite list_lookup_insert_ne.
      * right. exists c, false. by rewrite list_lookup_insert_eq by lia.
    + apply (mutex_ok_admit MAX); try done. by apply free_not_in_scan.
Qed.

Lemma mutex_ok_wake MAX cf s w k :
  table_ok MAX s → flags_ok s → compact (queue s) → mutex_ok cf s →
  thread_of s w = Blocked k true →
  mutex_ok cf (after_start s w (start_resume cf (queue s) w k)).
Proof.
  intros Hok Hfl Hcomp Hm Hth. destruct k as [c|c k]; cbn [start_resume].
  - apply (mutex_ok_admit MAX); try done.
    + apply (thread_in_table _ _ _ Hok). by rewrite Hth.
    + intros c' k' sg. by rewrite Hth.
  - by apply (mutex_ok_rescan MAX).
Qed.

Lemma deliver_to_waiters MAX s w sigs ths' :
  table_ok MAX s → flags_ok s →
  ths' = deliver sigs (threads s) →
  (∀ a, a ∈ sigs →
        waiter_flag (queue s) w a = true
        ∨ state (job (queue s) a) = JOB_WAIT_QUEUE_ENTER) →
  ∀ a, a ≠ w →
    default Free (ths' !! a) = thread_of s a
    ∨ (default Free (ths' !! a) = signal (thread_of s a)
       ∧ ∀ c k sg, thread_of s a = Blocked (InScan c k) sg → k = w).
Proof.
  intros [_ _ _ Hpc _ _] [_ Heflag] -> Hsigs a Ha.
  rewrite lookup_deliver. destruct (decide (a ∈ sigs)) as [Hin|Hnin].
  - rewrite bool_decide_eq_true_2 by done. right. split; [done|].
    intros c k sg Hth. destruct (Hsigs a Hin) as [Hf|Hq].
    + destruct (Heflag w a Hf) as (c' & sg' & Hs). congruence.
    + specialize (Hpc a). rewrite Hth, Hq in Hpc. done.
  - rewrite bool_decide_eq_false_2 by done. by left.
Qed.

Lemma mutex_ok_end MAX cf cmp s w q' sigs r :
  table_ok MAX s → flags_ok s → mutex_ok cf s → callable s w = true →
  job_queue_end_job cmp (queue s) w = Some (q', sigs, r) →
  mutex_ok cf (mk_system q' (deliver sigs (threads s))).
Proof.
  intros Hok Hfl Hm Hcall. pose proof Hok as [Hlen Hths Hids Hpc _ _].
  destruct (callable_spec _ _ Hcall) as [Hfree Hnv].
  pose proof (job_in_table _ _ _ Hok Hnv) as Hw.
  destruct (decide (state (job (queue s) w) = JOB_RUNNING
                    ∨ state (job (queue s) w) = JOB_REGISTERED)) as [Hlive|Hbad].
  - rewrite end_job_live by (try done; by apply Hids).
    destruct (release_my_waiters (queue s) w) as [rel|] eqn:Erel; [|done].
    simpl. intros [= <- <- <-].
    apply (mutex_ok_quiet cf s _ _ w); try done.
    + intros a Ha. by rewrite job_ended_ne.
    + intros a Ha. by rewrite job_ended_ne.
    + apply (deliver_to_waiters MAX s w
               (rel ++ requeue_signal cmp (ended (queue s) w))); try done.
      intros a Hin. apply elem_of_app in Hin as [Hin|Hin].
      * left. unfold release_my_waiters in Erel. rewrite Hids in Erel by done.
        by apply (release_loop_sound _ _ _ _ _ Erel).
      * right. apply requeue_signal_sound in Hin.
        destruct (decide (a = w)) as [->|Hne].
        -- rewrite job_ended in Hin by lia. done.
        -- by rewrite job_ended_ne in Hin.
    + left. split; [by apply deliver_free|].
      rewrite job_ended by lia. done.
  - rewrite end_job_not_live by tauto.
    intros [= <- <- <-]. by destruct s.
Qed.

Lemma mutex_ok_remove MAX cf s w q' sigs :
  table_ok MAX s → flags_ok s → mutex_ok cf s → callable s w = true →
  job_queue_remove_worker (queue s) w = Some (q', sigs) →
  mutex_ok cf (mk_system q' (deliver sigs (threads s))).
Proof.
  intros Hok Hfl Hm Hcall. pose proof Hok as [Hlen Hths Hids Hpc _ _].
  destruct (callable_spec _ _ Hcall) as [Hfree Hnv].
  pose proof (job_in_table _ _ _ Hok Hnv) as Hw.
  unfold job_queue_remove_worker.
  destruct (decide (state (job (queue s) w) = JOB_REGISTERED)) as [Hr|Hr].
  - destruct (release_my_waiters _ w) as [rel|] eqn:Erel; simpl; [|done].
    rewrite decide_True by (job_simpl; done).
    intros [= <- <-].
    apply (mutex_ok_quiet cf s _ _ w); try done.
    + intros a Ha. rewrite job_set_registered. by rewrite !job_upd_job_ne.
    + intros a Ha. rewrite job_set_registered. by rewrite !job_upd_job_ne.
    + apply (deliver_to_waiters MAX s w rel); try done.
      intros a Hin. left. unfold release_my_waiters in Erel.
      assert (Hidw : id (job (upd_job w (set_ctx NULL)
                           (upd_job w (set_state JOB_IDLE) (queue s))) w) = w).
      { job_simpl. simpl. by apply Hids. }
      rewrite Hidw in Erel.
      pose proof (release_loop_sound _ _ _ _ _ Erel a Hin) as Hf.
      by rewrite !waiter_flag_keep in Hf.
    + left. split; [by apply deliver_free|].
      rewrite job_set_registered. job_simpl. done.
  - simpl. destruct (decide _) as [Hi|]; [|done].
    intros [= <- <-].
    apply (mutex_ok_quiet cf s _ _ w); try done.
    + intros a Ha. rewrite job_set_registered. by rewrite !job_upd_job_ne.
    + intros a Ha. rewrite job_set_registered. by rewrite !job_upd_job_ne.
    + intros a Ha. by left.
    + left. fold (thread_of s w). split; [done|].
      rewrite job_set_registered. job_simpl. done.
Qed.

Lemma mutex_ok_exec MAX cf cmp a s s' :
  table_ok MAX s → flags_ok s → compact (queue s) → mutex_ok cf s →
  wake_signalled a = true →
  exec MAX cf cmp a s = Some s' → mutex_ok cf s'.
Proof.
  intros Hok Hfl Hcomp Hm Hsig.
  destruct a as [t|w|w c|w c|w|w|w]; simpl; [| | | | | |done].
  - destruct (job_queue_new_worker MAX (queue s) t) as [q' w| |] eqn:E;
      intros [= <-]; try done.
    by apply (mutex_ok_new MAX cf s t q' w).
  - destruct (callable s w) eqn:Hc; [|done].
    destruct (job_queue_remove_worker (queue s) w) as [[q' sigs]|] eqn:E;
      simpl; [|done].
    intros [= <-]. by apply (mutex_ok_remove MAX cf s w).
  - destruct (callable s w) eqn:Hc; [|done].
    intros [= <-]. by apply mutex_ok_register.
  - destruct (callable s w) eqn:Hc; [|done].
    intros [= <-]. by apply (mutex_ok_start MAX).
  - destruct (callable s w) eqn:Hc; [|done].
    destruct (job_queue_end_job cmp (queue s) w) as [[[q' sigs] r]|] eqn:E;
      simpl; [|done].
    intros [= <-]. by apply (mutex_ok_end MAX cf cmp s w q' sigs r).
  - destruct (thread_of s w) as [|k [|]] eqn:Hth; try done.
    intros [= <-]. by apply (mutex_ok_wake MAX).
Qed.

Lemma compactb_compact q : compactb q = true → compact q.
Proof.
  unfold compactb, compact. intros H i Hnv.
  pose proof (job_lt_length _ _ Hnv) as Hlt.
  rewrite forallb_forall in H. specialize (H i).
  rewrite in_seq in H. specialize (H ltac:(lia)).
  apply orb_true_iff in H as [H|H].
  - by apply bool_decide_eq_true in H.
  - by apply bool_decide_eq_true in H.
Qed.

Lemma compact_init MAX mw : compact (queue (init_system MAX mw)).
Proof.
  intros i Hnv. exfalso. apply Hnv. simpl. rewrite job_create.
  by destruct (decide _).
Qed.

Lemma mutex_ok_init MAX cf mw : mutex_ok cf (init_system MAX mw).
Proof.
  intros a b _ _ _. unfold passed, thread_of; simpl.
  assert (Hf : default Free (replicate MAX Free !! a) = Free).
  { destruct (replicate MAX Free !! a) as [t|] eqn:E; [|done].
    apply lookup_replicate in E as [-> _]. done. }
  rewrite Hf. rewrite job_create. by destruct (decide _).
Qed.

Lemma invariants_run_compact MAX cf cmp l s s' :
  table_ok MAX s → flags_ok s → compact (queue s) → mutex_ok cf s →
  signalled_wakes l = true →
  run_compact MAX cf cmp l s = Some s' →
  table_ok MAX s' ∧ mutex_ok cf s'.
Proof.
  revert s. induction l as [|a l IH]; intros s Hok Hfl Hcomp Hm Hsig; simpl.
  - by intros [= <-].
  - apply andb_true_iff in Hsig as [Ha Hl].
    destruct (exec MAX cf cmp a s) as [s1|] eqn:E; simpl; [|done].
    destruct (compactb (queue s1)) eqn:Hc; [|done].
    apply IH; [| | | |done].
    + by apply (table_ok_exec MAX cf cmp a s).
    + by apply (flags_ok_exec MAX cf cmp a s).
    + by apply compactb_compact.
    + by apply (mutex_ok_exec MAX cf cmp a s).
Qed.

(** A compact run is a run. *)
Lemma reachable_compact_reachable MAX cf cmp mw s :
  reachable_compact MAX cf cmp mw s → reachable MAX cf cmp mw s.
Proof.
  intros [l Hl]. exists l. revert Hl. generalize (init_system MAX mw).
  induction l as [|a l IH]; intros s0; simpl; [done|].
  destruct (exec MAX cf cmp a s0) as [s1|]; simpl; [|done].
  destruct (compactb (queue s1)); [apply IH | done].
Qed.

(** C1 (as amended).  Along every schedule that keeps the handed-out slots
    below the registered count and in which no wait returns without a
    signal, two distinct slots whose contexts conflict (in both argument
    orders of [conflict_test]) are never both running. *)
Theorem conflicting_slots_never_both_running
    (MAX : nat) (cf : Z → Z → bool) (cmp : ctx_ref → ctx_ref → Z)
    (mw : Z) (l : list action) (s : system) (a b : nat) :
  signalled_wakes l = true →
  run_compact MAX cf cmp l (init_system MAX mw) = Some s →
  a ≠ b →
  cf (ctx (job (queue s) a)) (ctx (job (queue s) b)) = true →
  cf (ctx (job (queue s) b)) (ctx (job (queue s) a)) = true →
  ¬ (state (job (queue s) a) = JOB_RUNNING
     ∧ state (job (queue s) b) = JOB_RUNNING).
Proof.
  intros Hsig Hl Hab Hc1 Hc2 [Ha Hb].
  destruct (invariants_run_compact MAX cf cmp l _ _
              (table_ok_init MAX mw) (flags_ok_init MAX mw)
              (compact_init MAX mw) (mutex_ok_init MAX cf mw) Hsig Hl)
    as (Hok & Hemutex).
  destruct Hok as [_ _ _ Hpc _ _].
  assert (Hrun : ∀ x, state (job (queue s) x) = JOB_RUNNING →
                      ∀ y, passed s x y).
  { intros x Hx y. unfold passed.
    rewrite (pc_state_quiet _ _ (Hpc x)) by (by rewrite Hx). done. }
  apply (Hemutex a b); auto.
Qed.

(** C1 (as stated) fails: slot 0 runs context 1 while slot 1 is registered
    with the conflicting context 2 ([job_queue_register_job] tests no
    conflict). *)
Lemma conflicting_slots_live_together :
  ¬ (∀ s, reachable 3 conflict_1_2 cmp_pointee 2 s →
     ∀ a b, a ≠ b →
       conflict_1_2 (ctx (job (queue s) a)) (ctx (job (queue s) b)) = true →
       ¬ live_together (queue s) a b).
Proof.
  intros H.
  apply (H (state_after 3 conflict_1_2 cmp_pointee 2
              schedule_conflict_register)
           ltac:(exists schedule_conflict_register; by vm_compute)
           0%nat 1%nat); [done | by vm_compute |].
  right; left. split; [by vm_compute|].
  split; [left; by vm_compute | by vm_compute].
Qed.

(** With a predicate that holds in one argument order only, a starter is
    tested against the running slot in the order that does not hold, and
    both run. *)
Lemma one_way_conflict_both_running :
  let s := state_after 3 conflict_one_way cmp_pointee 2
             schedule_conflict_wait in
  reachable_compact 3 conflict_one_way cmp_pointee 2 s
  ∧ conflict_one_way (ctx (job (queue s) 0)) (ctx (job (queue s) 1)) = true
  ∧ state (job (queue s) 0) = JOB_RUNNING
  ∧ state (job (queue s) 1) = JOB_RUNNING.
Proof. by_schedule schedule_conflict_wait. Qed.

(** A wait that returns without a signal lets the two slots both run, on
    a compact schedule and with a conflict in both argument orders: slot 1,
    parked on the running slot 0, goes on with the slots after slot 0 and
    does not test slot 0 again. *)
Lemma spurious_wake_both_running :
  let s := state_after 3 conflict_1_2 cmp_pointee 2 schedule_spurious_wake in
  run_compact 3 conflict_1_2 cmp_pointee schedule_spurious_wake
    (init_system 3 2) = Some s
  ∧ conflict_1_2 (ctx (job (queue s) 0)) (ctx (job (queue s) 1)) = true
  ∧ conflict_1_2 (ctx (job (queue s) 1)) (ctx (job (queue s) 0)) = true
  ∧ state (job (queue s) 0) = JOB_RUNNING
  ∧ state (job (queue s) 1) = JOB_RUNNING.
Proof. by vm_compute. Qed.

(** Off the compact schedules the two slots can both run: slot 0 is
    released, the scan of slot 1 stops at the count 2 and never looks at
    slot 2. *)
Lemma conflicting_slots_both_running :
  let s := state_after 3 conflict_1_2 cmp_pointee 3
             schedule_conflict_above_count in
  reachable 3 conflict_1_2 cmp_pointee 3 s
  ∧ conflict_1_2 (ctx (job (queue s) 1)) (ctx (job (queue s) 2)) = true
  ∧ state (job (queue s) 1) = JOB_RUNNING
  ∧ state (job (queue s) 2) = JOB_RUNNING.
Proof. by_schedule schedule_conflict_above_count. Qed.

(** ** The selection loop, for a comparator that is a strict weak order *)

Section RequeueOrder.

Variable cmp : ctx_ref → ctx_ref → Z.
Hypothesis cmp_irrefl : ∀ x, cmp x x ≠ -1.
Hypothesis cmp_trans : ∀ x y z, cmp x y = -1 → cmp y z = -1 → cmp x z = -1.
Hypothesis cmp_weak : ∀ x y z, cmp x y = -1 → cmp x z = -1 ∨ cmp z y = -1.

Lemma requeue_loop_least q n i m :
  requeue_inv cmp q i m →
  requeue_inv cmp q (i + n) (requeue_loop cmp q n i m).
Proof.
  revert i m. induction n as [|n IH]; intros i m Hinv; simpl.
  - by rewrite Nat.add_0_r.
  - replace (i + S n)%nat with (S i + n)%nat by lia. apply IH.
    destruct (decide (state (job q i) = JOB_WAIT_QUEUE_ENTER)) as [Hc|Hc].
    + destruct Hinv as [[-> Hnone] | (k & -> & Hk & Hck & Hmin & Hfirst)].
      * rewrite decide_False by lia. right. exists i.
        split; [done|]. split; [lia|]. split; [done|]. split.
        -- intros j Hj Hcj. destruct (decide (j = i)) as [->|].
           ++ apply cmp_irrefl.
           ++ exfalso. apply (Hnone j); [lia | done].
        -- intros j Hj Hcj. exfalso. by apply (Hnone j).
      * rewrite decide_True by lia. rewrite Nat2Z.id.
        destruct (decide _) as [Hlt|Hge].
        -- right. exists i. split; [done|]. split; [lia|]. split; [done|].
           split.
           ++ intros j Hj Hcj. destruct (decide (j = i)) as [->|].
              ** apply cmp_irrefl.
              ** intros Hji. apply (Hmin j); [lia | done |].
                 by apply (cmp_trans _ (ctx_field q i)).
           ++ intros j Hj Hcj.
              destruct (cmp_weak _ _ (ctx_field q j) Hlt) as [|Hjk]; [done|].
              exfalso. by apply (Hmin j).
        -- right. exists k. split; [done|]. split; [lia|]. split; [done|].
           split; [|done].
           intros j Hj Hcj. destruct (decide (j = i)) as [->|]; [done|].
           apply Hmin; [lia | done].
    + destruct Hinv as [[-> Hnone] | (k & -> & Hk & Hck & Hmin & Hfirst)].
      * left. split; [done|]. intros j Hj.
        destruct (decide (j = i)) as [->|]; [done | apply Hnone; lia].
      * right. exists k. split; [done|]. split; [lia|]. split; [done|].
        split; [|done].
        intros j Hj Hcj. destruct (decide (j = i)) as [->|]; [done|].
        apply Hmin; [lia | done].
Qed.

(** Below the registered count the loop signals no one when no slot waits
    at the gate, and otherwise the first of the least waiting slots. *)
Lemma requeue_signal_least q :
  (requeue_signal cmp q = []
   ∧ ∀ j, (j < Z.to_nat (registered_workers q))%nat →
          state (job q j) ≠ JOB_WAIT_QUEUE_ENTER)
  ∨ ∃ k, requeue_signal cmp q = [k]
      ∧ (k < Z.to_nat (registered_workers q))%nat
      ∧ state (job q k) = JOB_WAIT_QUEUE_ENTER
      ∧ (∀ j, (j < Z.to_nat (registered_workers q))%nat →
              state (job q j) = JOB_WAIT_QUEUE_ENTER →
              cmp (ctx_field q j) (ctx_field q k) ≠ -1)
      ∧ (∀ j, (j < k)%nat → state (job q j) = JOB_WAIT_QUEUE_ENTER →
              cmp (ctx_field q k) (ctx_field q j) = -1).
Proof.
  assert (H0 : requeue_inv cmp q 0 (-1)) by (left; split; [done | intros; lia]).
  pose proof (requeue_loop_least q (Z.to_nat (registered_workers q)) 0 (-1) H0)
    as Hinv.
  simpl in Hinv. unfold requeue_signal, requeue_select.
  destruct Hinv as [[-> Hnone] | (k & -> & Hk & Hck & Hmin & Hfirst)].
  - left. by rewrite decide_False by lia.
  - right. exists k. rewrite decide_True by lia. by rewrite Nat2Z.id.
Qed.

End RequeueOrder.

(** ** The theorems at concrete tables *)

Lemma end_job_bad_state_unchanged_witness :
  let q := queue (state_after 3 conflict_1_2 cmp_pointee 2 schedule_one_idle) in
  state (job q 0) = JOB_IDLE
  ∧ job_queue_end_job cmp_pointee q 0 = Some (q, [], NULL).
Proof.
  split; [by vm_compute|].
  apply end_job_bad_state_unchanged; by vm_compute.
Defined.

Lemma start_register_running_noop_witness :
  let q := queue (state_after 3 conflict_1_2 cmp_pointee 2
                    schedule_one_running) in
  state (job q 0) = JOB_RUNNING
  ∧ job_queue_start_job conflict_1_2 q 0 9 = Started q WSDB_OK
  ∧ job_queue_register_job q 0 9 = (q, WSDB_OK)
  ∧ foldl (λ o c', job_queue_start_job conflict_1_2 (outcome_queue o) 0 c')
          (Started q WSDB_OK) [3; 4] = Started q WSDB_OK.
Proof.
  split; [by vm_compute|].
  apply start_register_running_noop; by vm_compute.
Defined.

Lemma register_job_overwrites_witness :
  let q := queue (state_after 3 conflict_1_2 cmp_pointee 2 schedule_one_idle) in
  state (job q 0) = JOB_IDLE
  ∧ ∃ q', job_queue_register_job q 0 7 = (q', WSDB_OK)
      ∧ job q' 0 = mk_job_worker JOB_REGISTERED 7 (id (job q 0))
                     (type (job q 0)) (waiters (job q 0))
      ∧ (∀ j, j ≠ 0%nat → job q' j = job q j)
      ∧ length (jobs q') = length (jobs q)
      ∧ registered_workers q' = registered_workers q
      ∧ active_workers q' = active_workers q
      ∧ max_concurrent_workers q' = max_concurrent_workers q.
Proof.
  split; [by vm_compute|].
  apply register_job_overwrites; [vm_compute; lia | by vm_compute].
Defined.

Lemma new_worker_spec_witness :
  let q := queue (state_after 3 conflict_1_2 cmp_pointee 2 schedule_one_idle) in
  registered_workers q = 1
  ∧ (∃ q', job_queue_new_worker 3 q 5 = NewWorker q' 1
       ∧ job q' 1 = mk_job_worker JOB_IDLE (ctx (job q 1)) (id (job q 1)) 5
                      (waiters (job q 1))
       ∧ (∀ j, j ≠ 1%nat → job q' j = job q j)
       ∧ length (jobs q') = length (jobs q)
       ∧ registered_workers q' = registered_workers q + 1
       ∧ active_workers q' = active_workers q
       ∧ max_concurrent_workers q' = max_concurrent_workers q)
  ∧ job_queue_new_worker 3 q 5 ≠ NoFreeSlot.
Proof.
  intros q.
  destruct (new_worker_spec 3 q 5 ltac:(by vm_compute)) as (_ & Hsome & Hfree).
  split; [by vm_compute|]. split.
  - apply Hsome; [by vm_compute | lia | by vm_compute |].
    intros j Hj. assert (j = 0%nat) as -> by lia. by vm_compute.
  - apply Hfree; by vm_compute.
Defined.

Lemma start_end_round_trip_witness :
  let s := state_after 3 conflict_1_2 cmp_pointee 2 schedule_second_idle in
  state (job (queue s) 1) = JOB_IDLE
  ∧ ∃ q1 q2 sigs,
      job_queue_start_job conflict_1_2 (queue s) 1 3 = Started q1 WSDB_OK
      ∧ state (job q1 1) = JOB_RUNNING
      ∧ ctx (job q1 1) = 3
      ∧ active_workers q1 = active_workers (queue s) + 1
      ∧ job_queue_end_job cmp_pointee q1 1 = Some (q2, sigs, 3)
      ∧ active_workers q2 = active_workers q1 - 1
      ∧ state (job q2 1) = JOB_IDLE
      ∧ ctx (job q2 1) = NULL.
Proof.
  intros s. split; [by vm_compute|].
  apply (start_end_round_trip 3 conflict_1_2 cmp_pointee 2).
  - exists schedule_second_idle. by vm_compute.
  - by vm_compute.
  - by vm_compute.
  - by vm_compute.
  - intros j Hj Hne Hsc.
    assert (j = 0%nat) as ->.
    { assert (Hr : registered_workers (queue s) = 2) by (by vm_compute). lia. }
    by vm_compute.
Defined.

Lemma counters_match_states_witness :
  let s := state_after 3 conflict_1_2 cmp_pointee 2 schedule_conflict_wait in
  counters_match (queue s)
  ∧ ∀ a s', exec 3 conflict_1_2 cmp_pointee a s = Some s' →
            counters_match (queue s').
Proof.
  apply (counters_match_states 3 conflict_1_2 cmp_pointee 2).
  exists schedule_conflict_wait. by vm_compute.
Defined.

Lemma conflicting_slots_never_both_running_witness :
  let s := state_after 3 conflict_1_2 cmp_pointee 2 schedule_conflict_wait in
  conflict_1_2 (ctx (job (queue s) 0)) (ctx (job (queue s) 1)) = true
  ∧ ¬ (state (job (queue s) 0) = JOB_RUNNING
       ∧ state (job (queue s) 1) = JOB_RUNNING).
Proof.
  split; [by vm_compute|].
  apply (conflicting_slots_never_both_running 3 conflict_1_2 cmp_pointee 2
           schedule_conflict_wait).
  - by vm_compute.
  - by vm_compute.
  - done.
  - by vm_compute.
  - by vm_compute.
Defined.

(** * Further properties of the code *)

(** ** Filling the table *)

Lemma filled_create MAX mw : filled MAX 0 (job_queue_create MAX mw).
Proof.
  split; [|split; [|split]].
  - simpl. by rewrite length_fmap, length_seq.
  - done.
  - intros j Hj. lia.
  - intros j _. rewrite job_create. by destruct (decide _).
Qed.

Lemma filled_new_worker MAX k q t :
  filled MAX k q → (k < MAX)%nat →
  ∃ q', job_queue_new_worker MAX q t = NewWorker q' k ∧ filled MAX (S k) q'.
Proof.
  intros (Hlen & Hreg & Hlow & Hhigh) Hk. unfold job_queue_new_worker.
  rewrite decide_False by lia.
  rewrite (find_void_first q MAX 0 k);
    [| lia | by apply Hhigh | intros j Hj; rewrite Hlow by lia; done].
  eexists. split; [done|]. split; [|split; [|split]].
  - by len_simpl.
  - simpl. lia.
  - intros j Hj. destruct (decide (j = k)) as [->|Hne].
    + job_simpl. done.
    + job_simpl. apply Hlow. lia.
  - intros j Hj. job_simpl. apply Hhigh. lia.
Qed.

Lemma acquire_many_filled MAX n k q t :
  filled MAX k q → (k + n ≤ MAX)%nat →
  ∃ q', acquire_many MAX n q t = Some (seq k n, q') ∧ filled MAX (k + n) q'.
Proof.
  revert k q. induction n as [|n IH]; intros k q Hf Hle; simpl.
  - exists q. by rewrite Nat.add_0_r.
  - destruct (filled_new_worker MAX k q t Hf ltac:(lia)) as (q1 & -> & Hf1).
    destruct (IH (S k) q1 Hf1 ltac:(lia)) as (q2 & -> & Hf2).
    exists q2. simpl. split; [done|].
    by replace (k + S n)%nat with (S k + n)%nat by lia.
Qed.

(** X1.  From a fresh queue, [MAX_WORKERS] acquisitions in a row all
    succeed and hand out the slots 0, 1, ... in index order; the table is
    then full and the next acquisition takes the queue-full exit. *)
Theorem acquire_all_then_full (MAX : nat) (mw t t' : Z) :
  ∃ q, acquire_many MAX MAX (job_queue_create MAX mw) t
       = Some (seq 0 MAX, q)
     ∧ registered_workers q = Z.of_nat MAX
     ∧ (∀ j, (j < MAX)%nat → state (job q j) = JOB_IDLE)
     ∧ job_queue_new_worker MAX q t' = QueueFull.
Proof.
  destruct (acquire_many_filled MAX MAX 0 _ t (filled_create MAX mw)
              ltac:(lia)) as (q & Hq & Hf).
  exists q. split; [done|]. destruct Hf as (Hlen & Hreg & Hlow & _).
  split; [done|]. split; [done|].
  unfold job_queue_new_worker. by rewrite decide_True.
Qed.

(** ** Bounds on the counters *)

Lemma count_engaged_le_non_void (l : list job_worker) :
  count_where (is_state JOB_RUNNING) l
  + count_where (is_state JOB_WAIT_FOR_JOB) l
  ≤ count_where (λ w, negb (is_state JOB_VOID w)) l.
Proof.
  induction l as [|x l IH]; simpl; [done|].
  unfold is_state at 1 3 5. destruct (state x); simpl; lia.
Qed.

(** X2.  In every reachable state the active count lies between 0 and the
    registered count, and the registered count is at most [MAX_WORKERS]:
    whatever the admission ceiling, no more starts hold a seat than slots
    are handed out. *)
Theorem counters_bounded
    (MAX : nat) (cf : Z → Z → bool) (cmp : ctx_ref → ctx_ref → Z)
    (mw : Z) (s : system) :
  reachable MAX cf cmp mw s →
  0 ≤ active_workers (queue s)
  ∧ active_workers (queue s) ≤ registered_workers (queue s)
  ∧ registered_workers (queue s) ≤ Z.of_nat MAX.
Proof.
  intros Hr.
  destruct (table_ok_reachable _ _ _ _ _ Hr) as [Hlen _ _ _ Hreg Hact].
  rewrite Hact, Hreg. unfold count_state, count_non_void.
  pose proof (count_where_bounds (is_state JOB_RUNNING) (jobs (queue s))).
  pose proof (count_where_bounds (is_state JOB_WAIT_FOR_JOB) (jobs (queue s))).
  pose proof (count_where_bounds (λ w, negb (is_state JOB_VOID w))
                (jobs (queue s))).
  pose proof (count_engaged_le_non_void (jobs (queue s))).
  lia.
Qed.

(** ** What is fixed at creation *)

Lemma queue_after_start s w o : queue (after_start s w o) = outcome_queue o.
Proof. by destruct o. Qed.

Lemma ceiling_scan cf q w c i :
  max_concurrent_workers (outcome_queue (scan_from cf q w c i))
  = max_concurrent_workers q.
Proof.
  unfold scan_from.
  destruct (conflict_scan_cases cf (Z.to_nat (registered_workers q) - i) q w c i)
    as [[-> _] | (k & _ & _ & _ & ->)]; done.
Qed.

Lemma ceiling_exec MAX cf cmp a s s' :
  exec MAX cf cmp a s = Some s' →
  max_concurrent_workers (queue s') = max_concurrent_workers (queue s).
Proof.
  destruct a as [t|w|w c|w c|w|w|w]; simpl.
  - unfold job_queue_new_worker.
    destruct (decide _); [by intros [= <-]|].
    destruct (find_void _ _ _); by intros [= <-].
  - destruct (callable s w); [|done]. unfold job_queue_remove_worker.
    destruct (decide (state (job (queue s) w) = JOB_REGISTERED)); simpl.
    + destruct (release_my_waiters _ w); simpl; [|done].
      destruct (decide _); simpl; [|done]. by intros [= <-].
    + destruct (decide _); simpl; [|done]. by intros [= <-].
  - destruct (callable s w); [|done]. intros [= <-]. simpl.
    unfold job_queue_register_job. by destruct (decide _).
  - destruct (callable s w); [|done]. intros [= <-].
    rewrite queue_after_start. unfold job_queue_start_job.
    destruct (decide _); [done|]. destruct (decide _); [done|].
    unfold start_admit. by rewrite ceiling_scan.
  - destruct (callable s w); [|done]. unfold job_queue_end_job.
    destruct (_ && _); simpl; [by intros [= <-]|].
    destruct (release_my_waiters _ w); simpl; [|done].
    intros [= <-]. simpl. by destruct (decide _).
  - destruct (thread_of s w) as [|k [|]]; try done. intros [= <-].
    rewrite queue_after_start. destruct k as [c|c k]; simpl.
    + unfold start_admit. by rewrite ceiling_scan.
    + unfold start_rescan. by rewrite ceiling_scan.
  - destruct (thread_of s w) as [|k [|]]; try done. intros [= <-].
    rewrite queue_after_start. destruct k as [c|c k]; simpl.
    + unfold start_admit. by rewrite ceiling_scan.
    + unfold start_rescan. by rewrite ceiling_scan.
Qed.

(** X3.  What [job_queue_create] fixes stays fixed: in every reachable
    state the admission ceiling is the requested one clamped to
    [MAX_WORKERS], the table has [MAX_WORKERS] slots, and the [id] field of
    every slot is its index. *)
Theorem creation_values_fixed
    (MAX : nat) (cf : Z → Z → bool) (cmp : ctx_ref → ctx_ref → Z)
    (mw : Z) (s : system) :
  reachable MAX cf cmp mw s →
  max_concurrent_workers (queue s) = Z.min mw (Z.of_nat MAX)
  ∧ length (jobs (queue s)) = MAX
  ∧ ∀ i, (i < MAX)%nat → id (job (queue s) i) = i.
Proof.
  intros Hr. pose proof (table_ok_reachable _ _ _ _ _ Hr) as [Hlen _ Hids _ _ _].
  split; [|done]. destruct Hr as [l Hl].
  assert (Hgen : ∀ l s0 s1, run MAX cf cmp l s0 = Some s1 →
            max_concurrent_workers (queue s1)
            = max_concurrent_workers (queue s0)).
  { clear. induction l as [|a l IH]; intros s0 s1; simpl.
    - by intros [= <-].
    - destruct (exec MAX cf cmp a s0) as [s2|] eqn:E; simpl; [|done].
      intros H. rewrite (IH _ _ H). by apply (ceiling_exec MAX cf cmp a). }
  rewrite (Hgen _ _ _ Hl). simpl. destruct (decide _); lia.
Qed.

(** ** Releasing a slot *)

(** X4.  [job_queue_remove_worker] goes through only on an idle or a
    registered slot; on any other state its assertion fails.  On an idle
    slot it signals no one, makes the slot void and takes one off the
    registered count.  On a registered slot (never started) it also clears
    the context and signals the recorded waiters below the registered
    count. *)
Theorem remove_worker_cases (q : job_queue) (w : nat) :
  (w < length (jobs q))%nat →
  (state (job q w) ≠ JOB_IDLE → state (job q w) ≠ JOB_REGISTERED →
   job_queue_remove_worker q w = None)
  ∧ (state (job q w) = JOB_IDLE →
     ∃ q', job_queue_remove_worker q w = Some (q', [])
       ∧ job q' w = set_state JOB_VOID (job q w)
       ∧ (∀ j, j ≠ w → job q' j = job q j)
       ∧ registered_workers q' = registered_workers q - 1
       ∧ active_workers q' = active_workers q)
  ∧ (state (job q w) = JOB_REGISTERED →
     (∀ j, waiter_flag q (id (job q w)) j = true →
           state (job q j) = JOB_WAIT_FOR_JOB) →
     ∃ q', job_queue_remove_worker q w
           = Some (q', filter (λ j, waiter_flag q (id (job q w)) j = true)
                         (seq 0 (Z.to_nat (registered_workers q))))
       ∧ job q' w = set_ctx NULL (set_state JOB_VOID (job q w))
       ∧ (∀ j, j ≠ w → job q' j = job q j)
       ∧ registered_workers q' = registered_workers q - 1
       ∧ active_workers q' = active_workers q).
Proof.
  intros Hw. unfold job_queue_remove_worker. split; [|split].
  - intros Hi Hr. rewrite decide_False by done. simpl.
    by rewrite decide_False.
  - intros Hi. rewrite decide_False by (by rewrite Hi). simpl.
    rewrite decide_True by done. eexists. split; [done|].
    split; [by job_simpl|]. split; [|done].
    intros j Hj. by job_simpl.
  - intros Hr Hassert. rewrite decide_True by done.
    set (q1 := upd_job w (set_ctx NULL) (upd_job w (set_state JOB_IDLE) q)).
    assert (Hrel : release_my_waiters q1 w
                   = Some (filter (λ j, waiter_flag q (id (job q w)) j = true)
                             (seq 0 (Z.to_nat (registered_workers q))))).
    { unfold release_my_waiters.
      assert (Hid : id (job q1 w) = id (job q w)) by (unfold q1; by job_simpl).
      rewrite Hid.
      assert (Hfl : ∀ j, waiter_flag q1 (id (job q w)) j
                         = waiter_flag q (id (job q w)) j).
      { intros j. unfold q1. by rewrite !waiter_flag_keep. }
      rewrite release_loop_ok.
      - f_equal. apply list_filter_iff. intros j. by rewrite Hfl.
      - intros j _ Hf. rewrite Hfl in Hf. pose proof (Hassert j Hf) as Hs.
        assert (j ≠ w) by (intros ->; congruence).
        unfold q1. by job_simpl. }
    rewrite Hrel. simpl.
    rewrite decide_True by (unfold q1; by job_simpl).
    eexists. split; [done|]. unfold q1.
    split; [by job_simpl|]. split; [|done].
    intros j Hj. by job_simpl.
Qed.

(** X5.  Acquiring a slot and releasing it at once gives the table back:
    the release goes through without a signal, both counters and the state,
    context, id and waiter flags of every slot are as before the
    acquisition; what remains is the type written into the slot. *)
Theorem acquire_release_round_trip
    (MAX : nat) (q q' : job_queue) (t : Z) (w : nat) :
  length (jobs q) = MAX →
  job_queue_new_worker MAX q t = NewWorker q' w →
  ∃ q'', job_queue_remove_worker q' w = Some (q'', [])
    ∧ registered_workers q'' = registered_workers q
    ∧ active_workers q'' = active_workers q
    ∧ max_concurrent_workers q'' = max_concurrent_workers q
    ∧ job q'' w = set_type t (job q w)
    ∧ ∀ j, j ≠ w → job q'' j = job q j.
Proof.
  intros Hlen. unfold job_queue_new_worker.
  destruct (decide _); [done|].
  destruct (find_void q MAX 0) as [w'|] eqn:E; [|done].
  intros [= <- ->]. destruct (find_void_Some _ _ _ _ E) as (Hw & Hv & _).
  unfold job_queue_remove_worker.
  rewrite decide_False by (job_simpl; done). simpl.
  rewrite decide_True by (job_simpl; done).
  eexists. split; [done|]. split; [simpl; lia|]. split; [done|].
  split; [done|]. split.
  - job_simpl. destruct (job q w) eqn:Ej. simpl in *. by subst.
  - intros j Hj. by job_simpl.
Qed.

(** ** The assertions hold on reachable states *)

(** X6.  In every reachable state a recorded waiter is parked in
    [JOB_WAIT_FOR_JOB], and it is recorded in the waiter set of one slot
    only. *)
Theorem waiter_in_one_set
    (MAX : nat) (cf : Z → Z → bool) (cmp : ctx_ref → ctx_ref → Z)
    (mw : Z) (s : system) (j a : nat) :
  reachable MAX cf cmp mw s →
  waiter_flag (queue s) j a = true →
  state (job (queue s) a) = JOB_WAIT_FOR_JOB
  ∧ ∀ j', waiter_flag (queue s) j' a = true → j' = j.
Proof.
  intros Hr Hf.
  destruct (recorded_waiter_is_parked _ _ _ _ _ _ _ Hr Hf) as [Hs (c & sg & Hth)].
  split; [done|]. intros j' Hf'.
  destruct (recorded_waiter_is_parked _ _ _ _ _ _ _ Hr Hf') as [_ (c' & sg' & Hth')].
  congruence.
Qed.

(** X7.  In every reachable state a call of [job_queue_end_job] by the
    holder of a slot returns (the assertion in [release_my_waiters] does
    not fail), and so does a call of [job_queue_remove_worker] on a slot
    that is idle or registered. *)
Theorem end_and_remove_do_not_abort
    (MAX : nat) (cf : Z → Z → bool) (cmp : ctx_ref → ctx_ref → Z)
    (mw : Z) (s : system) (w : nat) :
  reachable MAX cf cmp mw s →
  callable s w = true →
  (∃ q' sigs r, job_queue_end_job cmp (queue s) w = Some (q', sigs, r))
  ∧ (state (job (queue s) w) = JOB_IDLE
     ∨ state (job (queue s) w) = JOB_REGISTERED →
     ∃ q' sigs, job_queue_remove_worker (queue s) w = Some (q', sigs)).
Proof.
  intros Hr Hcall.
  pose proof (table_ok_reachable _ _ _ _ _ Hr) as Hok.
  pose proof Hok as [Hlen _ Hids _ _ _].
  destruct (callable_spec _ _ Hcall) as [Hfree Hnv].
  pose proof (job_in_table _ _ _ Hok Hnv) as Hw.
  split.
  - destruct (decide (state (job (queue s) w) = JOB_RUNNING
                      ∨ state (job (queue s) w) = JOB_REGISTERED)) as [Hl|Hb].
    + rewrite end_job_live by (try done; by apply Hids).
      rewrite (release_my_waiters_total MAX cf cmp mw) by done. simpl. eauto.
    + rewrite end_job_not_live by tauto. eauto.
  - intros Hst. unfold job_queue_remove_worker.
    destruct (decide (state (job (queue s) w) = JOB_REGISTERED)) as [Hreg|Hnr].
    + set (q1 := upd_job w (set_ctx NULL)
                   (upd_job w (set_state JOB_IDLE) (queue s))).
      assert (Hrel : is_Some (release_my_waiters q1 w)).
      { unfold release_my_waiters. rewrite release_loop_ok; [eauto|].
        intros j _ Hf. unfold q1 in Hf. rewrite !waiter_flag_keep in Hf by done.
        assert (Hidw : id (job (upd_job w (set_ctx NULL)
                             (upd_job w (set_state JOB_IDLE) (queue s))) w) = w).
        { job_simpl. simpl. by apply Hids. }
        rewrite Hidw in Hf.
        destruct (recorded_waiter_is_parked _ _ _ _ _ _ _ Hr Hf) as [Hs _].
        assert (j ≠ w) by (intros ->; congruence).
        unfold q1. by job_simpl. }
      destruct Hrel as [rel Hrel]. rewrite Hrel. simpl.
      rewrite decide_True by (unfold q1; job_simpl; done). eauto.
    + destruct Hst as [Hi|]; [|done]. simpl.
      rewrite decide_True by done. eauto.
Qed.

(** ** No context is left in an unused slot *)

Lemma idle_null_step q q' :
  idle_null q →
  (∀ j, (state (job q' j) = state (job q j) ∧ ctx (job q' j) = ctx (job q j))
        ∨ (state (job q' j) ≠ JOB_VOID ∧ state (job q' j) ≠ JOB_IDLE)
        ∨ ctx (job q' j) = NULL) →
  idle_null q'.
Proof.
  intros Hq Hstep j Hj.
  destruct (Hstep j) as [[Hs Hc] | [[Hv Hi] | Hn]]; [| tauto | done].
  rewrite Hc. apply Hq. by rewrite <- Hs.
Qed.

Lemma job_upd_job_out q i f j :
  ¬ (i = j ∧ (j < length (jobs q))%nat) → job (upd_job i f q) j = job q j.
Proof. intros. by rewrite job_upd_job, decide_False. Qed.

Ltac idle_null_cases Hq j w q :=
  destruct (decide (w = j ∧ (j < length (jobs q))%nat)) as [[<- ?]|?];
  [ job_simpl
  | repeat (rewrite job_upd_job_out by (len_simpl; done)) ];
  rewrite ?job_set_registered, ?job_set_active; simpl;
  first [ by left | by (right; left) | by (right; right)
        | right; right; apply Hq; auto ].

Lemma scan_keeps_contexts cf q w c i j :
  ctx (job (outcome_queue (scan_from cf q w c i)) j) = ctx (job q j)
  ∧ ((¬ (w = j ∧ (j < length (jobs q))%nat)
      ∧ state (job (outcome_queue (scan_from cf q w c i)) j) = state (job q j))
     ∨ ((w = j ∧ (j < length (jobs q))%nat)
        ∧ (state (job (outcome_queue (scan_from cf q w c i)) j) = JOB_RUNNING
           ∨ state (job (outcome_queue (scan_from cf q w c i)) j)
             = JOB_WAIT_FOR_JOB))).
Proof.
  unfold scan_from.
  destruct (conflict_scan_cases cf (Z.to_nat (registered_workers q) - i) q w c i)
    as [[-> _] | (k & _ & _ & _ & ->)]; simpl outcome_queue.
  - rewrite job_upd_job. destruct (decide _); simpl; auto.
  - rewrite (job_upd_job _ w). rewrite length_upd_job.
    destruct (decide (w = j ∧ _)); simpl.
    + split; [|auto]. rewrite job_upd_job. by destruct (decide _).
    + rewrite job_upd_job. destruct (decide _); simpl; auto.
Qed.

Lemma idle_null_admit cf q w c :
  idle_null q → idle_null (outcome_queue (start_admit cf q w c)).
Proof.
  intros Hq. unfold start_admit. apply (idle_null_step q); [done|]. intros j.
  match goal with |- context [scan_from cf ?q0 w c 0] =>
    destruct (scan_keeps_contexts cf q0 w c 0 j) as [Hc Hs] end.
  rewrite length_upd_job in Hs. simpl in Hs.
  destruct Hs as [[Hn Hs] | [_ [Hs | Hs]]].
  - left. rewrite Hs, Hc. rewrite job_upd_job. simpl.
    by rewrite decide_False.
  - right; left. by rewrite Hs.
  - right; left. by rewrite Hs.
Qed.

Lemma idle_null_rescan cf q w c k :
  idle_null q → idle_null (outcome_queue (start_rescan cf q w c k)).
Proof.
  intros Hq. unfold start_rescan. apply (idle_null_step q); [done|]. intros j.
  match goal with |- context [scan_from cf ?q0 w c (S k)] =>
    destruct (scan_keeps_contexts cf q0 w c (S k) j) as [Hc Hs] end.
  destruct Hs as [[Hn Hs] | [_ [Hs | Hs]]].
  - left. rewrite Hs, Hc. rewrite job_upd_job. by destruct (decide _).
  - right; left. by rewrite Hs.
  - right; left. by rewrite Hs.
Qed.

Lemma idle_null_exec MAX cf cmp a s s' :
  idle_null (queue s) → exec MAX cf cmp a s = Some s' → idle_null (queue s').
Proof.
  intros Hq. destruct a as [t|w|w c|w c|w|w|w]; simpl.
  - unfold job_queue_new_worker.
    destruct (decide _); [by intros [= <-]|].
    destruct (find_void _ _ _) as [w|] eqn:E; [|by intros [= <-]].
    intros [= <-]. simpl. destruct (find_void_Some _ _ _ _ E) as (_ & Hv & _).
    apply (idle_null_step (queue s)); [done|]. intros j.
    idle_null_cases Hq j w (queue s).
  - destruct (callable s w); [|done]. unfold job_queue_remove_worker.
    destruct (decide (state (job (queue s) w) = JOB_REGISTERED)); simpl.
    + destruct (release_my_waiters _ w); simpl; [|done].
      destruct (decide _); simpl; [|done]. intros [= <-]. simpl.
      apply (idle_null_step (queue s)); [done|]. intros j.
      rewrite job_set_registered. idle_null_cases Hq j w (queue s).
    + destruct (decide _) as [Hi|]; simpl; [|done]. intros [= <-]. simpl.
      apply (idle_null_step (queue s)); [done|]. intros j.
      rewrite job_set_registered. idle_null_cases Hq j w (queue s).
  - destruct (callable s w); [|done]. intros [= <-]. simpl.
    unfold job_queue_register_job. destruct (decide _); simpl; [done|].
    apply (idle_null_step (queue s)); [done|]. intros j.
    idle_null_cases Hq j w (queue s).
  - destruct (callable s w); [|done]. intros [= <-].
    rewrite queue_after_start. unfold job_queue_start_job.
    destruct (decide _) as [|Hnr]; [done|]. destruct (decide _); simpl.
    + apply (idle_null_step (queue s)); [done|]. intros j.
      idle_null_cases Hq j w (queue s).
    + by apply idle_null_admit.
  - destruct (callable s w) eqn:Hc; [|done].
    destruct (job_queue_end_job cmp (queue s) w) as [[[q' sigs] r]|] eqn:E;
      simpl; [|done].
    intros [= <-]. simpl. revert E. unfold job_queue_end_job.
    destruct (_ && _); simpl; [by intros [= <- _ _]|].
    destruct (release_my_waiters _ w); simpl; [|done].
    intros [= <- _ _].
    apply (idle_null_step (queue s)); [done|]. intros j.
    destruct (decide (state (job (queue s) w) = JOB_RUNNING));
      rewrite ?job_set_active;
      idle_null_cases Hq j (id (job (queue s) w)) (queue s).
  - destruct (thread_of s w) as [|k [|]]; try done. intros [= <-].
    rewrite queue_after_start. destruct k as [c|c k]; simpl.
    + by apply idle_null_admit.
    + by apply idle_null_rescan.
  - destruct (thread_of s w) as [|k [|]]; try done. intros [= <-].
    rewrite queue_after_start. destruct k as [c|c k]; simpl.
    + by apply idle_null_admit.
    + by apply idle_null_rescan.
Qed.

(** X8.  In every reachable state a slot that is void or idle holds a null
    context: [job_queue_end_job] and [job_queue_remove_worker] clear it,
    and a start stores the new one only on its way to a state that is
    neither. *)
Theorem unused_slot_has_no_context
    (MAX : nat) (cf : Z → Z → bool) (cmp : ctx_ref → ctx_ref → Z)
    (mw : Z) (s : system) (j : nat) :
  reachable MAX cf cmp mw s →
  state (job (queue s) j) = JOB_VOID ∨ state (job (queue s) j) = JOB_IDLE →
  ctx (job (queue s) j) = NULL.
Proof.
  intros [l Hl].
  assert (Hgen : ∀ l s0 s1, idle_null (queue s0) →
            run MAX cf cmp l s0 = Some s1 → idle_null (queue s1)).
  { clear. induction l as [|a l IH]; intros s0 s1 H0; simpl.
    - by intros [= <-].
    - destruct (exec MAX cf cmp a s0) as [s2|] eqn:E; simpl; [|done].
      apply IH. by apply (idle_null_exec MAX cf cmp a s0). }
  apply (Hgen l (init_system MAX mw) s); [|done].
  intros i _. simpl. rewrite job_create. by destruct (decide _).
Qed.

(** ** Register followed by end *)

(** X9.  In a reachable state, registering a context on an acquired slot
    that is not running and ending the slot at once gives the context
    back: the end returns it, neither counter has moved, and the slot is
    idle with a null context. *)
Theorem register_end_round_trip
    (MAX : nat) (cf : Z → Z → bool) (cmp : ctx_ref → ctx_ref → Z)
    (mw : Z) (s : system) (w : nat) (c : Z) :
  reachable MAX cf cmp mw s →
  callable s w = true →
  state (job (queue s) w) ≠ JOB_RUNNING →
  ∃ q1 q2 sigs,
    job_queue_register_job (queue s) w c = (q1, WSDB_OK)
    ∧ state (job q1 w) = JOB_REGISTERED
    ∧ job_queue_end_job cmp q1 w = Some (q2, sigs, c)
    ∧ active_workers q2 = active_workers (queue s)
    ∧ registered_workers q2 = registered_workers (queue s)
    ∧ state (job q2 w) = JOB_IDLE
    ∧ ctx (job q2 w) = NULL.
Proof.
  intros Hr Hcall Hnr.
  pose proof (table_ok_reachable _ _ _ _ _ Hr) as Hok.
  pose proof Hok as [Hlen _ Hids Hpc _ _].
  destruct (callable_spec _ _ Hcall) as [Hth Hnv].
  pose proof (job_in_table _ _ _ Hok Hnv) as Hw.
  unfold job_queue_register_job. rewrite decide_False by done.
  set (q1 := upd_job w (set_state JOB_REGISTERED)
               (upd_job w (set_ctx c) (queue s))).
  assert (Hj1 : job q1 w = mk_job_worker JOB_REGISTERED c (id (job (queue s) w))
                             (type (job (queue s) w))
                             (waiters (job (queue s) w))).
  { unfold q1. job_simpl. done. }
  assert (Hlen1 : (w < length (jobs q1))%nat) by (unfold q1; len_simpl; lia).
  assert (Hrel : is_Some (release_my_waiters q1 w)).
  { unfold release_my_waiters. rewrite Hj1. simpl. rewrite Hids by done.
    rewrite release_loop_ok; [eauto|]. intros j _ Hf.
    unfold q1 in Hf. rewrite !waiter_flag_keep in Hf by done.
    destruct (recorded_waiter_is_parked _ _ _ _ _ _ _ Hr Hf) as [Hs _].
    assert (j ≠ w).
    { intros ->. specialize (Hpc w). rewrite Hth in Hpc. by destruct Hpc. }
    unfold q1. by job_simpl. }
  destruct Hrel as [rel Hrel].
  exists q1, (ended q1 w), (rel ++ requeue_signal cmp (ended q1 w)).
  split; [done|]. split; [by rewrite Hj1|]. split.
  - rewrite end_job_live; [| rewrite Hj1; simpl; by apply Hids
                           | right; by rewrite Hj1].
    rewrite Hrel. simpl. by rewrite Hj1.
  - unfold ended. rewrite decide_False by (by rewrite Hj1).
    split; [done|]. split; [done|].
    split; job_simpl; done.
Qed.

(** ** Where a start parks, and where it goes on *)

Lemma blocks_after_ctx cf q w c a j :
  blocks cf (upd_job w (set_ctx c) (set_active a q)) w c j = blocks cf q w c j.
Proof.
  unfold blocks. rewrite !job_upd_job, !job_set_active.
  destruct (decide (w = j ∧ _)) as [[-> _]|Hn]; simpl.
  - destruct (decide _); simpl;
      rewrite !bool_decide_eq_true_2 by done; by rewrite !andb_false_r.
  - destruct (decide _); done.
Qed.

Lemma blocks_after_waiter cf q w c k x b j :
  blocks cf (upd_job k (set_waiter x b) q) w c j = blocks cf q w c j.
Proof.
  unfold blocks. rewrite !job_upd_job.
  repeat (destruct (decide _); simpl); done.
Qed.

(** X10.  A start that gets a seat parks at the first index below the
    registered count whose slot is in a scanned state, is another slot, and
    conflicts with the new context: it has then already taken its seat and
    stored its context, it records itself in the waiter set of that slot
    and its own state is [JOB_WAIT_FOR_JOB]. *)
Theorem start_parks_at_first_conflict
    (cf : Z → Z → bool) (q : job_queue) (w : nat) (c : Z) (k : nat) :
  state (job q w) ≠ JOB_RUNNING →
  active_workers q ≠ max_concurrent_workers q →
  (k < Z.to_nat (registered_workers q))%nat →
  blocks cf q w c k = true →
  (∀ j, (j < k)%nat → blocks cf q w c j = false) →
  job_queue_start_job cf q w c
  = Parked
      (upd_job w (set_state JOB_WAIT_FOR_JOB)
         (upd_job k (set_waiter (id (job q w)) true)
            (upd_job w (set_ctx c) (set_active (active_workers q + 1) q))))
      (InScan c k).
Proof.
  intros Hnr Hseat Hk Hb Hclear. unfold job_queue_start_job.
  rewrite !decide_False by done. unfold start_admit, scan_from.
  set (q0 := upd_job w (set_ctx c) (set_active (active_workers q + 1) q)).
  assert (Hid : id (job q0 w) = id (job q w)).
  { unfold q0. rewrite job_upd_job. by destruct (decide _). }
  destruct (conflict_scan_cases cf (Z.to_nat (registered_workers q0) - 0)
              q0 w c 0) as [[_ Hall] | (k' & Hk' & Hb' & Hall & ->)].
  - exfalso. specialize (Hall k). unfold q0 in Hall at 2.
    rewrite blocks_after_ctx in Hall. rewrite Hall in Hb; [done|].
    unfold q0. simpl. lia.
  - unfold q0 in Hb' at 1. rewrite blocks_after_ctx in Hb'.
    assert (k' = k) as ->.
    { destruct (lt_eq_lt_dec k' k) as [[Hlt|Heq]|Hgt]; [|done|].
      - rewrite Hclear in Hb' by done. done.
      - specialize (Hall k ltac:(lia)). unfold q0 in Hall at 1.
        rewrite blocks_after_ctx in Hall. congruence. }
    by rewrite Hid.
Qed.

(** X11.  A waiter that is woken goes on with the slots after the one it
    waited on: when none of those blocks it, it runs, whatever the slot it
    waited on and the slots before it hold by then.  It clears its flag in
    the waiter set it was in. *)
Theorem woken_waiter_scans_only_later_slots
    (cf : Z → Z → bool) (q : job_queue) (w : nat) (c : Z) (k : nat) :
  (∀ j, (k < j < Z.to_nat (registered_workers q))%nat →
        blocks cf q w c j = false) →
  start_resume cf q w (InScan c k)
  = Started (upd_job w (set_state JOB_RUNNING)
               (upd_job k (set_waiter (id (job q w)) false) q)) WSDB_OK.
Proof.
  intros Hclear. simpl. unfold start_rescan, scan_from.
  set (q0 := upd_job k (set_waiter (id (job q w)) false) q).
  destruct (conflict_scan_cases cf (Z.to_nat (registered_workers q0) - S k)
              q0 w c (S k)) as [[-> _] | (k' & Hk' & Hb' & _)]; [done|].
  exfalso. unfold q0 in Hb' at 1. rewrite blocks_after_waiter in Hb'.
  rewrite Hclear in Hb'; [done|]. unfold q0 in Hk'. simpl in Hk'. lia.
Qed.

(** ** Waiters are released and leave the waiter set *)

(** X12.  In a reachable state, when the holder of a running or registered
    slot ends it, every slot that is recorded in its waiter set and lies
    below the registered count is signalled: its thread, parked in the scan
    at that slot, is ready to go on. *)
Theorem end_signals_waiters_below_count
    (MAX : nat) (cf : Z → Z → bool) (cmp : ctx_ref → ctx_ref → Z)
    (mw : Z) (s : system) (w a : nat) :
  reachable MAX cf cmp mw s →
  callable s w = true →
  state (job (queue s) w) = JOB_RUNNING
  ∨ state (job (queue s) w) = JOB_REGISTERED →
  waiter_flag (queue s) w a = true →
  Z.of_nat a < registered_workers (queue s) →
  ∃ s' c, exec MAX cf cmp (AEnd w) s = Some s'
          ∧ thread_of s' a = Blocked (InScan c w) true.
Proof.
  intros Hr Hcall Hlive Hf Ha.
  pose proof (table_ok_reachable _ _ _ _ _ Hr) as Hok.
  pose proof Hok as [Hlen _ Hids _ _ _].
  destruct (callable_spec _ _ Hcall) as [Hth Hnv].
  pose proof (job_in_table _ _ _ Hok Hnv) as Hw.
  destruct (recorded_waiter_is_parked _ _ _ _ _ _ _ Hr Hf)
    as [_ (c & sg & Hta)].
  simpl. rewrite Hcall.
  rewrite end_job_live by (try done; by apply Hids).
  rewrite (release_my_waiters_total MAX cf cmp mw) by done. simpl.
  eexists _, c. split; [done|].
  unfold thread_of; cbn [threads]. rewrite lookup_deliver.
  rewrite bool_decide_eq_true_2.
  - fold (thread_of s a). by rewrite Hta.
  - apply elem_of_app. left. apply list_elem_of_filter. split; [done|].
    apply elem_of_seq. lia.
Qed.

(** X13.  When a signalled waiter wakes, it is no longer recorded in the
    waiter set of the slot it waited on, whether it then runs or parks on a
    later slot. *)
Theorem woken_waiter_leaves_set
    (MAX : nat) (cf : Z → Z → bool) (cmp : ctx_ref → ctx_ref → Z)
    (mw : Z) (s : system) (a : nat) (c : Z) (j : nat) :
  reachable MAX cf cmp mw s →
  thread_of s a = Blocked (InScan c j) true →
  ∃ s', exec MAX cf cmp (AWake a) s = Some s'
        ∧ waiter_flag (queue s') j a = false.
Proof.
  intros Hr Hth.
  pose proof (table_ok_reachable _ _ _ _ _ Hr) as Hok.
  pose proof Hok as [Hlen _ Hids _ _ _].
  assert (Ha : (a < MAX)%nat).
  { apply (thread_in_table _ _ _ Hok). by rewrite Hth. }
  simpl. rewrite Hth. eexists. split; [done|].
  rewrite queue_after_start. simpl. unfold start_rescan, scan_from.
  rewrite (Hids a Ha).
  set (q0 := upd_job j (set_waiter a false) (queue s)).
  assert (Hid0 : id (job q0 a) = a).
  { unfold q0. rewrite job_upd_job. destruct (decide _); simpl; by apply Hids. }
  destruct (conflict_scan_cases cf (Z.to_nat (registered_workers q0) - S j)
              q0 a c (S j)) as [[-> _] | (k' & Hk' & _ & _ & ->)];
    simpl outcome_queue.
  - rewrite waiter_flag_keep by done. apply waiter_flag_clear.
  - rewrite waiter_flag_keep by done.
    rewrite waiter_flag_set_other by (left; lia). apply waiter_flag_clear.
Qed.

(** ** Which gate waiter an end signals *)

(** X14.  For a comparator that is a strict weak order on what it is
    passed, an end of a running or registered slot signals, after the
    released waiters, at most one more slot: none when no slot below the
    registered count waits at the gate; otherwise the waiting slot [k]
    below the count such that no waiting slot below the count comes before
    it in the order and that comes before every waiting slot of smaller
    index. *)
Theorem end_signals_first_least_gate_waiter
    (cmp : ctx_ref → ctx_ref → Z) (q : job_queue) (w : nat)
    (rel : list nat) :
  (∀ x, cmp x x ≠ -1) →
  (∀ x y z, cmp x y = -1 → cmp y z = -1 → cmp x z = -1) →
  (∀ x y z, cmp x y = -1 → cmp x z = -1 ∨ cmp z y = -1) →
  id (job q w) = w →
  state (job q w) = JOB_RUNNING ∨ state (job q w) = JOB_REGISTERED →
  release_my_waiters q w = Some rel →
  let q' := ended q w in
  (job_queue_end_job cmp q w = Some (q', rel, ctx (job q w))
   ∧ ∀ j, (j < Z.to_nat (registered_workers q'))%nat →
          state (job q' j) ≠ JOB_WAIT_QUEUE_ENTER)
  ∨ ∃ k, job_queue_end_job cmp q w = Some (q', rel ++ [k], ctx (job q w))
      ∧ (k < Z.to_nat (registered_workers q'))%nat
      ∧ state (job q' k) = JOB_WAIT_QUEUE_ENTER
      ∧ (∀ j, (j < Z.to_nat (registered_workers q'))%nat →
              state (job q' j) = JOB_WAIT_QUEUE_ENTER →
              cmp (ctx_field q' j) (ctx_field q' k) ≠ -1)
      ∧ (∀ j, (j < k)%nat → state (job q' j) = JOB_WAIT_QUEUE_ENTER →
              cmp (ctx_field q' k) (ctx_field q' j) = -1).
Proof.
  intros Hirr Htr Hweak Hid Hlive Hrel q'.
  rewrite end_job_live by done. rewrite Hrel. simpl. fold q'.
  destruct (requeue_signal_least cmp Hirr Htr Hweak q')
    as [[-> Hnone] | (k & -> & Hrest)].
  - left. by rewrite app_nil_r.
  - right. exists k. done.
Qed.

(** ** What a start and an end leave alone *)

Lemma scan_frame cf q w c i :
  let q' := outcome_queue (scan_from cf q w c i) in
  active_workers q' = active_workers q
  ∧ registered_workers q' = registered_workers q
  ∧ ∀ j, j ≠ w → same_but_waiters (job q' j) (job q j).
Proof.
  unfold scan_from.
  destruct (conflict_scan_cases cf (Z.to_nat (registered_workers q) - i) q w c i)
    as [[-> _] | (k & _ & _ & _ & ->)]; simpl outcome_queue.
  - split; [done|]. split; [done|]. intros j Hj. by rewrite job_upd_job_ne.
  - split; [done|]. split; [done|]. intros j Hj.
    rewrite job_upd_job_ne by done. rewrite job_upd_job.
    by destruct (decide _).
Qed.

(** X15.  A thread that wakes at the gate takes a seat without looking at
    the active count again: whatever the count and the ceiling are by
    then, the count goes up by one and the context is stored. *)
Theorem woken_gate_waiter_takes_seat
    (cf : Z → Z → bool) (q : job_queue) (w : nat) (c : Z) :
  let q' := outcome_queue (start_resume cf q w (AtGate c)) in
  active_workers q' = active_workers q + 1
  ∧ ((w < length (jobs q))%nat → ctx (job q' w) = c).
Proof.
  simpl. unfold start_admit.
  set (q0 := upd_job w (set_ctx c) (set_active (active_workers q + 1) q)).
  destruct (scan_frame cf q0 w c 0) as (Ha & _ & _). split; [by rewrite Ha|].
  intros Hw. destruct (scan_keeps_contexts cf q0 w c 0 w) as [-> _].
  unfold q0. by job_simpl.
Qed.

(** X16.  [job_queue_start_job], up to where it returns or parks, leaves
    the registered count and the ceiling as they are and, in every other
    slot, the state, the context, the id and the type: of another slot it
    writes at most a waiter flag. *)
Theorem start_leaves_other_slots
    (cf : Z → Z → bool) (q : job_queue) (w : nat) (c : Z) (j : nat) :
  j ≠ w →
  let q' := outcome_queue (job_queue_start_job cf q w c) in
  registered_workers q' = registered_workers q
  ∧ max_concurrent_workers q' = max_concurrent_workers q
  ∧ same_but_waiters (job q' j) (job q j).
Proof.
  intros Hj. unfold job_queue_start_job.
  destruct (decide _); [done|]. destruct (decide _); simpl.
  - split; [done|]. split; [done|]. by rewrite job_upd_job_ne.
  - unfold start_admit.
    set (q0 := upd_job w (set_ctx c) (set_active (active_workers q + 1) q)).
    destruct (scan_frame cf q0 w c 0) as (_ & Hr & Hs).
    split; [by rewrite Hr|]. split; [by rewrite ceiling_scan|].
    destruct (Hs j Hj) as (H1 & H2 & H3 & H4).
    unfold q0 in H1, H2, H3, H4. rewrite job_upd_job_ne in H1, H2, H3, H4 by done.
    done.
Qed.

(** X17.  A call of [job_queue_end_job] that returns leaves the registered
    count, the ceiling, every other slot and every waiter flag as they
    are: a waiter flag is cleared by the waiter when it wakes, not by the
    end that signals it.  The active count goes down by one exactly when
    the slot was running. *)
Theorem end_leaves_flags_and_other_slots
    (cmp : ctx_ref → ctx_ref → Z) (q q' : job_queue) (w : nat)
    (sigs : list nat) (r : Z) :
  job_queue_end_job cmp q w = Some (q', sigs, r) →
  registered_workers q' = registered_workers q
  ∧ max_concurrent_workers q' = max_concurrent_workers q
  ∧ active_workers q'
    = (if decide (state (job q w) = JOB_RUNNING)
       then active_workers q - 1 else active_workers q)
  ∧ (∀ j, j ≠ id (job q w) → job q' j = job q j)
  ∧ (∀ j a, waiter_flag q' j a = waiter_flag q j a).
Proof.
  unfold job_queue_end_job.
  destruct (bool_decide (state (job q w) ≠ JOB_RUNNING)) eqn:Hr; simpl.
  - apply bool_decide_eq_true in Hr.
    destruct (bool_decide _); simpl.
    + intros [= <- _ _]. by rewrite decide_False.
    + destruct (release_my_waiters q w); simpl; [|done].
      intros [= <- _ _]. rewrite !decide_False by done.
      split; [done|]. split; [done|]. split; [done|]. split.
      * intros j Hj. by rewrite !job_upd_job_ne.
      * intros j a. by rewrite !waiter_flag_keep.
  - apply bool_decide_eq_false in Hr.
    assert (Hrun : state (job q w) = JOB_RUNNING).
    { by destruct (decide (state (job q w) = JOB_RUNNING)). }
    destruct (release_my_waiters q w); simpl; [|done].
    intros [= <- _ _]. rewrite !decide_True by done.
    rewrite job_set_active.
    split; [done|]. split; [done|]. split; [done|]. split.
    + intros j Hj. by rewrite !job_upd_job_ne.
    + intros j a. by rewrite !waiter_flag_keep.
Qed.

(** ** The further properties at concrete tables *)

Lemma handle_order_lt x y : handle_order x y = -1 ↔ x < y.
Proof.
  unfold handle_order. destruct (Z.compare_spec x y); split; intros; lia.
Qed.

Lemma counters_bounded_witness :
  let s := state_after 3 conflict_1_2 cmp_pointee 2 schedule_conflict_wait in
  active_workers (queue s) = 2
  ∧ 0 ≤ active_workers (queue s)
  ∧ active_workers (queue s) ≤ registered_workers (queue s)
  ∧ registered_workers (queue s) ≤ Z.of_nat 3.
Proof.
  split; [by vm_compute|].
  apply (counters_bounded 3 conflict_1_2 cmp_pointee 2).
  exists schedule_conflict_wait. by vm_compute.
Defined.

Lemma creation_values_fixed_witness :
  let s := state_after 3 conflict_1_2 cmp_pointee 7 schedule_conflict_wait in
  max_concurrent_workers (queue s) = Z.min 7 (Z.of_nat 3)
  ∧ length (jobs (queue s)) = 3%nat
  ∧ ∀ i, (i < 3)%nat → id (job (queue s) i) = i.
Proof.
  apply (creation_values_fixed 3 conflict_1_2 cmp_pointee 7).
  exists schedule_conflict_wait. by vm_compute.
Defined.

Lemma remove_worker_cases_witness :
  let q := queue (state_after 3 conflict_1_2 cmp_pointee 2
                    schedule_second_registered) in
  (∃ q', job_queue_remove_worker q 0 = Some (q', [])
     ∧ registered_workers q' = registered_workers q - 1)
  ∧ (∃ q', job_queue_remove_worker q 1 = Some (q', [])
       ∧ job q' 1 = set_ctx NULL (set_state JOB_VOID (job q 1)))
  ∧ job_queue_remove_worker q 2 = None.
Proof.
  intros q. split; [|split].
  - destruct (remove_worker_cases q 0 ltac:(vm_compute; lia)) as (_ & Hidle & _).
    destruct (Hidle ltac:(by vm_compute)) as (q' & H1 & _ & _ & H2 & _).
    by exists q'.
  - destruct (remove_worker_cases q 1 ltac:(vm_compute; lia)) as (_ & _ & Hreg).
    destruct (Hreg ltac:(by vm_compute)) as (q' & H1 & H2 & _).
    + intros j Hf. exfalso. revert Hf.
      destruct j as [|[|[|j]]]; by vm_compute.
    + exists q'. split; [|done]. rewrite H1. by vm_compute.
  - destruct (remove_worker_cases q 2 ltac:(vm_compute; lia)) as (Hnone & _).
    apply Hnone; by vm_compute.
Defined.

Lemma acquire_release_round_trip_witness :
  let q := queue (state_after 3 conflict_1_2 cmp_pointee 2 schedule_one_idle) in
  ∃ q' q'', job_queue_new_worker 3 q 5 = NewWorker q' 1
    ∧ job_queue_remove_worker q' 1 = Some (q'', [])
    ∧ registered_workers q'' = registered_workers q
    ∧ active_workers q'' = active_workers q
    ∧ max_concurrent_workers q'' = max_concurrent_workers q
    ∧ job q'' 1 = set_type 5 (job q 1)
    ∧ ∀ j, j ≠ 1%nat → job q'' j = job q j.
Proof.
  intros q.
  assert (Hnew : ∃ q', job_queue_new_worker 3 q 5 = NewWorker q' 1).
  { eexists. reflexivity. }
  destruct Hnew as [q' Hnew].
  destruct (acquire_release_round_trip 3 q q' 5 1 ltac:(by vm_compute) Hnew)
    as (q'' & H).
  by exists q', q''.
Defined.

Lemma waiter_in_one_set_witness :
  let s := state_after 3 conflict_1_2 cmp_pointee 2 schedule_conflict_wait in
  waiter_flag (queue s) 0 1 = true
  ∧ state (job (queue s) 1) = JOB_WAIT_FOR_JOB
  ∧ ∀ j', waiter_flag (queue s) j' 1 = true → j' = 0%nat.
Proof.
  split; [by vm_compute|].
  apply (waiter_in_one_set 3 conflict_1_2 cmp_pointee 2).
  - exists schedule_conflict_wait. by vm_compute.
  - by vm_compute.
Defined.

Lemma end_and_remove_do_not_abort_witness :
  let s := state_after 3 conflict_1_2 cmp_pointee 2
             schedule_second_registered in
  (∃ q' sigs r, job_queue_end_job cmp_pointee (queue s) 1 = Some (q', sigs, r))
  ∧ ∃ q' sigs, job_queue_remove_worker (queue s) 1 = Some (q', sigs).
Proof.
  intros s.
  destruct (end_and_remove_do_not_abort 3 conflict_1_2 cmp_pointee 2 s 1)
    as [Hend Hrem].
  - exists schedule_second_registered. by vm_compute.
  - by vm_compute.
  - split; [done|]. apply Hrem. right. by vm_compute.
Defined.

Lemma unused_slot_has_no_context_witness :
  let s := state_after 3 conflict_1_2 cmp_pointee 2
             schedule_waiter_signalled in
  state (job (queue s) 0) = JOB_IDLE ∧ ctx (job (queue s) 0) = NULL.
Proof.
  split; [by vm_compute|].
  apply (unused_slot_has_no_context 3 conflict_1_2 cmp_pointee 2).
  - exists schedule_waiter_signalled. by vm_compute.
  - right. by vm_compute.
Defined.

Lemma register_end_round_trip_witness :
  let s := state_after 3 conflict_1_2 cmp_pointee 2 schedule_second_idle in
  ∃ q1 q2 sigs,
    job_queue_register_job (queue s) 1 7 = (q1, WSDB_OK)
    ∧ state (job q1 1) = JOB_REGISTERED
    ∧ job_queue_end_job cmp_pointee q1 1 = Some (q2, sigs, 7)
    ∧ active_workers q2 = active_workers (queue s)
    ∧ registered_workers q2 = registered_workers (queue s)
    ∧ state (job q2 1) = JOB_IDLE
    ∧ ctx (job q2 1) = NULL.
Proof.
  apply (register_end_round_trip 3 conflict_1_2 cmp_pointee 2).
  - exists schedule_second_idle. by vm_compute.
  - by vm_compute.
  - by vm_compute.
Defined.

Lemma start_parks_at_first_conflict_witness :
  let q := queue (state_after 3 conflict_1_2 cmp_pointee 3
                    schedule_two_running) in
  job_queue_start_job conflict_1_2 q 2 2
  = Parked
      (upd_job 2 (set_state JOB_WAIT_FOR_JOB)
         (upd_job 1 (set_waiter (id (job q 2)) true)
            (upd_job 2 (set_ctx 2) (set_active (active_workers q + 1) q))))
      (InScan 2 1).
Proof.
  apply start_parks_at_first_conflict.
  - by vm_compute.
  - by vm_compute.
  - vm_compute. lia.
  - by vm_compute.
  - intros j Hj. assert (j = 0%nat) as -> by lia. by vm_compute.
Defined.

Lemma woken_waiter_scans_only_later_slots_witness :
  let q := queue (state_after 3 conflict_1_2 cmp_pointee 2
                    schedule_waiter_then_register) in
  blocks conflict_1_2 q 1 2 0 = true
  ∧ start_resume conflict_1_2 q 1 (InScan 2 0)
    = Started (upd_job 1 (set_state JOB_RUNNING)
                 (upd_job 0 (set_waiter (id (job q 1)) false) q)) WSDB_OK.
Proof.
  intros q. split; [by vm_compute|].
  apply woken_waiter_scans_only_later_slots.
  intros j Hj.
  assert (Hr : Z.to_nat (registered_workers q) = 2%nat) by (by vm_compute).
  assert (j = 1%nat) as -> by lia. by vm_compute.
Defined.

Lemma end_signals_waiters_below_count_witness :
  let s := state_after 3 conflict_1_2 cmp_pointee 2 schedule_conflict_wait in
  ∃ s' c, exec 3 conflict_1_2 cmp_pointee (AEnd 0) s = Some s'
          ∧ thread_of s' 1 = Blocked (InScan c 0) true.
Proof.
  apply (end_signals_waiters_below_count 3 conflict_1_2 cmp_pointee 2).
  - exists schedule_conflict_wait. by vm_compute.
  - by vm_compute.
  - left. by vm_compute.
  - by vm_compute.
  - by vm_compute.
Defined.

Lemma woken_waiter_leaves_set_witness :
  let s := state_after 3 conflict_1_2 cmp_pointee 2
             schedule_waiter_signalled in
  waiter_flag (queue s) 0 1 = true
  ∧ ∃ s', exec 3 conflict_1_2 cmp_pointee (AWake 1) s = Some s'
          ∧ waiter_flag (queue s') 0 1 = false.
Proof.
  split; [by vm_compute|].
  apply (woken_waiter_leaves_set 3 conflict_1_2 cmp_pointee 2 _ 1 2 0).
  - exists schedule_waiter_signalled. by vm_compute.
  - by vm_compute.
Defined.

Lemma end_signals_first_least_gate_waiter_witness :
  let q := queue (state_after 3 conflict_1_2 cmp_pointee 1
                    schedule_two_at_gate) in
  let q' := ended q 0 in
  (job_queue_end_job cmp_pointee q 0 = Some (q', [], ctx (job q 0))
   ∧ ∀ j, (j < Z.to_nat (registered_workers q'))%nat →
          state (job q' j) ≠ JOB_WAIT_QUEUE_ENTER)
  ∨ ∃ k, job_queue_end_job cmp_pointee q 0
         = Some (q', [] ++ [k], ctx (job q 0))
      ∧ (k < Z.to_nat (registered_workers q'))%nat
      ∧ state (job q' k) = JOB_WAIT_QUEUE_ENTER
      ∧ (∀ j, (j < Z.to_nat (registered_workers q'))%nat →
              state (job q' j) = JOB_WAIT_QUEUE_ENTER →
              cmp_pointee (ctx_field q' j) (ctx_field q' k) ≠ -1)
      ∧ (∀ j, (j < k)%nat → state (job q' j) = JOB_WAIT_QUEUE_ENTER →
              cmp_pointee (ctx_field q' k) (ctx_field q' j) = -1).
Proof.
  apply end_signals_first_least_gate_waiter.
  - intros x. unfold cmp_pointee. rewrite handle_order_lt. lia.
  - intros x y z. unfold cmp_pointee. rewrite !handle_order_lt. lia.
  - intros x y z. unfold cmp_pointee. rewrite !handle_order_lt. lia.
  - by vm_compute.
  - left. by vm_compute.
  - by vm_compute.
Defined.

Lemma woken_gate_waiter_takes_seat_witness :
  let q := queue (state_after 3 conflict_1_2 cmp_pointee 1
                    schedule_one_at_gate) in
  let q' := outcome_queue (start_resume conflict_1_2 q 1 (AtGate 3)) in
  active_workers q = max_concurrent_workers q
  ∧ active_workers q' = max_concurrent_workers q + 1
  ∧ ctx (job q' 1) = 3.
Proof.
  intros q q'.
  destruct (woken_gate_waiter_takes_seat conflict_1_2 q 1 3) as [Ha Hc].
  split; [by vm_compute|]. split.
  - unfold q'. rewrite Ha. by vm_compute.
  - apply Hc. vm_compute. lia.
Defined.

Lemma start_leaves_other_slots_witness :
  let q := queue (state_after 3 conflict_1_2 cmp_pointee 2
                    schedule_second_idle) in
  let q' := outcome_queue (job_queue_start_job conflict_1_2 q 1 2) in
  registered_workers q' = registered_workers q
  ∧ max_concurrent_workers q' = max_concurrent_workers q
  ∧ same_but_waiters (job q' 0) (job q 0).
Proof. apply start_leaves_other_slots. lia. Defined.

Lemma end_leaves_flags_and_other_slots_witness :
  let s := state_after 3 conflict_1_2 cmp_pointee 2 schedule_conflict_wait in
  let q := queue s in
  ∃ q' sigs r, job_queue_end_job cmp_pointee q 0 = Some (q', sigs, r)
    ∧ waiter_flag q' 0 1 = true
    ∧ active_workers q' = active_workers q - 1.
Proof.
  intros s q.
  assert (He : ∃ q' sigs r,
             job_queue_end_job cmp_pointee q 0 = Some (q', sigs, r)).
  { eexists _, _, _. reflexivity. }
  destruct He as (q' & sigs & r & He).
  destruct (end_leaves_flags_and_other_slots cmp_pointee q q' 0 sigs r He)
    as (_ & _ & Ha & _ & Hf).
  exists q', sigs, r. split; [done|]. split.
  - rewrite Hf. by vm_compute.
  - rewrite Ha. by vm_compute.
Defined.
